(** * TradePrivate client crypto engine: a shallow embedding and its properties

  The development follows the JavaScript sources of the repository:
  - [src/lib/crypto/fieldElement.js]       (module [Field])
  - [src/lib/crypto/commitmentGenerator.js] (module [Commitment])
  - [src/lib/crypto/nullifierGenerator.js]  (module [Nullifier])
  - [src/lib/crypto/hdKeyDerivation.js]     (module [HD])
  - [src/lib/crypto/orderEncryption.js]     (module [Cipher])
  - [src/lib/utils/errors.js]               (module [Retry])
  - [src/lib/tradeprivate/accountManager.js], [orderManager.js]
                                            (modules [Account], [Orders])

  BigInt values are [Z]; the JavaScript remainder [%] on BigInt truncates
  towards zero and is [Z.rem], BigInt division is [Z.quot].  Strings are
  sequences of 8-bit characters ([string]); byte arrays are [list Z] with
  entries in [0, 256).  A JavaScript exception is a value of [JsError]
  carried by [result]. *)

From Stdlib Require Import ZArith Lia List String Ascii Bool Znumtheory Zpow_facts Floats.
From Equations Require Import Equations.
From stdpp Require Import base option list gmap.
Import ListNotations.

Local Open Scope Z_scope.

(* ===================================================================== *)
(** ** JavaScript values, exceptions and strings *)
(* ===================================================================== *)

Module Js.

(** An [Error] object: its class name and its [message]. *)
Record JsError := mkError { err_name : string; err_message : string }.

Definition Error (msg : string) : JsError := mkError "Error" msg.
Definition TypeError (msg : string) : JsError := mkError "TypeError" msg.
Definition SyntaxError (msg : string) : JsError := mkError "SyntaxError" msg.
Definition RangeError (msg : string) : JsError := mkError "RangeError" msg.

(** The outcome of an expression that may throw. *)
Inductive result (A : Type) : Type :=
| Ok (a : A)
| Throw (e : JsError).
Arguments Ok {A} a.
Arguments Throw {A} e.

Definition bind {A B} (m : result A) (k : A -> result B) : result B :=
  match m with
  | Ok a => k a
  | Throw e => Throw e
  end.

Definition is_ok {A} (m : result A) : bool :=
  match m with Ok _ => true | Throw _ => false end.

(** [try { body } catch (error) { handler(error) }]. *)
Definition try_catch {A} (body : result A) (handler : JsError -> result A) : result A :=
  match body with
  | Ok a => Ok a
  | Throw e => handler e
  end.

(** The values that reach [BigInt(...)], the [FieldElement] constructor and
    the byte helpers. [JNumber n] is a Number holding the integer [n];
    [JInvalid] stands for the values [BigInt] rejects with a [TypeError] or
    [RangeError] ([undefined], [null], a fractional Number). *)
Inductive jsval : Type :=
| JBigInt (z : Z)
| JNumber (n : Z)
| JString (s : string)
| JBytes (bytes : list Z)
| JInvalid.

(** *** Characters and digits *)

Definition chars (s : string) : list ascii := list_ascii_of_string s.
Definition ofChars (cs : list ascii) : string := string_of_list_ascii cs.

Definition code (c : ascii) : Z := Z.of_N (N_of_ascii c).

(** White space and line terminators (the ASCII ones). *)
Definition isSpace (c : ascii) : bool :=
  let n := code c in
  (n =? 9) || (n =? 10) || (n =? 11) || (n =? 12) || (n =? 13) || (n =? 32).

(** Value of a digit character in radices up to 36. *)
Definition digitVal (c : ascii) : option Z :=
  let n := code c in
  if (48 <=? n) && (n <=? 57) then Some (n - 48)
  else if (97 <=? n) && (n <=? 122) then Some (n - 97 + 10)
  else if (65 <=? n) && (n <=? 90) then Some (n - 65 + 10)
  else None.

Definition digitIn (radix : Z) (c : ascii) : option Z :=
  match digitVal c with
  | Some d => if d <? radix then Some d else None
  | None => None
  end.

(** The character of the digit [d] as [toString(radix)] prints it
    (lower case). *)
Definition digitChar (d : Z) : ascii :=
  if d <? 10 then ascii_of_N (Z.to_N (48 + d)) else ascii_of_N (Z.to_N (97 + d - 10)).

(** All of [cs] read as digits of [radix], most significant first, on top
    of the accumulator [acc]; [None] when a character is not a digit. *)
Fixpoint readDigits (radix : Z) (acc : Z) (cs : list ascii) : option Z :=
  match cs with
  | [] => Some acc
  | c :: cs' =>
      match digitIn radix c with
      | Some d => readDigits radix (acc * radix + d) cs'
      | None => None
      end
  end.

Fixpoint dropWhile {A} (f : A -> bool) (l : list A) : list A :=
  match l with
  | [] => []
  | x :: l' => if f x then dropWhile f l' else l
  end.

Definition trimChars (cs : list ascii) : list ascii :=
  rev (dropWhile isSpace (rev (dropWhile isSpace cs))).

(** [String.prototype.trim]. *)
Definition trim (s : string) : string := ofChars (trimChars (chars s)).

(** [s.startsWith(p)]. *)
Definition startsWith (s p : string) : bool := String.prefix p s.

(** [s.slice(n)] for [0 <= n]. *)
Definition sliceFrom (n : nat) (s : string) : string := ofChars (skipn n (chars s)).

(** [s.padStart(n, "0")]. *)
Definition padStart0 (n : nat) (s : string) : string :=
  ofChars (repeat "0"%char (n - String.length s) ++ chars s).

(** [s.includes(t)]. *)
Fixpoint includes (s t : string) : bool :=
  String.prefix t s ||
  match s with
  | EmptyString => false
  | String _ s' => includes s' t
  end.

(** *** [BigInt(string)] (StringToBigInt) *)

Definition isChar (c : ascii) (n : Z) : bool := code c =? n.

Definition unsignedLiteral (cs : list ascii) : option Z :=
  match cs with
  | z :: x :: ds =>
      if isChar z 48 && (isChar x 120 || isChar x 88) then
        match ds with [] => None | _ => readDigits 16 0 ds end
      else if isChar z 48 && (isChar x 111 || isChar x 79) then
        match ds with [] => None | _ => readDigits 8 0 ds end
      else if isChar z 48 && (isChar x 98 || isChar x 66) then
        match ds with [] => None | _ => readDigits 2 0 ds end
      else readDigits 10 0 cs
  | _ => readDigits 10 0 cs
  end.

(** White space is trimmed, the empty string is [0n], a sign goes with a
    decimal literal only. *)
Definition stringToBigInt (s : string) : option Z :=
  match trimChars (chars s) with
  | [] => Some 0
  | c :: ds =>
      if isChar c 45 then
        match ds with
        | [] => None
        | _ => option_map Z.opp (readDigits 10 0 ds)
        end
      else if isChar c 43 then
        match ds with
        | [] => None
        | _ => readDigits 10 0 ds
        end
      else unsignedLiteral (c :: ds)
  end.

(** [BigInt(v)]. A byte array is first turned into the comma-separated
    string of its entries, which is a BigInt literal only when the array
    has at most one entry. *)
Definition BigInt (v : jsval) : result Z :=
  match v with
  | JBigInt z => Ok z
  | JNumber n => Ok n
  | JString s =>
      match stringToBigInt s with
      | Some z => Ok z
      | None => Throw (SyntaxError "Cannot convert string to a BigInt")
      end
  | JBytes [] => Ok 0
  | JBytes [b] => Ok b
  | JBytes _ => Throw (SyntaxError "Cannot convert array to a BigInt")
  | JInvalid => Throw (TypeError "Cannot convert value to a BigInt")
  end.

(** *** Printing integers: [n.toString(radix)] *)

(** Digits of [n >= 0], most significant first, pushed in front of [acc];
    the loop divides by the radix until one digit is left. *)
Fixpoint digitsLoop (radix : Z) (fuel : nat) (n : Z) (acc : list ascii) : list ascii :=
  match fuel with
  | O => digitChar n :: acc
  | S fuel' =>
      if n <? radix then digitChar n :: acc
      else digitsLoop radix fuel' (n / radix) (digitChar (n mod radix) :: acc)
  end.

Definition digitsOf (radix : Z) (n : Z) : list ascii :=
  digitsLoop radix (Z.to_nat (Z.log2 n)) n [].

Definition toStringRadix (radix : Z) (n : Z) : string :=
  if n <? 0 then String "-"%char (ofChars (digitsOf radix (- n)))
  else ofChars (digitsOf radix n).

(** *** [parseInt(s, 16)] and typed-array stores *)

Fixpoint takeDigits (radix : Z) (cs : list ascii) : list Z :=
  match cs with
  | [] => []
  | c :: cs' =>
      match digitIn radix c with
      | Some d => d :: takeDigits radix cs'
      | None => []
      end
  end.

Definition strip0x (cs : list ascii) : list ascii :=
  match cs with
  | z :: x :: ds => if isChar z 48 && (isChar x 120 || isChar x 88) then ds else cs
  | _ => cs
  end.

(** [parseInt(s, radix)]: leading white space, a sign, an optional ["0x"]
    when the radix is 16, then the longest run of digits. [None] is
    [NaN]. *)
Definition parseInt (radix : Z) (cs : list ascii) : option Z :=
  let cs := dropWhile isSpace cs in
  let '(sign, cs) :=
    match cs with
    | c :: r => if isChar c 45 then (-1, r) else if isChar c 43 then (1, r) else (1, cs)
    | [] => (1, cs)
    end in
  match takeDigits radix (if radix =? 16 then strip0x cs else cs) with
  | [] => None
  | ds => Some (sign * fold_left (fun acc d => acc * radix + d) ds 0)
  end.

Definition parseInt16 (cs : list ascii) : option Z := parseInt 16 cs.

(** The conversion applied by a store into a [Uint8Array]. *)
Definition toUint8 (v : option Z) : Z :=
  match v with
  | Some n => n mod 256
  | None => 0
  end.

(** The loop
    [for (i = 0; i < hex.length; i += 2) bytes[i / 2] = parseInt(hex.slice(i, i + 2), 16)]
    over an array of [hex.length / 2] entries: a trailing single
    character falls outside the array and is dropped. *)
Fixpoint parseHexPairs (cs : list ascii) : list Z :=
  match cs with
  | a :: b :: cs' => toUint8 (parseInt16 [a; b]) :: parseHexPairs cs'
  | _ => []
  end.

(** The loop [for (i = length - 1; i >= 0; i--) { bytes[i] = Number(v & 0xFFn); v >>= 8n }]
    on a BigInt [v]: the [length] low bytes, most significant first. *)
Fixpoint bigEndian (length : nat) (v : Z) : list Z :=
  match length with
  | O => []
  | S k => bigEndian k (Z.shiftr v 8) ++ [Z.land v 255]
  end.

End Js.

Export Js.

#[export] Instance result_ret : MRet result := @Ok.
#[export] Instance result_bind : MBind result := fun A B k m => Js.bind m k.

(* ===================================================================== *)
(** ** Fixed-width digit strings *)
(* ===================================================================== *)

Module Digits.

(** The [k] low digits of [v] in radix 16, most significant first. *)
Fixpoint fixed (k : nat) (v : Z) : list Z :=
  match k with
  | O => []
  | S k' => (v / 16 ^ Z.of_nat k') mod 16 :: fixed k' v
  end.

(** Two hexadecimal digits make a byte. *)
Fixpoint pairBytes (ds : list Z) : list Z :=
  match ds with
  | a :: b :: ds' => (16 * a + b) :: pairBytes ds'
  | _ => []
  end.

(** The digit values of a string of hexadecimal digits. *)
Fixpoint hexDigits (cs : list ascii) : option (list Z) :=
  match cs with
  | [] => Some []
  | c :: cs' =>
      match digitIn 16 c, hexDigits cs' with
      | Some d, Some ds => Some (d :: ds)
      | _, _ => None
      end
  end.

(** The number a list of digits stands for. *)
Definition valueOf (ds : list Z) : Z := fold_left (fun acc d => acc * 16 + d) ds 0.

(** The entries of a [Uint8Array]. *)
Definition isByte (b : Z) : Prop := 0 <= b < 256.

End Digits.
(* ===================================================================== *)
(** ** fieldElement.js *)
(* ===================================================================== *)

Module Field.

(** [ZK_CONFIG.FIELD_SIZE], the order of the BN254 scalar field. *)
Definition FIELD_SIZE : Z :=
  21888242871839275222246405745257275088548364400416034343698204186575808495617.

(** An instance of [class FieldElement]: its only field is [value]. *)
Record FieldElement := mkFE { value : Z }.

(** [value % FIELD_SIZE], then [+= FIELD_SIZE] when negative. *)
Definition reduce (z : Z) : Z :=
  let r := Z.rem z FIELD_SIZE in
  if r <? 0 then r + FIELD_SIZE else r.

(** [constructor(value)]: a string is read as hexadecimal, with ["0x"]
    put in front when it is missing. *)
Definition new_FieldElement (v : jsval) : result FieldElement :=
  z ← match v with
      | JString s => BigInt (JString (if startsWith s "0x" then s else String.append "0x" s))
      | _ => BigInt v
      end;
  Ok (mkFE (reduce z)).

(** [other instanceof FieldElement ? other : new FieldElement(other)]. *)
Inductive operand : Type :=
| Elem (x : FieldElement)
| Raw (v : jsval).

Definition coerce (other : operand) : result FieldElement :=
  match other with
  | Elem x => Ok x
  | Raw v => new_FieldElement v
  end.

Definition fromHex (hex : string) : result FieldElement :=
  new_FieldElement (JString (if startsWith hex "0x" then hex else String.append "0x" hex)).

(** [value = (value << 8n) | BigInt(bytes[i])]. *)
Definition bytesValue (bytes : list Z) : Z :=
  fold_left (fun v b => Z.lor (Z.shiftl v 8) b) bytes 0.

Definition fromBytes (bytes : list Z) : result FieldElement :=
  new_FieldElement (JBigInt (bytesValue bytes)).

(** [fromString]: both branches invoke the constructor on the string. *)
Definition fromString (str : string) : result FieldElement :=
  if startsWith str "0x" then new_FieldElement (JString str)
  else try_catch (new_FieldElement (JString str))
         (fun _ => Throw (Error (String.append "Invalid string format for field element: " str))).

Definition add (this : FieldElement) (other : operand) : result FieldElement :=
  o ← coerce other;
  new_FieldElement (JBigInt (Z.rem (value this + value o) FIELD_SIZE)).

Definition sub (this : FieldElement) (other : operand) : result FieldElement :=
  o ← coerce other;
  let r := value this - value o in
  new_FieldElement (JBigInt (if r <? 0 then r + FIELD_SIZE else r)).

Definition mul (this : FieldElement) (other : operand) : result FieldElement :=
  o ← coerce other;
  new_FieldElement (JBigInt (Z.rem (value this * value o) FIELD_SIZE)).

Definition multiply := mul.

(** The loop of [pow], by the bits of [exp], least significant first:
    [if (exp & 1n) result = result * base % p; base = base * base % p; exp >>= 1n]. *)
Fixpoint powLoop (exp : positive) (res base : Z) : Z :=
  match exp with
  | xH => Z.rem (res * base) FIELD_SIZE
  | xO e => powLoop e res (Z.rem (base * base) FIELD_SIZE)
  | xI e => powLoop e (Z.rem (res * base) FIELD_SIZE) (Z.rem (base * base) FIELD_SIZE)
  end.

Definition pow (this : FieldElement) (exponent : jsval) : result FieldElement :=
  exp ← BigInt exponent;
  new_FieldElement (JBigInt
    match exp with
    | Zpos e => powLoop e 1 (value this)
    | _ => 1
    end).

(** [inv() { return this.pow(FIELD_SIZE - 2n) }]. *)
Definition inv (this : FieldElement) : result FieldElement :=
  pow this (JBigInt (FIELD_SIZE - 2)).

Definition toHex (this : FieldElement) : string :=
  String.append "0x" (padStart0 64 (toStringRadix 16 (value this))).

Definition toBytes (this : FieldElement) : list Z :=
  firstn 32 (parseHexPairs (chars (padStart0 64 (toStringRadix 16 (value this)))) ++ repeat 0 32).

Definition equals (this : FieldElement) (other : operand) : result bool :=
  o ← coerce other; Ok (value this =? value o).

Definition isZero (this : FieldElement) : bool := value this =? 0.

(** *** The function interface of the same file *)

Definition bytesToBigInt (bytes : list Z) : Z :=
  fold_left (fun r b => Z.shiftl r 8 + b) bytes 0.

(** [toFieldElement(value)]: a Number must be a non-negative integer, a
    string goes straight to [BigInt]. *)
Definition toFieldElement (v : jsval) : result Z :=
  z ← match v with
      | JBigInt z => Ok z
      | JNumber n =>
          if n <? 0 then Throw (Error "Number must be a non-negative integer") else Ok n
      | JString s =>
          try_catch (BigInt (JString s))
            (fun _ => Throw (Error (String.append "Invalid string format for field element: " s)))
      | JBytes bs => Ok (bytesToBigInt bs)
      | JInvalid => Throw (Error "Unsupported type for field element")
      end;
  Ok (reduce z).

Definition addFieldElements (a b : jsval) : result Z :=
  x ← toFieldElement a; y ← toFieldElement b; Ok (Z.rem (x + y) FIELD_SIZE).

Definition multiplyFieldElements (a b : jsval) : result Z :=
  x ← toFieldElement a; y ← toFieldElement b; Ok (Z.rem (x * y) FIELD_SIZE).

(** [extendedGCD(a, b)] of [modInverse]: recursion on [b % a]. *)
Equations extendedGCD (a b : Z) : Z * Z * Z by wf (Z.abs_nat a) lt :=
  extendedGCD a b with Z.eq_dec a 0 := {
    | left _ => (b, 0, 1)
    | right Hne =>
        let '(g, x1, y1) := extendedGCD (Z.rem b a) a in
        (g, y1 - Z.quot b a * x1, x1) }.
Next Obligation.
  intros a Hne b _. pose proof (Z.rem_bound_abs b a Hne). lia.
Qed.

Definition modInverse (a m : Z) : result Z :=
  let '(g, x, _) := extendedGCD (Z.rem a m) m in
  if g =? 1 then Ok (Z.rem (Z.rem x m + m) m)
  else Throw (Error "Modular inverse does not exist").

Definition inverseFieldElement (a : jsval) : result Z :=
  element ← toFieldElement a;
  if element =? 0 then Throw (Error "Cannot compute inverse of zero")
  else modInverse element FIELD_SIZE.

(** *** Instances as heap objects

    A [FieldElement] is an object on the JavaScript heap; [new] allocates a
    fresh one.  The store maps the address of an instance to its fields. *)

Definition loc := positive.
Abbreviation heap := (gmap loc FieldElement).

Definition alloc (fe : FieldElement) (h : heap) : loc * heap :=
  let l := fresh (dom h) in (l, <[l := fe]> h).

(** An argument: a reference to an instance, or a raw value. *)
Inductive arg : Type :=
| Ref (l : loc)
| Val (v : jsval).

Definition deref (h : heap) (l : loc) : result FieldElement :=
  match h !! l with
  | Some fe => Ok fe
  | None => Throw (TypeError "Cannot read properties of undefined")
  end.

Definition argOperand (h : heap) (a : arg) : result operand :=
  match a with
  | Ref l => fe ← deref h l; Ok (Elem fe)
  | Val v => Ok (Raw v)
  end.

Inductive method : Type := Add | Sub | Mul.

Definition run (m : method) : FieldElement -> operand -> result FieldElement :=
  match m with Add => add | Sub => sub | Mul => mul end.

(** [this.m(other)] on the heap [h]. *)
Definition invoke (m : method) (this : loc) (other : arg) (h : heap) : result (loc * heap) :=
  x ← deref h this;
  o ← argOperand h other;
  fe ← run m x o;
  Ok (alloc fe h).

(** [this.pow(exponent)] on the heap [h]. *)
Definition invokePow (this : loc) (exponent : jsval) (h : heap) : result (loc * heap) :=
  x ← deref h this;
  fe ← pow x exponent;
  Ok (alloc fe h).

(** [new FieldElement(v)] on the heap [h]. *)
Definition construct (v : jsval) (h : heap) : result (loc * heap) :=
  fe ← new_FieldElement v;
  Ok (alloc fe h).

End Field.

(* ===================================================================== *)
(** ** fieldElement.js: the rest of the function interface *)
(* ===================================================================== *)

Module FieldFun.
Import Field.

(** [subtractFieldElements]: the remainder, then [+= FIELD_SIZE] when it
    is negative. *)
Definition subtractFieldElements (a b : jsval) : result Z :=
  x ← toFieldElement a; y ← toFieldElement b;
  let r := Z.rem (x - y) FIELD_SIZE in
  Ok (if r <? 0 then r + FIELD_SIZE else r).

(** [negateFieldElement]. *)
Definition negateFieldElement (a : jsval) : result Z :=
  element ← toFieldElement a;
  Ok (if element =? 0 then 0 else FIELD_SIZE - element).

(** [validateFieldElement]: a BigInt is checked as it is, anything else
    goes through [toFieldElement] first. *)
Definition validateFieldElement (v : jsval) : result bool :=
  fieldElement ← match v with
                 | JBigInt z => Ok z
                 | _ => toFieldElement v
                 end;
  if FIELD_SIZE <=? fieldElement then
    Throw (Error (String.append "Field element too large: "
             (String.append (toStringRadix 10 fieldElement)
                (String.append " >= " (toStringRadix 10 FIELD_SIZE)))))
  else if fieldElement <? 0 then Throw (Error "Field element cannot be negative")
  else Ok true.

(** [a.map((val, i) => f(val, b[i]))] for arrays of one length: the first
    element that throws ends the map. *)
Fixpoint mapPairs (f : jsval -> jsval -> result Z) (a b : list jsval) : result (list Z) :=
  match a, b with
  | x :: a', y :: b' => r ← f x y; rs ← mapPairs f a' b'; Ok (r :: rs)
  | _, _ => Ok []
  end.

(** [addFieldElementArrays] and [multiplyFieldElementArrays]. *)
Definition addFieldElementArrays (a b : list jsval) : result (list Z) :=
  if negb (length a =? length b)%nat then Throw (Error "Arrays must have the same length")
  else mapPairs addFieldElements a b.

Definition multiplyFieldElementArrays (a b : list jsval) : result (list Z) :=
  if negb (length a =? length b)%nat then Throw (Error "Arrays must have the same length")
  else mapPairs multiplyFieldElements a b.

End FieldFun.
(* ===================================================================== *)
(** ** commitmentGenerator.js *)
(* ===================================================================== *)

Module Commitment.
Import Field.

(** The order object built by [formatOrderData]: amounts are decimal
    strings, [orderType] and [leverage] are Numbers holding integers. *)
Record OrderData := mkOrderData {
  market : string;
  size : string;
  price : string;
  isLong : bool;
  isReduceOnly : bool;
  orderType : Z;
  leverage : Z;
  tpPrice : string;
  slPrice : string
}.

(** [x || d] on a string: the empty string is falsy. *)
Definition strOr (x d : string) : string :=
  match x with EmptyString => d | _ => x end.

(** [x || d] on a Number: zero is falsy. *)
Definition numOr (x d : Z) : Z := if x =? 0 then d else x.

(** [generateAccountCommitment]: [(privateKey + nonce) * 7]. *)
Definition generateAccountCommitment (privateKey nonce : operand) : result FieldElement :=
  privKeyElement ← coerce privateKey;
  nonceElement ← coerce nonce;
  combined ← add privKeyElement (Elem nonceElement);
  mul combined (Raw (JBigInt 7)).

(** [serializeOrderData]: the eight parts joined by ["|"]. *)
Definition serializeOrderData (o : OrderData) : string :=
  String.concat "|"
    [ strOr (market o) "0x0";
      strOr (size o) "0";
      strOr (price o) "0";
      toStringRadix 10 (numOr (orderType o) 0);
      (if isLong o then "1" else "0")%string;
      toStringRadix 10 (numOr (leverage o) 1);
      strOr (tpPrice o) "0";
      strOr (slPrice o) "0" ].

(** The bytes a [TextEncoder] gives for a string of 8-bit characters. *)
Definition encode (s : string) : list Z := map code (chars s).

(** [hashOrderData]: [hash = hash * 31 + byte] over the field, from 1. *)
Definition hashStep (hash : result FieldElement) (byte : Z) : result FieldElement :=
  h ← hash;
  m ← mul h (Raw (JBigInt 31));
  b ← new_FieldElement (JBigInt byte);
  add m (Elem b).

Definition hashOrderData (data : string) : result FieldElement :=
  fold_left hashStep (encode data) (new_FieldElement (JBigInt 1)).

(** [generateOrderCommitment]: the hash of the serialized order plus the
    nonce. *)
Definition generateOrderCommitment (orderData : OrderData) (nonce : operand)
  : result FieldElement :=
  nonceElement ← coerce nonce;
  dataHash ← hashOrderData (serializeOrderData orderData);
  add dataHash (Elem nonceElement).

(** [commitment.toString(16)] for a commitment that is no [FieldElement]:
    a string prints as itself. *)
Definition rawToString16 (v : jsval) : result string :=
  match v with
  | JBigInt z => Ok (toStringRadix 16 z)
  | JNumber n => Ok (toStringRadix 16 n)
  | JString s => Ok s
  | JBytes _ => Throw (RangeError "toString() radix argument is ignored by a typed array")
  | JInvalid => Throw (TypeError "Cannot read properties of undefined (reading 'toString')")
  end.

Section CommitHash.

(** [keccak256] of js-sha3: the digest of a byte array as 64 hexadecimal
    characters. *)
Variable keccak256 : list Z -> string.

(** [generateCommitHash(commitment, nonce, address)]. *)
Definition generateCommitHash (commitment : operand) (nonce : jsval) (address : string)
  : result string :=
  commitmentHex ←
    match commitment with
    | Elem fe => Ok (sliceFrom 2 (toHex fe))
    | Raw v => s ← rawToString16 v; Ok (padStart0 64 s)
    end;
  n ← BigInt nonce;
  let nonceHex := padStart0 64 (toStringRadix 16 n) in
  let addressHex := if startsWith address "0x" then sliceFrom 2 address else address in
  let packedHex := String.append commitmentHex (String.append nonceHex (padStart0 40 addressHex)) in
  let bytes := parseHexPairs (chars packedHex) in
  Ok (String.append "0x" (keccak256 bytes)).

End CommitHash.

(** [bigintToBytes32] / [nonceToBytes]. *)
Definition bigintToBytes32 (v : Z) : list Z := bigEndian 32 v.

(** [hexToBytes]. *)
Definition hexToBytes (hex : string) : list Z :=
  parseHexPairs (chars (if startsWith hex "0x" then sliceFrom 2 hex else hex)).

(** *** The ledger's side of the commit hash *)

(** Solidity's [abi.encodePacked] of an unsigned integer of [k] bytes: its
    [k] bytes, most significant first. *)
Fixpoint abi_uint (k : nat) (n : Z) : list Z :=
  match k with
  | O => []
  | S k' => (n / 256 ^ Z.of_nat k') mod 256 :: abi_uint k' n
  end.

(** [abi.encodePacked(commitment, nonce, address)] for a [uint256]
    commitment, a [uint256] nonce and a 20-byte address. *)
Definition abi_encodePacked (commitment nonce address : Z) : list Z :=
  abi_uint 32 commitment ++ abi_uint 32 nonce ++ abi_uint 20 address.

End Commitment.
(* ===================================================================== *)
(** ** nullifierGenerator.js (the generators; [isNullifierUsed] talks to
       the ledger and is in [Orders]) *)
(* ===================================================================== *)

Module Nullifier.
Import Field.

(** [generateOrderNullifier]: [privateKey + 2 * orderCommitment + 3 * nonce]
    as a 0x-prefixed hexadecimal string. *)
Definition generateOrderNullifier (privateKey orderCommitment nonce : operand)
  : result string :=
  privKeyElement ← coerce privateKey;
  commitElement ← coerce orderCommitment;
  nonceElement ← coerce nonce;
  c2 ← mul commitElement (Raw (JBigInt 2));
  n3 ← mul nonceElement (Raw (JBigInt 3));
  s ← add privKeyElement (Elem c2);
  combined ← add s (Elem n3);
  Ok (toHex combined).

(** [hashString]: [hash = (hash * 31 + byte) % FIELD_SIZE] from 0. *)
Definition hashString (input : string) : Z :=
  fold_left (fun hash b => Z.rem (hash * 31 + b) FIELD_SIZE) (Commitment.encode input) 0.

Definition generateDeterministicNullifier (secret : operand) (context : string)
  : result string :=
  secretElement ← coerce secret;
  nullifier ← mul secretElement (Raw (JBigInt (hashString context)));
  Ok (toHex nullifier).

End Nullifier.
(* ===================================================================== *)
(** ** nullifierGenerator.js: the other generators and the validators *)
(* ===================================================================== *)

Module NullifierCheck.
Import Field Commitment Nullifier.

(** [addressToFieldElement] (the same in both generators): the bytes of
    the address after ["0x"], read big-endian. *)
Definition addressToFieldElement (address : string) : result FieldElement :=
  if negb (startsWith address "0x") then Throw (Error "Invalid address format")
  else fromBytes (hexToBytes (sliceFrom 2 address)).

(** [generateAccountNullifier]:
    [privateKey + 5 * amount + 7 * recipient + 11 * nonce]. *)
Definition generateAccountNullifier (privateKey : operand) (amount : jsval)
    (recipient : string) (nonce : operand) : result string :=
  privKeyElement ← coerce privateKey;
  a ← BigInt amount;
  amountElement ← new_FieldElement (JBigInt a);
  recipientElement ← addressToFieldElement recipient;
  nonceElement ← coerce nonce;
  a5 ← mul amountElement (Raw (JBigInt 5));
  s1 ← add privKeyElement (Elem a5);
  r7 ← mul recipientElement (Raw (JBigInt 7));
  s2 ← add s1 (Elem r7);
  n11 ← mul nonceElement (Raw (JBigInt 11));
  combined ← add s2 (Elem n11);
  Ok (toHex combined).

(** [generateBatchNullifier]: [batchHash + 13 * keeper + 17 * timestamp]. *)
Definition generateBatchNullifier (batchHash : jsval) (keeperKey : string) (timestamp : jsval)
  : result string :=
  b ← BigInt batchHash;
  batchElement ← new_FieldElement (JBigInt b);
  keeperElement ← addressToFieldElement keeperKey;
  t ← BigInt timestamp;
  timestampElement ← new_FieldElement (JBigInt t);
  k13 ← mul keeperElement (Raw (JBigInt 13));
  s ← add batchElement (Elem k13);
  t17 ← mul timestampElement (Raw (JBigInt 17));
  combined ← add s (Elem t17);
  Ok (toHex combined).

(** The test of [/^0x[0-9a-fA-F]{64}$/]. *)
Definition isHexChar (c : ascii) : bool :=
  match digitIn 16 c with Some _ => true | None => false end.

Definition matchesNullifierPattern (s : string) : bool :=
  match chars s with
  | z :: x :: ds =>
      isChar z 48 && isChar x 120 && (length ds =? 64)%nat && forallb isHexChar ds
  | _ => false
  end.

(** [validateNullifier] on a string. *)
Definition validateNullifier (nullifier : string) : result bool :=
  if negb (startsWith nullifier "0x") then Throw (Error "Nullifier must start with 0x")
  else if negb (String.length nullifier =? 66)%nat then
    Throw (Error "Nullifier must be 32 bytes (64 hex chars)")
  else if negb (matchesNullifierPattern nullifier) then
    Throw (Error "Nullifier contains invalid characters")
  else
    v ← BigInt (JString nullifier);
    if FIELD_SIZE <=? v then Throw (Error "Nullifier exceeds field size")
    else Ok true.

(** The loop of [validateNullifiers] that collects the messages. *)
Fixpoint collectErrors (i : Z) (nullifiers : list string) : list string :=
  match nullifiers with
  | [] => []
  | n :: rest =>
      match validateNullifier n with
      | Ok _ => collectErrors (i + 1) rest
      | Throw e =>
          String.append "Nullifier "
            (String.append (toStringRadix 10 i) (String.append ": " (err_message e)))
          :: collectErrors (i + 1) rest
      end
  end.

(** [new Set(nullifiers).size]: the number of distinct strings. *)
Fixpoint distinct (seen : list string) (l : list string) : nat :=
  match l with
  | [] => length seen
  | x :: l' => if existsb (String.eqb x) seen then distinct seen l' else distinct (x :: seen) l'
  end.

(** [validateNullifiers]. *)
Definition validateNullifiers (nullifiers : list string) : result bool :=
  match collectErrors 0 nullifiers with
  | [] =>
      if negb (distinct [] nullifiers =? length nullifiers)%nat
      then Throw (Error "Duplicate nullifiers detected")
      else Ok true
  | errors =>
      Throw (Error (String.append "Invalid nullifiers: " (String.concat ", " errors)))
  end.

End NullifierCheck.
(* ===================================================================== *)
(** ** The world outside the client: ledger, storage, randomness

    The orchestrators are asynchronous functions that suspend on calls to
    the ledger contract, to browser storage and on timers, and draw bytes
    from [crypto.getRandomValues].  An [Env] fixes what the outside world
    answers to the [t]-th call; the [World] records how many calls were
    made, how many random bytes were drawn, the calls themselves in order,
    and the fields of the two manager objects.  Monitoring, console output
    and timestamps are left out. *)
(* ===================================================================== *)

Module Effects.
Import Field Commitment.

(** What [contract.keepers(address)] resolves to. *)
Record Keeper := mkKeeper {
  publicKey : string;
  reputationScore : Z;
  successfulBatches : Z;
  failedBatches : Z;
  isActive : bool;
  isSlashed : bool
}.

(** A transaction response (its [hash]) and a receipt (its [blockNumber]). *)
Record Tx := mkTx { hash : string }.
Record Receipt := mkReceipt { receiptBlock : Z }.

(** The calls that leave the client, indexed by what they resolve to. *)
Inductive call : Type -> Type :=
| GetContract (name : string) (withSigner : bool) : call unit
| GetBlockNumber : call Z
| Balances (address : string) : call Z
| CommitTradingAccount (commitHash : string) : call Tx
| RevealTradingAccount (commitment : string) (nonce : Z) (proof : list Z) : call Tx
| Wait (tx : Tx) : call Receipt
| UsedNullifiers (nullifier : string) : call bool
| ActiveKeeperListLength : call Z
| ActiveKeeperList (i : Z) : call string
| Keepers (address : string) : call Keeper
| SubmitOrderPrivate (proof : list Z) (nullifier accountCommitment orderCommitment : string)
    (encryptedOrder : list Z) : call Tx
| SaveAccountInfo (commitment : string) (nonce : Z) : call unit
| SavePendingCommit (commitment : string) (nonce : Z) (commitHash : string) (block : Z) : call unit
| RemovePendingCommit : call unit
| SaveOrderHistory : call unit
| Sleep (ms : Z) : call unit.

Inductive event : Type :=
| Called {A : Type} (c : call A).

(** The parameters of an order as the user interface passes them. *)
Record OrderParams := mkOrderParams {
  p_market : string;
  p_size : string;
  p_price : string;
  p_isLong : bool;
  p_isReduceOnly : bool;
  p_orderType : Z;
  p_leverage : Z;
  p_tpPrice : string;
  p_slPrice : string
}.

(** The outside world, and the library functions the repository imports:
    [keccak256] (js-sha3), [ethers.getAddress], and the decimal formatting
    behind [InputValidator.validateOrderParams] and [formatOrderData]
    ([parseFloat], [toFixed], [ethers.parseUnits]). *)
Record Env := mkEnv {
  respond : forall A : Type, nat -> call A -> result A;
  random : nat -> Z;
  keccak256 : list Z -> string;
  getAddress : string -> option string;
  validateOrderParams : OrderParams -> result unit;
  formatOrderData : OrderParams -> result OrderData
}.

(** [this.pendingCommit]. *)
Record PendingCommit := mkPendingCommit {
  pc_commitment : FieldElement;
  pc_nonce : Z;
  pc_commitHash : string;
  pc_blockNumber : Z
}.

(** An entry of [this.pendingOrders]. *)
Record OrderInfo := mkOrderInfo {
  oi_params : OrderParams;
  oi_nullifier : string;
  oi_commitment : string;
  oi_txHash : string;
  oi_blockNumber : Z
}.

Record World := mkWorld {
  clock : nat;
  cursor : nat;
  trace : list event;
  privateKey : option FieldElement;
  accountCommitment : option FieldElement;
  accountNonce : option Z;
  pendingCommit : option PendingCommit;
  pendingOrders : list (string * OrderInfo);
  nullifierCollisions : Z
}.

(** An asynchronous computation: it runs from a world to an outcome and
    the world it leaves; an exception keeps the effects made before it. *)
Definition M (A : Type) : Type := World -> result A * World.

Definition ret {A} (a : A) : M A := fun w => (Ok a, w).

Definition bindM {A B} (m : M A) (k : A -> M B) : M B :=
  fun w =>
    match m w with
    | (Ok a, w') => k a w'
    | (Throw e, w') => (Throw e, w')
    end.

Definition throw {A} (e : JsError) : M A := fun w => (Throw e, w).

Definition lift {A} (r : result A) : M A := fun w => (r, w).

(** [try { body } catch (error) { handler(error) }]. *)
Definition tryCatch {A} (body : M A) (handler : JsError -> M A) : M A :=
  fun w =>
    match body w with
    | (Ok a, w') => (Ok a, w')
    | (Throw e, w') => handler e w'
    end.

Definition get : M World := fun w => (Ok w, w).

Definition modify (f : World -> World) : M unit := fun w => (Ok tt, f w).

Definition tick {A} (c : call A) (w : World) : World :=
  mkWorld (S (clock w)) (cursor w) (trace w ++ [Called c]) (privateKey w)
    (accountCommitment w) (accountNonce w) (pendingCommit w) (pendingOrders w)
    (nullifierCollisions w).

(** [await] of a call to the outside. *)
Definition perform (env : Env) {A} (c : call A) : M A :=
  fun w => (respond env A (clock w) c, tick c w).

Definition draw (n : nat) (w : World) : World :=
  mkWorld (clock w) (cursor w + n) (trace w) (privateKey w)
    (accountCommitment w) (accountNonce w) (pendingCommit w) (pendingOrders w)
    (nullifierCollisions w).

(** [crypto.getRandomValues(new Uint8Array(n))]. *)
Definition getRandomValues (env : Env) (n : nat) : M (list Z) :=
  fun w => (Ok (map (fun i => random env i mod 256) (seq (cursor w) n)), draw n w).

Definition setAccount (commitment : option FieldElement) (nonce : option Z) (w : World) : World :=
  mkWorld (clock w) (cursor w) (trace w) (privateKey w)
    commitment nonce (pendingCommit w) (pendingOrders w) (nullifierCollisions w).

Definition setPendingCommit (pc : option PendingCommit) (w : World) : World :=
  mkWorld (clock w) (cursor w) (trace w) (privateKey w)
    (accountCommitment w) (accountNonce w) pc (pendingOrders w) (nullifierCollisions w).

Definition setPendingOrders (os : list (string * OrderInfo)) (w : World) : World :=
  mkWorld (clock w) (cursor w) (trace w) (privateKey w)
    (accountCommitment w) (accountNonce w) (pendingCommit w) os (nullifierCollisions w).

Definition countCollision (w : World) : World :=
  mkWorld (clock w) (cursor w) (trace w) (privateKey w)
    (accountCommitment w) (accountNonce w) (pendingCommit w) (pendingOrders w)
    (nullifierCollisions w + 1).

(** [new Map().set(key, value)]: the entry of an existing key is replaced in
    place, a new key goes last. *)
Fixpoint mapSet {V} (key : string) (v : V) (m : list (string * V)) : list (string * V) :=
  match m with
  | [] => [(key, v)]
  | (k, x) :: m' => if String.eqb k key then (k, v) :: m' else (k, x) :: mapSet key v m'
  end.

(** The nonce generators of both managers:
    32 random bytes, the top four bits of the first cleared, read as one
    hexadecimal BigInt literal. *)
Definition hex2 (b : Z) : string := padStart0 2 (toStringRadix 16 b).

Definition maskFirst (bytes : list Z) : list Z :=
  match bytes with
  | [] => []
  | b :: bs => Z.land b 15 :: bs
  end.

Definition nonceOfBytes (bytes : list Z) : result Z :=
  BigInt (JString (String.append "0x" (String.concat "" (map hex2 (maskFirst bytes))))).

Definition generateNonce (env : Env) : M Z :=
  bindM (getRandomValues env 32) (fun bytes => lift (nonceOfBytes bytes)).

(** The private key as an argument: [null] before the keys are loaded. *)
Definition keyOperand (k : option FieldElement) : operand :=
  match k with
  | Some fe => Elem fe
  | None => Raw JInvalid
  end.

(** The mock proof [[0, 0, 0, 0, 0, 0, 0, 0]]. *)
Definition mockProof : list Z := repeat 0 8.

End Effects.

Export Effects.

#[export] Instance M_ret : MRet M := @ret.
#[export] Instance M_bind : MBind M := fun A B k m => bindM m k.

(* ===================================================================== *)
(** ** utils/errors.js: [ErrorHandler] *)
(* ===================================================================== *)

Module Retry.

Definition ValidationError : JsError := mkError "TradePrivateError" "Validation failed".

Definition maxRetries : nat := 3.
Definition initialDelay : Z := 1000.
Definition maxDelay : Z := 10000.
Definition backoffFactor : Z := 2.

(** [error.message || error.toString()]. *)
Definition messageOf (error : JsError) : string :=
  match err_message error with
  | EmptyString => err_name error
  | m => m
  end.

(** [isRetryableError]. *)
Definition isRetryableError (error : JsError) : bool :=
  let message := messageOf error in
  if includes message "network" || includes message "timeout" ||
     includes message "ETIMEDOUT" || includes message "ECONNREFUSED" then true
  else if includes message "nonce" || includes message "replacement fee too low" then true
  else if includes message "rate limit" || includes message "429" then true
  else if includes message "user rejected" || includes message "User denied" then false
  else if includes message "insufficient funds" || includes message "InsufficientBalance" then false
  else if includes message "revert" || includes message "NullifierAlreadyUsed" ||
          includes message "AccountDoesNotExist" then false
  else if includes message "InvalidProof" || includes message "proof" then false
  else true.

(** The loop of [withRetry] from attempt [i] on, with [remaining] retries
    left ([i + remaining = maxRetries]): the attempt is awaited; on an
    exception the loop rethrows when no retry is left or [shouldRetry]
    says no, and otherwise calls [onRetry], sleeps for [delay] and goes
    on with the delay doubled up to [maxDelay]. *)
Fixpoint retryLoop (env : Env) {A} (remaining : nat) (i : Z) (delay : Z)
    (fn : M A) (shouldRetry : JsError -> bool) (onRetry : Z -> JsError -> M unit) : M A :=
  tryCatch fn (fun error =>
    match remaining with
    | O => throw error
    | S k =>
        if negb (shouldRetry error) then throw error
        else
          _ ← onRetry (i + 1) error;
          _ ← perform env (Sleep delay);
          retryLoop env k (i + 1) (Z.min (delay * backoffFactor) maxDelay)
            fn shouldRetry onRetry
    end).

Definition withRetry (env : Env) {A} (fn : M A)
    (shouldRetry : JsError -> bool) (onRetry : Z -> JsError -> M unit) : M A :=
  retryLoop env maxRetries 0 initialDelay fn shouldRetry onRetry.

Definition noOnRetry : Z -> JsError -> M unit := fun _ _ => ret tt.

End Retry.
(* ===================================================================== *)
(** ** tradeprivate/accountManager.js *)
(* ===================================================================== *)

Module Account.
Import Field Commitment Retry.

(** [CONSTANTS.COMMIT_REVEAL_DELAY], in blocks. *)
Definition COMMIT_REVEAL_DELAY : Z := 240.

(** [InputValidator.sanitizeAddress]: the empty address is refused, the
    rest is trimmed, prefixed and handed to [ethers.getAddress]. *)
Definition sanitizeAddress (env : Env) (address : string) : result string :=
  match address with
  | EmptyString => Throw ValidationError
  | _ =>
      let address := trim address in
      let address := if startsWith address "0x" then address else String.append "0x" address in
      match getAddress env address with
      | Some a => Ok a
      | None => Throw ValidationError
      end
  end.

Record CommitResult := mkCommitResult {
  cr_commitHash : string;
  cr_waitBlocks : Z;
  cr_txHash : string
}.

Record RevealResult := mkRevealResult {
  rr_commitment : string;
  rr_success : bool;
  rr_txHash : string
}.

(** The function [createAccount] hands to [withRetry]. *)
Definition createAttempt (env : Env) (userAddress : string) : M CommitResult :=
  sanitizedAddress ← lift (sanitizeAddress env userAddress);
  _ ← perform env (GetContract "TradePrivate" true);
  balance ← perform env (Balances sanitizedAddress);
  if balance =? 0 then throw (Error "Must have balance to create private account")
  else
    nonce ← generateNonce env;
    w ← get;
    commitment ← lift (generateAccountCommitment (keyOperand (privateKey w)) (Raw (JBigInt nonce)));
    commitHash ← lift (generateCommitHash (keccak256 env) (Elem commitment) (JBigInt nonce)
                         sanitizedAddress);
    commitTx ← perform env (CommitTradingAccount commitHash);
    receipt ← perform env (Wait commitTx);
    _ ← modify (setPendingCommit
                 (Some (mkPendingCommit commitment nonce commitHash (receiptBlock receipt))));
    _ ← perform env (SavePendingCommit (toHex commitment) nonce commitHash (receiptBlock receipt));
    ret (mkCommitResult commitHash COMMIT_REVEAL_DELAY (hash commitTx)).

Definition createAccount (env : Env) (userAddress : string) : M CommitResult :=
  w ← get;
  match accountCommitment w with
  | Some _ => throw (Error "Account already exists")
  | None => withRetry env (createAttempt env userAddress) isRetryableError noOnRetry
  end.

(** The message of the error thrown before the delay has passed. *)
Definition mustWait (blocks : Z) : string :=
  String.append "Must wait " (String.append (toStringRadix 10 blocks) " more blocks").

(** The function [revealAccount] hands to [withRetry]. *)
Definition revealAttempt (env : Env) (userAddress : string) : M RevealResult :=
  sanitizedAddress ← lift (sanitizeAddress env userAddress);
  _ ← perform env (GetContract "TradePrivate" true);
  currentBlock ← perform env GetBlockNumber;
  w ← get;
  match pendingCommit w with
  | None => throw (TypeError "Cannot read properties of null (reading 'blockNumber')")
  | Some pc =>
      let blocksPassed := currentBlock - pc_blockNumber pc in
      if blocksPassed <? COMMIT_REVEAL_DELAY then
        throw (Error (mustWait (COMMIT_REVEAL_DELAY - blocksPassed)))
      else
        balance ← perform env (Balances sanitizedAddress);
        revealTx ← perform env
          (RevealTradingAccount (toHex (pc_commitment pc)) (pc_nonce pc) mockProof);
        receipt ← perform env (Wait revealTx);
        _ ← modify (setAccount (Some (pc_commitment pc)) (Some (pc_nonce pc)));
        _ ← perform env (SaveAccountInfo (toHex (pc_commitment pc)) (pc_nonce pc));
        _ ← modify (setPendingCommit None);
        _ ← perform env RemovePendingCommit;
        ret (mkRevealResult (toHex (pc_commitment pc)) true (hash revealTx))
  end.

Definition revealAccount (env : Env) (userAddress : string) : M RevealResult :=
  w ← get;
  match pendingCommit w with
  | None => throw (Error "No pending commit found")
  | Some _ => withRetry env (revealAttempt env userAddress) isRetryableError noOnRetry
  end.

End Account.

(* ===================================================================== *)
(** ** tradeprivate/orderManager.js *)
(* ===================================================================== *)

Module Orders.
Import Field Commitment Nullifier Retry.

(** [ZK_CONFIG.ENCRYPTED_ORDER_SIZE] (zkConfig.js) and the constant of the
    same name in constants.js. *)
Definition ZK_CONFIG_ENCRYPTED_ORDER_SIZE : Z := 256.
Definition CONSTANTS_ENCRYPTED_ORDER_SIZE : Z := 512.

(** [NullifierGenerator.isNullifierUsed]. *)
Definition isNullifierUsed (env : Env) (nullifier : string) : M bool :=
  tryCatch (perform env (UsedNullifiers nullifier)) (fun error => ret false).

(** [Number(x)] of a BigInt: the nearest double. *)
Definition Number (z : Z) : float := SF2Prim (binary_normalize prec emax z 0 false).

(** The score of the selection loop. *)
Definition successRate (keeper : Keeper) : float :=
  let totalBatches := (Number (successfulBatches keeper) + Number (failedBatches keeper))%float in
  if (0 <? totalBatches)%float
  then (Number (successfulBatches keeper) / totalBatches)%float
  else 0.5%float.

Definition keeperScore (keeper : Keeper) : float :=
  (Number (reputationScore keeper) * successRate keeper)%float.

Record Best := mkBest {
  b_address : string;
  b_publicKey : string;
  b_score : float
}.

(** One turn of the loop over the sampled addresses, on
    [(bestKeeper, bestScore)]. *)
Definition considerKeeper (env : Env) (st : option Best * float) (address : string)
  : M (option Best * float) :=
  tryCatch
    (keeper ← perform env (Keepers address);
     if negb (isActive keeper) || isSlashed keeper then ret st
     else
       let score := keeperScore keeper in
       if (snd st <? score)%float
       then ret (Some (mkBest address (publicKey keeper) score), score)
       else ret st)
    (fun error => ret st).

Fixpoint foldKeepers (env : Env) (st : option Best * float) (addresses : list string)
  : M (option Best * float) :=
  match addresses with
  | [] => ret st
  | a :: rest => st' ← considerKeeper env st a; foldKeepers env st' rest
  end.

(** [await Promise.all(promises)]: every call has been issued; the first
    rejection, if any, is what the await throws. *)
Fixpoint performAll (env : Env) {A} (cs : list (call A)) : M (list (result A)) :=
  match cs with
  | [] => ret []
  | c :: rest =>
      r ← tryCatch (a ← perform env c; ret (Ok a)) (fun e => ret (Throw e));
      rs ← performAll env rest;
      ret (r :: rs)
  end.

Fixpoint allSettledOk {A} (rs : list (result A)) : result (list A) :=
  match rs with
  | [] => Ok []
  | Ok a :: rest => l ← allSettledOk rest; Ok (a :: l)
  | Throw e :: _ => Throw e
  end.

Definition sampleSize (keeperCount : Z) : nat := Z.to_nat (Z.min 10 keeperCount).

Definition getActiveKeeperPublicKey (env : Env) : M string :=
  _ ← perform env (GetContract "TradePrivate" false);
  keeperCount ← perform env ActiveKeeperListLength;
  if keeperCount =? 0 then throw (Error "No active keepers available")
  else
    settled ← performAll env (map (fun i => ActiveKeeperList (Z.of_nat i))
                                  (seq 0 (sampleSize keeperCount)));
    keeperAddresses ← lift (allSettledOk settled);
    st ← foldKeepers env (None, 0%float) keeperAddresses;
    match fst st with
    | None => throw (Error "No suitable keeper found")
    | Some best => ret (b_publicKey best)
    end.

(** [OrderEncryption.encryptOrder]: [class OrderEncryption] declares no
    static member of that name (the function [encryptOrder] exported next
    to it is another binding), so the property is [undefined]. *)
Definition OrderEncryption_encryptOrder : option (OrderData -> string -> M (list Z)) := None.

Record SubmitResult := mkSubmitResult {
  sr_nullifier : string;
  sr_txHash : string
}.

(** The function [submitPrivateOrder] hands to [withRetry]. *)
Definition submitAttempt (env : Env) (orderParams : OrderParams) : M SubmitResult :=
  _ ← perform env (GetContract "TradePrivate" true);
  orderNonce ← generateNonce env;
  orderData ← lift (formatOrderData env orderParams);
  orderCommitment ← lift (generateOrderCommitment orderData (Raw (JBigInt orderNonce)));
  w ← get;
  nullifier ← lift (generateOrderNullifier (keyOperand (privateKey w)) (Elem orderCommitment)
                      (Raw (JBigInt orderNonce)));
  isUsed ← isNullifierUsed env nullifier;
  if isUsed : bool then
    _ ← modify countCollision;
    throw (Error "Order nullifier already used - please try again")
  else
    keeperPubKey ← getActiveKeeperPublicKey env;
    match OrderEncryption_encryptOrder with
    | None => throw (TypeError "OrderEncryption.encryptOrder is not a function")
    | Some encryptOrder =>
        encryptedOrder ← encryptOrder orderData keeperPubKey;
        if negb (Z.of_nat (length encryptedOrder) =? ZK_CONFIG_ENCRYPTED_ORDER_SIZE) then
          throw (Error "Invalid encrypted order size")
        else
          w ← get;
          match accountCommitment w with
          | None => throw (TypeError "Cannot read properties of null (reading 'toHex')")
          | Some account =>
              tx ← perform env (SubmitOrderPrivate mockProof nullifier (toHex account)
                                  (toHex orderCommitment) encryptedOrder);
              receipt ← perform env (Wait tx);
              _ ← modify (fun w => setPendingOrders
                     (mapSet nullifier
                        (mkOrderInfo orderParams nullifier (toHex orderCommitment) (hash tx)
                           (receiptBlock receipt))
                        (pendingOrders w)) w);
              _ ← perform env SaveOrderHistory;
              ret (mkSubmitResult nullifier (hash tx))
          end
    end.

Definition orderShouldRetry (error : JsError) : bool :=
  if includes (err_message error) "nullifier" then false else isRetryableError error.

Definition submitPrivateOrder (env : Env) (orderParams : OrderParams) : M SubmitResult :=
  w ← get;
  match accountCommitment w with
  | None => throw (Error "No private account found")
  | Some _ =>
      _ ← lift (validateOrderParams env orderParams);
      withRetry env (submitAttempt env orderParams) orderShouldRetry noOnRetry
  end.

End Orders.
(* ===================================================================== *)
(** ** commitmentGenerator.js: the instance methods, and
       [FieldElement.random] *)
(* ===================================================================== *)

Module CommitmentObj.
Import Field Commitment.

(** [FieldElement.random()]: 32 random bytes, the top four bits of the
    first cleared, read big-endian. *)
Definition FieldElement_random (env : Env) : M FieldElement :=
  bytes ← getRandomValues env 32;
  lift (fromBytes (maskFirst bytes)).

(** [generateSalt() { return FieldElement.random().value }]. *)
Definition generateSalt (env : Env) : M Z :=
  fe ← FieldElement_random env; ret (value fe).

(** What [hashValue] is given: a string or a byte array (other values go
    through [JSON.stringify], which is left out). *)
Inductive hashable : Type :=
| HString (s : string)
| HBytes (bytes : list Z).

Definition bytesOf (v : hashable) : list Z :=
  match v with
  | HString s => encode s
  | HBytes bs => bs
  end.

(** [hashValue]: the loop of [hashOrderData] over the bytes. *)
Definition hashValue (v : hashable) : result FieldElement :=
  fold_left hashStep (bytesOf v) (new_FieldElement (JBigInt 1)).

(** [salt.toString()]. *)
Definition saltToString (salt : jsval) : result string :=
  match salt with
  | JBigInt z => Ok (toStringRadix 10 z)
  | JNumber n => Ok (toStringRadix 10 n)
  | JString s => Ok s
  | JBytes bs => Ok (String.concat "," (map (toStringRadix 10) bs))
  | JInvalid => Throw (TypeError "Cannot read properties of undefined (reading 'toString')")
  end.

Record CommitmentRecord := mkCommitmentRecord {
  c_commitment : string;
  c_salt : string;
  c_value : hashable
}.

(** [createCommitment(value, salt = null)]: [None] is the missing or
    [null] salt. *)
Definition createCommitment (env : Env) (v : hashable) (salt : option jsval)
  : M CommitmentRecord :=
  salt ← match salt with
         | None => z ← generateSalt env; ret (JBigInt z)
         | Some s => ret s
         end;
  valueHash ← lift (hashValue v);
  saltElement ← lift (new_FieldElement salt);
  commitment ← lift (add valueHash (Elem saltElement));
  saltString ← lift (saltToString salt);
  ret (mkCommitmentRecord (toHex commitment) saltString v).

(** [verifyCommitment(commitment, value, salt)]. *)
Definition verifyCommitment (env : Env) (commitment : string) (v : hashable) (salt : jsval)
  : M bool :=
  s ← lift (BigInt salt);
  expected ← createCommitment env v (Some (JBigInt s));
  ret (String.eqb (c_commitment expected) commitment).

(** [createAccountCommitment(publicKey, balance)]: the commitment string. *)
Definition createAccountCommitment (publicKey : hashable) (balance : jsval) : result string :=
  pubKeyHash ← hashValue publicKey;
  b ← BigInt balance;
  balanceElement ← new_FieldElement (JBigInt b);
  commitment ← add pubKeyHash (Elem balanceElement);
  Ok (toHex commitment).


(** One pass of the loop of [createMerkleCommitment]: neighbours are
    added, an odd last element is carried over. *)
Fixpoint nextLevel (tree : list FieldElement) : result (list FieldElement) :=
  match tree with
  | a :: b :: rest =>
      combined ← add a (Elem b);
      l ← nextLevel rest;
      Ok (combined :: l)
  | _ => Ok tree
  end.

(** [while (tree.length > 1) tree = nextLevel]: every pass shortens the
    array, so [length tree] passes are enough. *)
Fixpoint merkleLoop (passes : nat) (tree : list FieldElement) : result (list FieldElement) :=
  match passes, tree with
  | S k, _ :: _ :: _ => l ← nextLevel tree; merkleLoop k l
  | _, _ => Ok tree
  end.

Fixpoint mapNew (cs : list jsval) : result (list FieldElement) :=
  match cs with
  | [] => Ok []
  | c :: rest => x ← new_FieldElement c; l ← mapNew rest; Ok (x :: l)
  end.

(** [createMerkleCommitment(commitments)] on an array. *)
Definition createMerkleCommitment (commitments : list jsval) : result string :=
  match commitments with
  | [] => Ok "0"%string
  | _ =>
      tree ← mapNew commitments;
      tree ← merkleLoop (length tree) tree;
      match tree with
      | root :: _ => Ok (toHex root)
      | [] => Throw (TypeError "Cannot read properties of undefined (reading 'toHex')")
      end
  end.

(** The sum of the values of a level of the tree, and the invariant of
    its elements. *)
Definition total (xs : list FieldElement) : Z := fold_right Z.add 0 (map value xs).

Definition reduced (x : FieldElement) : Prop := 0 <= value x < FIELD_SIZE.

End CommitmentObj.
(* ===================================================================== *)
(** ** crypto/orderEncryption.js: [class OrderEncryption] *)
(* ===================================================================== *)

Module Cipher.
Import Field Commitment.

(** The platform functions the class calls: the Web Crypto primitives and
    the JSON text of an order.  [ecdhRaw] is the [importKey] / [deriveKey]
    / [exportKey] sequence in the [try] block of [generateSharedSecret];
    [aesGcmEncrypt] returns the ciphertext followed by the 16-byte tag, as
    [crypto.subtle.encrypt] does for AES-GCM with the default tag length;
    [jsonOrder] is [serializeOrder] ([JSON.stringify], [TextEncoder],
    [Date.now]) and [parseOrder] is [deserializeOrder]. *)
Record Platform := mkPlatform {
  ecdhRaw : list Z -> list Z -> result (list Z);
  sha256 : list Z -> list Z;
  aesGcmEncrypt : list Z -> list Z -> list Z -> result (list Z);
  aesGcmDecrypt : list Z -> list Z -> list Z -> result (list Z);
  jsonOrder : OrderData -> list Z;
  parseOrder : list Z -> result OrderData;
  sha256_length : forall d, length (sha256 d) = 32%nat;
  encrypt_length : forall key iv data c,
    aesGcmEncrypt key iv data = Ok c -> length c = (length data + 16)%nat;
  decrypt_encrypt : forall key iv data c,
    aesGcmEncrypt key iv data = Ok c -> aesGcmDecrypt key iv c = Ok data
}.

(** [bigintToBytes(value, length)]: [v & 0xFFn] is defined on a BigInt
    only; on any other value the first turn of the loop throws. *)
Definition bigintToBytes (value : jsval) (length : nat) : result (list Z) :=
  match length with
  | O => Ok []
  | _ =>
      match value with
      | JBigInt v => Ok (bigEndian length v)
      | _ => Throw (TypeError "Cannot mix BigInt and other types, use explicit conversions")
      end
  end.

(** [hex.replace('0x', '')]: the first occurrence goes. *)
Fixpoint removeFirst0x (cs : list ascii) : list ascii :=
  match cs with
  | a :: rest =>
      match rest with
      | b :: rest' =>
          if isChar a 48 && isChar b 120 then rest' else a :: removeFirst0x rest
      | [] => cs
      end
  | [] => []
  end.

Definition hexToBytes (hex : string) : list Z :=
  parseHexPairs (removeFirst0x (chars hex)).

(** [generateSharedSecret(privateKey, publicKey)]: Web Crypto first, the
    field multiplication when that throws. Both ways return bytes. *)
Definition generateSharedSecret (pf : Platform) (privateKey : Z) (publicKey : string)
  : result (list Z) :=
  try_catch
    (privateKeyBuffer ← bigintToBytes (JBigInt privateKey) 32;
     ecdhRaw pf privateKeyBuffer (hexToBytes publicKey))
    (fun error =>
       privateKeyElement ← new_FieldElement (JBigInt privateKey);
       publicKeyElement ← fromString publicKey;
       sharedSecret ← multiply privateKeyElement (Elem publicKeyElement);
       bigintToBytes (JBigInt (value sharedSecret)) 32).

(** [deriveEncryptionKey(sharedSecret)]. *)
Definition deriveEncryptionKey (pf : Platform) (sharedSecret : jsval) : result (list Z) :=
  secretBytes ← bigintToBytes sharedSecret 32;
  Ok (sha256 pf secretBytes).

(** [derivePublicKey(privateKey)]. *)
Definition derivePublicKey (privateKey : Z) : string :=
  toStringRadix 16 (Z.rem (privateKey * 2) FIELD_SIZE).

Record AesResult := mkAesResult {
  ciphertext : list Z;
  iv : list Z;
  authTag : list Z
}.

(** [encryptWithAES(data, key)]: a fresh 12-byte IV; the last 16 bytes of
    the output are split off as the tag. *)
Definition encryptWithAES (env : Env) (pf : Platform) (data key : list Z) : M AesResult :=
  iv ← getRandomValues env 12;
  encrypted ← lift (aesGcmEncrypt pf key iv data);
  ret (mkAesResult (firstn (length encrypted - 16) encrypted) iv
         (skipn (length encrypted - 16) encrypted)).

(** [decryptWithAES(ciphertext, key, iv, authTag)]. *)
Definition decryptWithAES (pf : Platform) (ciphertext key iv authTag : list Z)
  : result (list Z) :=
  aesGcmDecrypt pf key iv (ciphertext ++ authTag).

(** [hashOrder]: the six fields weighted by their position, as a
    hexadecimal string without prefix. *)
Definition hashOrder (o : OrderData) : result string :=
  e1 ← fromString (market o);
  e2 ← fromString (size o);
  e3 ← fromString (strOr (price o) "0");
  e4 ← new_FieldElement (JBigInt (if isLong o then 1 else 0));
  e5 ← new_FieldElement (JBigInt (orderType o));
  e6 ← new_FieldElement (JBigInt (leverage o));
  h0 ← new_FieldElement (JBigInt 0);
  h ← fold_left
        (fun (acc : result (FieldElement * Z)) (e : FieldElement) =>
           '(hash, i) ← acc;
           w ← new_FieldElement (JBigInt (i + 1));
           t ← multiply e (Elem w);
           hash' ← add hash (Elem t);
           Ok (hash', i + 1))
        [e1; e2; e3; e4; e5; e6] (Ok (h0, 0));
  Ok (toStringRadix 16 (value (fst h))).

Record EncryptedOrder := mkEncryptedOrder {
  eo_encrypted : list Z;
  eo_iv : list Z;
  eo_authTag : list Z;
  eo_ephemeralPublicKey : string;
  eo_keeperPublicKey : string;
  eo_orderHash : string
}.

(** [catch (error) { throw new Error(prefix + error.message) }]. *)
Definition rethrow {A} (prefix : string) (body : M A) : M A :=
  tryCatch body (fun error => throw (Error (String.append prefix (err_message error)))).

(** [encryptOrderForKeeper(orderData, keeperPublicKey, userPrivateKey)]. *)
Definition encryptOrderForKeeper (env : Env) (pf : Platform)
    (orderData : OrderData) (keeperPublicKey : string) (userPrivateKey : Z)
  : M EncryptedOrder :=
  rethrow "Failed to encrypt order: "
    (sharedSecret ← lift (generateSharedSecret pf userPrivateKey keeperPublicKey);
     encryptionKey ← lift (deriveEncryptionKey pf (JBytes sharedSecret));
     let serializedOrder := jsonOrder pf orderData in
     encrypted ← encryptWithAES env pf serializedOrder encryptionKey;
     orderHash ← lift (hashOrder orderData);
     ret (mkEncryptedOrder (ciphertext encrypted) (iv encrypted) (authTag encrypted)
            (derivePublicKey userPrivateKey) keeperPublicKey orderHash)).

(** [decryptOrderForKeeper(encryptedOrder, keeperPrivateKey)]. *)
Definition decryptOrderForKeeper (pf : Platform)
    (encryptedOrder : EncryptedOrder) (keeperPrivateKey : Z) : M OrderData :=
  rethrow "Failed to decrypt order: "
    (sharedSecret ← lift (generateSharedSecret pf keeperPrivateKey
                            (eo_ephemeralPublicKey encryptedOrder));
     decryptionKey ← lift (deriveEncryptionKey pf (JBytes sharedSecret));
     decrypted ← lift (decryptWithAES pf (eo_encrypted encryptedOrder) decryptionKey
                         (eo_iv encryptedOrder) (eo_authTag encryptedOrder));
     orderData ← lift (parseOrder pf decrypted);
     computedHash ← lift (hashOrder orderData);
     if negb (String.eqb computedHash (eo_orderHash encryptedOrder)) then
       throw (Error "Order hash mismatch - possible tampering")
     else ret orderData).

(** A platform to run the class on: SHA-256 and AES-GCM are replaced by
    stand-ins of the same shapes (a 32-byte digest; the plaintext followed
    by a 16-byte tag made from the key), ECDH import is refused as Web
    Crypto refuses a raw private key. *)
Definition toyTag (key : list Z) : list Z := firstn 16 (key ++ repeat 0 16).

Definition toyDecrypt (key iv c : list Z) : result (list Z) :=
  if decide (skipn (length c - 16) c = toyTag key)
  then Ok (firstn (length c - 16) c)
  else Throw (mkError "OperationError" "The operation failed for an operation-specific reason").

Definition toyPlatform : Platform.
Proof.
  refine (mkPlatform
    (fun _ _ => Throw (SyntaxError "Cannot create a key using the specified key usages"))
    (fun d => firstn 32 (d ++ repeat 0 32))
    (fun key iv data => Ok (data ++ toyTag key))
    toyDecrypt
    (fun o => encode (serializeOrderData o))
    (fun _ => Throw (SyntaxError "Unexpected token"))
    _ _ _);
    assert (forall key, length (toyTag key) = 16%nat) as toyTag_length
      by (intros key; unfold toyTag;
          rewrite length_firstn, length_app, repeat_length; lia).
  - intros d. rewrite length_firstn, length_app, repeat_length. lia.
  - intros key iv data c [= <-]. rewrite length_app, toyTag_length. reflexivity.
  - intros key iv data c [= <-]. unfold toyDecrypt.
    rewrite length_app, toyTag_length.
    replace (length data + 16 - 16)%nat with (length data) by lia.
    rewrite drop_app_length, take_app_length.
    by destruct (decide (toyTag key = toyTag key)).
Defined.

End Cipher.
(* ===================================================================== *)
(** ** crypto/utils.js *)
(* ===================================================================== *)

Module Utils.
Import Commitment.

(** [getRandomBytes(length)]. *)
Definition getRandomBytes (env : Env) (length : nat) : M (list Z) :=
  getRandomValues env length.


(** [bytesToHex(bytes)]: two lower-case digits per byte. *)
Definition bytesToHex (bytes : list Z) : string :=
  String.concat "" (map hex2 bytes).

(** [hexToBytes(hex)]: a leading ["0x"] is removed, then pairs of
    characters go through [parseInt(_, 16)]. *)
Definition hexToBytes (hex : string) : list Z :=
  parseHexPairs (chars (if startsWith hex "0x" then sliceFrom 2 hex else hex)).

(** [bigIntToBytes(value, length)]: the [length] low bytes, least
    significant first. *)
Fixpoint bigIntToBytes (value : Z) (length : nat) : list Z :=
  match length with
  | O => []
  | S k => Z.land value 255 :: bigIntToBytes (Z.shiftr value 8) k
  end.

(** [bytesToBigInt(bytes)]: the loop runs from the last byte to the first
    with [result = (result << 8) + bytes[i]]. *)
Definition bytesToBigInt (bytes : list Z) : Z :=
  fold_left (fun result b => Z.shiftl result 8 + b) (rev bytes) 0.

(** [hashCombine(...hashes)]: the arrays one after the other. *)
Definition hashCombine (hashes : list (list Z)) : list Z :=
  fold_left (fun combined hash => combined ++ hash) hashes [].


End Utils.
(* ===================================================================== *)
(** ** crypto/hdKeyDerivation.js: [class HDWallet] *)
(* ===================================================================== *)

Module HD.
Import Field.

(** The word list of the file: the first 100 words of the BIP39 list. *)
Definition BIP39_WORDLIST : list string := [
  "abandon"; "ability"; "able"; "about"; "above"; "absent"; "absorb"; "abstract";
  "absurd"; "abuse"; "access"; "accident"; "account"; "accuse"; "achieve"; "acid";
  "acoustic"; "acquire"; "across"; "act"; "action"; "actor"; "actress"; "actual";
  "adapt"; "add"; "addict"; "address"; "adjust"; "admit"; "adult"; "advance";
  "advice"; "aerobic"; "affair"; "afford"; "afraid"; "again"; "against"; "age";
  "agent"; "agree"; "ahead"; "aim"; "air"; "airport"; "aisle"; "alarm";
  "album"; "alcohol"; "alert"; "alien"; "all"; "alley"; "allow"; "almost";
  "alone"; "alpha"; "already"; "also"; "alter"; "always"; "amateur"; "amazing";
  "among"; "amount"; "amused"; "analyst"; "anchor"; "ancient"; "anger"; "angle";
  "angry"; "animal"; "ankle"; "announce"; "annual"; "another"; "answer"; "antenna";
  "antique"; "anxiety"; "any"; "apart"; "apology"; "appear"; "apple"; "approve";
  "april"; "arch"; "arctic"; "area"; "arena"; "argue"; "arm"; "armed";
  "armor"; "army"; "around"; "arrange"; "arrest"; "arrive"; "arrow"; "art"
]%string.

(** [toLowerCase] on the ASCII letters. *)
Definition toLowerChar (c : ascii) : ascii :=
  let n := code c in
  if (65 <=? n) && (n <=? 90) then ascii_of_N (Z.to_N (n + 32)) else c.

Definition toLowerCase (s : string) : string := ofChars (map toLowerChar (chars s)).

(** [s.split(/\s+/)]: the pieces between the runs of white space; a run
    at either end leaves an empty piece there. [cur] is the piece being
    read, reversed; [inRun] says the last character was white space. *)
Fixpoint splitRuns (cs : list ascii) (cur : list ascii) (inRun : bool) : list string :=
  match cs with
  | [] => [ofChars (rev cur)]
  | c :: rest =>
      if isSpace c then
        if inRun then splitRuns rest [] true
        else ofChars (rev cur) :: splitRuns rest [] true
      else splitRuns rest (c :: cur) false
  end.

Definition splitSpaces (s : string) : list string := splitRuns (chars s) [] false.

(** [mnemonic.trim().toLowerCase().split(/\s+/)]. *)
Definition wordsOf (mnemonic : string) : list string :=
  splitSpaces (toLowerCase (trim mnemonic)).

Definition inWordlist (word : string) : bool := existsb (String.eqb word) BIP39_WORDLIST.

Definition validCount (n : nat) : bool := existsb (Nat.eqb n) [12; 15; 18; 21; 24]%nat.

(** [validateMnemonic]: the word count, then the membership of every
    word; the checksum is not looked at. *)
Definition validateMnemonic (mnemonic : string) : bool :=
  let words := wordsOf mnemonic in
  if negb (validCount (length words)) then false
  else forallb inWordlist words.

(** The key-derivation primitives of Web Crypto:
    [pbkdf2 password salt iterations bytes] with SHA-512, and HMAC-SHA512
    [hmac key data]. *)
Record Kdf := mkKdf {
  pbkdf2 : list Z -> list Z -> Z -> nat -> list Z;
  hmac : list Z -> list Z -> list Z
}.

Record HDNode := mkHDNode {
  node_privateKey : FieldElement;
  node_chainCode : list Z;
  node_depth : Z;
  node_parentFingerprint : list Z;
  node_childNumber : Z
}.

(** The fields of an [HDWallet] that restoring touches. *)
Record Wallet := mkWallet {
  seed : option (list Z);
  masterKey : option HDNode;
  initialized : bool
}.

Definition emptyWallet : Wallet := mkWallet None None false.

(** [deriveMasterKey] on the seed. *)
Definition deriveMasterKey (kdf : Kdf) (seed : option (list Z)) : result HDNode :=
  match seed with
  | None => Throw (Error "Seed not available")
  | Some seed =>
      let hash := hmac kdf (Commitment.encode "ed25519 seed") seed in
      privateKey ← fromBytes (firstn 32 hash);
      Ok (mkHDNode privateKey (firstn 32 (skipn 32 hash)) 0 (repeat 0 4) 0)
  end.

(** [seedFromMnemonic(mnemonic)] with the empty passphrase: the seed is
    stored before the master key is derived. *)
Definition seedFromMnemonic (kdf : Kdf) (mnemonic : string) (w : Wallet)
  : result (list Z) * Wallet :=
  let seedBits := pbkdf2 kdf (Commitment.encode mnemonic) (Commitment.encode "mnemonic") 2048 64 in
  let w1 := mkWallet (Some seedBits) (masterKey w) (initialized w) in
  match deriveMasterKey kdf (Some seedBits) with
  | Ok node => (Ok seedBits, mkWallet (Some seedBits) (Some node) true)
  | Throw e => (Throw e, w1)
  end.

(** [restoreFromMnemonic(mnemonic)]. *)
Definition restoreFromMnemonic (kdf : Kdf) (mnemonic : string) (w : Wallet)
  : result bool * Wallet :=
  if negb (validateMnemonic mnemonic) then (Throw (Error "Invalid mnemonic phrase"), w)
  else
    match seedFromMnemonic kdf mnemonic w with
    | (Ok _, w') => (Ok true, w')
    | (Throw e, w') => (Throw e, w')
    end.

(** [calculateChecksum(entropy, bits)]: the XOR of the bytes in binary,
    padded to [bits] characters and cut to [bits]. *)
Definition calculateChecksum (entropy : list Z) (bits : nat) : string :=
  let sum := fold_left Z.lxor entropy 0 in
  ofChars (firstn bits (repeat "0"%char (bits - String.length (toStringRadix 2 sum))
                          ++ chars (toStringRadix 2 sum))).

(** The groups of 11 characters of [entropyToMnemonic]. *)
Fixpoint groups11 (fuel : nat) (cs : list ascii) : list (list ascii) :=
  match fuel, cs with
  | _, [] => []
  | O, _ => []
  | S fuel', _ => firstn 11 cs :: groups11 fuel' (skipn 11 cs)
  end.

Definition byteBits (b : Z) : list ascii :=
  repeat "0"%char (8 - String.length (toStringRadix 2 b)) ++ chars (toStringRadix 2 b).

(** [entropyToMnemonic(entropy)]. *)
Definition entropyToMnemonic (entropy : list Z) : string :=
  let entropyBits := concat (map byteBits entropy) in
  let fullBits := entropyBits ++ chars (calculateChecksum entropy 4) in
  String.concat " "
    (map (fun bits =>
            let index := Z.rem (default 0 (parseInt 2 bits)) 100 in
            nth (Z.to_nat index) BIP39_WORDLIST "undefined"%string)
         (groups11 (length fullBits) fullBits)).

(** *** The BIP39 layout of a mnemonic

    Each word stands for the 11 bits of its index in the word list; the
    first [32 * (words / 3)] bits are the entropy, the remaining
    [words / 3] bits the checksum. *)

Fixpoint indexOf (word : string) (l : list string) : option nat :=
  match l with
  | [] => None
  | x :: l' => if String.eqb word x then Some O else option_map S (indexOf word l')
  end.

Definition bits11 (i : nat) : list bool :=
  map (fun k => Z.testbit (Z.of_nat i) (Z.of_nat (10 - k))) (seq 0 11).

Fixpoint wordBits (words : list string) : option (list bool) :=
  match words with
  | [] => Some []
  | w :: ws =>
      match indexOf w BIP39_WORDLIST, wordBits ws with
      | Some i, Some bs => Some (bits11 i ++ bs)
      | _, _ => None
      end
  end.

(** The entropy bits and the checksum bits a mnemonic carries. *)
Definition bip39Split (mnemonic : string) : option (list bool * list bool) :=
  let words := wordsOf mnemonic in
  match wordBits words with
  | Some bs =>
      let cs := (length words / 3)%nat in
      Some (firstn (length bs - cs) bs, skipn (length bs - cs) bs)
  | None => None
  end.

(** Stand-ins for PBKDF2 and HMAC to run the wallet on. *)
Definition toyKdf : Kdf :=
  mkKdf (fun password salt _ n => firstn n (password ++ salt ++ repeat 0 n))
        (fun key data => firstn 64 (data ++ key ++ repeat 0 64)).

End HD.
(* ===================================================================== *)
(** ** Reading the record of calls *)
(* ===================================================================== *)

Module Traces.
Import Field.

(** The delay of a timer. *)
Definition sleepOf (e : event) : option Z :=
  match e with
  | Called c => match c with Sleep ms => Some ms | _ => None end
  end.

(** The commitment and nonce of a reveal transaction. *)
Definition revealOf (e : event) : option (string * Z) :=
  match e with
  | Called c =>
      match c with
      | RevealTradingAccount commitment nonce _ => Some (commitment, nonce)
      | _ => None
      end
  end.

(** The nullifier of a [usedNullifiers] query. *)
Definition nullifierQueryOf (e : event) : option string :=
  match e with
  | Called c => match c with UsedNullifiers n => Some n | _ => None end
  end.

(** The nullifier of an order transaction. *)
Definition submitOf (e : event) : option string :=
  match e with
  | Called c =>
      match c with
      | SubmitOrderPrivate _ nullifier _ _ _ => Some nullifier
      | _ => None
      end
  end.

Definition sleeps (tr : list event) : list Z := omap sleepOf tr.
Definition reveals (tr : list event) : list (string * Z) := omap revealOf tr.
Definition nullifierQueries (tr : list event) : list string := omap nullifierQueryOf tr.
Definition submits (tr : list event) : list string := omap submitOf tr.

(** The delays [withRetry] sleeps for when every attempt fails: each is
    the one before times [backoffFactor], capped at [maxDelay]. *)
Fixpoint schedule (retries : nat) (delay : Z) : list Z :=
  match retries with
  | O => []
  | S k => delay :: schedule k (Z.min (delay * Retry.backoffFactor) Retry.maxDelay)
  end.

(** A computation leaves a part [proj] of the world as it found it. *)
Definition preserves {B A : Type} (proj : World -> B) (m : M A) : Prop :=
  forall w, proj (snd (m w)) = proj w.

(** A computation throws from every world. *)
Definition always_throws {A : Type} (m : M A) : Prop :=
  forall w, exists e, fst (m w) = Throw e.

End Traces.
(* ===================================================================== *)
(** ** Concrete worlds for the examples *)
(* ===================================================================== *)

Module Examples.
Import Field Commitment.

Definition address1 : string := "0xC7f9bDe6F483205282064219a8aa084fb5a05b97".

Definition order1 : OrderData :=
  mkOrderData address1 "1000000" "0" true false 0 5 "0" "0".

Definition order2 : OrderData :=
  mkOrderData address1 "2500000000" "1850000000000000000000" false true 1 20
    "1900000000000000000000" "1700000000000000000000".

Definition params1 : OrderParams :=
  mkOrderParams address1 "1" "" true false 0 5 "" "".

(** Keepers: [keeperA] scores [49 * (1 / 49)], [keeperB] scores [1 * 1],
    [keeperZ] has no reputation, [keeperS] is slashed. *)
Definition keeperA : Keeper := mkKeeper "0xaa" 49 1 48 true false.
Definition keeperB : Keeper := mkKeeper "0xbb" 1 1 0 true false.
Definition keeperZ : Keeper := mkKeeper "0xcc" 0 5 0 true false.
Definition keeperS : Keeper := mkKeeper "0xdd" 900 9 0 true true.

(** A ledger that answers every call: the block height is [height] plus
    the number of calls made so far, the nullifier query fails with a
    network error, the keeper list is [keepers]. *)
Definition respondWith (height : Z) (keepers : list Keeper)
    (A : Type) (t : nat) (c : call A) : result A :=
  match c in call T return result T with
  | GetContract _ _ => Ok tt
  | GetBlockNumber => Ok (height + Z.of_nat t)
  | Balances _ => Ok 5
  | CommitTradingAccount _ => Ok (mkTx "0x0c")
  | RevealTradingAccount _ _ _ => Ok (mkTx "0x0e")
  | Wait _ => Ok (mkReceipt (height + Z.of_nat t))
  | UsedNullifiers _ => Throw (Error "network error")
  | ActiveKeeperListLength => Ok (Z.of_nat (length keepers))
  | ActiveKeeperList i => Ok (toStringRadix 10 i)
  | Keepers a =>
      match stringToBigInt a with
      | Some i =>
          match nth_error keepers (Z.to_nat i) with
          | Some k => Ok k
          | None => Throw (Error "call revert exception")
          end
      | None => Throw (Error "call revert exception")
      end
  | SubmitOrderPrivate _ _ _ _ _ => Ok (mkTx "0x0f")
  | SaveAccountInfo _ _ => Ok tt
  | SavePendingCommit _ _ _ _ => Ok tt
  | RemovePendingCommit => Ok tt
  | SaveOrderHistory => Ok tt
  | Sleep _ => Ok tt
  end.

Definition envWith (height : Z) (keepers : list Keeper) : Env :=
  mkEnv (respondWith height keepers)
        (fun i => Z.of_nat (7 * i + 3))
        (fun bytes => toStringRadix 16 (Z.of_nat (length bytes)))
        (fun a => Some a)
        (fun _ => Ok tt)
        (fun _ => Ok order1).

(** The same ledger with its height frozen: every call is answered as the
    first one would be. *)
Definition envFrozen (height : Z) (keepers : list Keeper) : Env :=
  mkEnv (fun A _ c => respondWith height keepers A 0 c)
        (fun i => Z.of_nat (7 * i + 3))
        (fun bytes => toStringRadix 16 (Z.of_nat (length bytes)))
        (fun a => Some a)
        (fun _ => Ok tt)
        (fun _ => Ok order1).

(** A client with keys and an account, holding a commit made at block 100. *)
Definition pending1 : PendingCommit := mkPendingCommit (mkFE 42) 17 "0x0h" 100.

Definition world1 : World :=
  mkWorld 0 0 [] (Some (mkFE 12345)) (Some (mkFE 99)) (Some 5) (Some pending1) [] 0.

End Examples.
(* ===================================================================== *)
(** ** The keeper candidates as the selection loop meets them *)
(* ===================================================================== *)

Module Selection.
Import Orders.

(** What the outside answers to the calls [cs] issued one after the
    other from time [t] on. *)
Fixpoint answersTo (env : Env) {A} (t : nat) (cs : list (call A)) : list (result A) :=
  match cs with
  | [] => []
  | c :: rest => respond env A t c :: answersTo env (S t) rest
  end.

(** The world after the calls [cs]. *)
Definition ticks {A} (cs : list (call A)) (w : World) : World :=
  fold_left (fun w c => tick c w) cs w.

(** The sampled addresses, each with what [contract.keepers(address)]
    answered. *)
Definition candidates (env : Env) (t : nat) (addresses : list string)
  : list (string * result Keeper) :=
  combine addresses (answersTo env t (map Keepers addresses)).

(** A keeper the loop scores: active and not slashed. *)
Definition eligible (keeper : Keeper) : Prop :=
  isActive keeper = true /\ isSlashed keeper = false.

(** One turn of the loop with the answer in hand. *)
Definition stepKeeper (st : option Best * float) (c : string * result Keeper)
  : option Best * float :=
  match snd c with
  | Throw _ => st
  | Ok keeper =>
      if negb (isActive keeper) || isSlashed keeper then st
      else if (snd st <? keeperScore keeper)%float
           then (Some (mkBest (fst c) (publicKey keeper) (keeperScore keeper)),
                 keeperScore keeper)
           else st
  end.

(** What holds of the best keeper so far once the candidates [seen] have
    been met: no eligible candidate beats the best score; and a keeper is
    held exactly when some eligible candidate scored above zero, in which
    case it is the first to have reached that score. *)
Definition selected (seen : list (string * result Keeper)) (st : option Best * float) : Prop :=
  (forall j a k, seen !! j = Some (a, Ok k) -> eligible k ->
     (snd st <? keeperScore k)%float = false) /\
  match fst st with
  | None => snd st = 0%float
  | Some best =>
      exists i a k,
        seen !! i = Some (a, Ok k) /\ eligible k /\
        best = mkBest a (publicKey k) (keeperScore k) /\
        snd st = keeperScore k /\
        (0 <? keeperScore k)%float = true /\
        forall j a' k', (j < i)%nat -> seen !! j = Some (a', Ok k') -> eligible k' ->
          (keeperScore k <=? keeperScore k')%float = false
  end.

End Selection.
(* ===================================================================== *)
(** ** Properties of the field arithmetic *)
(* ===================================================================== *)

Module FieldFacts.
Import Field.

Lemma FIELD_SIZE_pos : 0 < FIELD_SIZE.
Proof. reflexivity. Qed.

Lemma reduce_range z : 0 <= reduce z < FIELD_SIZE.
Proof.
  unfold reduce. pose proof FIELD_SIZE_pos as Hp.
  pose proof (Z.rem_bound_abs z FIELD_SIZE ltac:(lia)) as Hb.
  destruct (Z.ltb_spec (Z.rem z FIELD_SIZE) 0); lia.
Qed.

Lemma reduce_mod z : reduce z = z mod FIELD_SIZE.
Proof.
  unfold reduce. pose proof FIELD_SIZE_pos as Hp.
  pose proof (Z.rem_bound_abs z FIELD_SIZE ltac:(lia)) as Hb.
  pose proof (Z.quot_rem' z FIELD_SIZE) as Hq.
  destruct (Z.ltb_spec (Z.rem z FIELD_SIZE) 0).
  - apply (Z.mod_unique_pos _ _ (Z.quot z FIELD_SIZE - 1)); lia.
  - apply (Z.mod_unique_pos _ _ (Z.quot z FIELD_SIZE)); lia.
Qed.

Lemma reduce_small z : 0 <= z < FIELD_SIZE -> reduce z = z.
Proof. intros H. rewrite reduce_mod. by apply Z.mod_small. Qed.

Lemma rem_mod_nonneg a : 0 <= a -> Z.rem a FIELD_SIZE = a mod FIELD_SIZE.
Proof. intros H. apply Z.rem_mod_nonneg; [done | apply FIELD_SIZE_pos]. Qed.

(** Whatever the constructor accepts is stored reduced. *)
Lemma new_FieldElement_range v fe :
  new_FieldElement v = Ok fe -> 0 <= value fe < FIELD_SIZE.
Proof.
  unfold new_FieldElement. intros H.
  destruct (match v with
            | JString s => BigInt (JString (if startsWith s "0x" then s else String.append "0x" s))
            | _ => BigInt v
            end) as [z|e]; simpl in H; [|discriminate].
  injection H as <-. apply reduce_range.
Qed.

Lemma new_FieldElement_bigint z :
  new_FieldElement (JBigInt z) = Ok (mkFE (z mod FIELD_SIZE)).
Proof. unfold new_FieldElement. simpl. by rewrite reduce_mod. Qed.

Ltac bind_ok H :=
  match type of H with
  | (mbind _ ?m = Ok _) =>
      let e := fresh "e" in
      destruct m as [? | e] eqn:?; [simpl in H | discriminate H]
  end.

Lemma run_range m x o fe : run m x o = Ok fe -> 0 <= value fe < FIELD_SIZE.
Proof.
  destruct m; unfold run, add, sub, mul; intros H; bind_ok H;
    by apply new_FieldElement_range in H.
Qed.

Lemma pow_range x e fe : pow x e = Ok fe -> 0 <= value fe < FIELD_SIZE.
Proof.
  unfold pow. intros H. bind_ok H. by apply new_FieldElement_range in H.
Qed.

Lemma mod_pow_r x y e :
  (x * (y mod FIELD_SIZE) ^ e) mod FIELD_SIZE = (x * y ^ e) mod FIELD_SIZE.
Proof.
  pose proof FIELD_SIZE_pos as Hp.
  rewrite <- Z.mul_mod_idemp_r by lia.
  rewrite <- Zpower_mod by lia.
  by rewrite Z.mul_mod_idemp_r by lia.
Qed.

(** The loop of [pow] computes a modular power. *)
Lemma powLoop_spec e : forall r b,
  0 <= r -> 0 <= b ->
  powLoop e r b = (r * b ^ Zpos e) mod FIELD_SIZE.
Proof.
  pose proof FIELD_SIZE_pos as Hp.
  induction e as [e IH | e IH |]; intros r b Hr Hb; simpl.
  - rewrite !rem_mod_nonneg by nia.
    rewrite IH by (apply Z.mod_pos_bound; lia).
    rewrite mod_pow_r, Z.mul_mod_idemp_l by lia. f_equal.
    rewrite Pos2Z.inj_xI, Z.pow_add_r, Z.pow_mul_r, Z.pow_1_r by lia.
    replace (b ^ 2) with (b * b) by ring. ring.
  - rewrite !rem_mod_nonneg by nia.
    rewrite IH by (try apply Z.mod_pos_bound; lia).
    rewrite mod_pow_r. f_equal.
    rewrite Pos2Z.inj_xO, Z.pow_mul_r by lia.
    replace (b ^ 2) with (b * b) by ring. ring.
  - rewrite rem_mod_nonneg by nia. by rewrite Z.pow_1_r.
Qed.

Lemma pow_spec x e :
  0 <= value x -> 0 <= e ->
  pow x (JBigInt e) = Ok (mkFE (value x ^ e mod FIELD_SIZE)).
Proof.
  intros Hx He. unfold pow. simpl.
  destruct e as [|e|e]; [| |lia].
  - rewrite new_FieldElement_bigint. reflexivity.
  - rewrite new_FieldElement_bigint, powLoop_spec by lia.
    rewrite Z.mod_mod by (pose proof FIELD_SIZE_pos; lia).
    by rewrite Z.mul_1_l.
Qed.

(** Allocation returns an address that was free and touches no other. *)
Lemma alloc_spec fe (h : gmap loc FieldElement) l h' :
  alloc fe h = (l, h') ->
  h !! l = None /\ h' !! l = Some fe /\ forall l', l' <> l -> h' !! l' = h !! l'.
Proof.
  unfold alloc. intros [= <- <-].
  split; [apply not_elem_of_dom, is_fresh|].
  split; [apply lookup_insert_eq|].
  intros l' Hne. by apply lookup_insert_ne.
Qed.


Lemma Ok_inj {A} (a b : A) : Ok a = Ok b -> a = b.
Proof. by intros [= ->]. Qed.

Lemma deref_ok (h : gmap loc FieldElement) l fe : deref h l = Ok fe -> h !! l = Some fe.
Proof. unfold deref. destruct (h !! l); [by intros [= ->] | done]. Qed.

(** What a method invoke leaves on the heap. *)
Definition fresh_result (h h' : gmap loc FieldElement) (r : loc) : Prop :=
  h !! r = None /\
  (exists fe, h' !! r = Some fe /\ 0 <= value fe < FIELD_SIZE) /\
  (forall l, l <> r -> h' !! l = h !! l).

Lemma alloc_fresh_result fe (h : gmap loc FieldElement) r h' :
  0 <= value fe < FIELD_SIZE -> alloc fe h = (r, h') -> fresh_result h h' r.
Proof.
  intros Hfe Ha. destruct (alloc_spec _ _ _ _ Ha) as (H1 & H2 & H3).
  split; [done|]. split; [by exists fe | done].
Qed.

Lemma fresh_result_keeps (h h' : gmap loc FieldElement) r l fe :
  fresh_result h h' r -> h !! l = Some fe -> h' !! l = Some fe.
Proof.
  intros (Hr & _ & Hframe) Hl. rewrite Hframe; [done|]. intros ->. congruence.
Qed.

Lemma invoke_fresh m this other (h : gmap loc FieldElement) r h' :
  invoke m this other h = Ok (r, h') -> fresh_result h h' r.
Proof.
  unfold invoke. intros H. bind_ok H. bind_ok H. bind_ok H.
  apply Ok_inj in H. eapply alloc_fresh_result; [|exact H]. eapply run_range; eassumption.
Qed.

Lemma invokePow_fresh this e (h : gmap loc FieldElement) r h' :
  invokePow this e h = Ok (r, h') -> fresh_result h h' r.
Proof.
  unfold invokePow. intros H. bind_ok H. bind_ok H.
  apply Ok_inj in H. eapply alloc_fresh_result; [|exact H]. eapply pow_range; eassumption.
Qed.

Lemma construct_fresh v (h : gmap loc FieldElement) r h' :
  construct v h = Ok (r, h') -> fresh_result h h' r.
Proof.
  unfold construct. intros H. bind_ok H.
  apply Ok_inj in H. eapply alloc_fresh_result; [|exact H]. eapply new_FieldElement_range; eassumption.
Qed.

(** C9. Every value the [FieldElement] constructor accepts (a BigInt of
    either sign, a Number, a hexadecimal string, bytes through
    [fromBytes]) is stored reduced into [[0, FIELD_SIZE)]; every BigInt is
    accepted; and [add], [sub], [mul] and [pow] return a freshly allocated
    instance whose value is reduced, leaving every instance that existed
    before the invoke, the operands among them, as it was. *)
Theorem field_elements_reduced :
  (forall v fe, new_FieldElement v = Ok fe -> 0 <= value fe < FIELD_SIZE) /\
  (forall z, new_FieldElement (JBigInt z) = Ok (mkFE (z mod FIELD_SIZE))) /\
  (forall bytes, fromBytes bytes = Ok (mkFE (bytesValue bytes mod FIELD_SIZE))) /\
  (forall s fe, fromHex s = Ok fe \/ fromString s = Ok fe -> 0 <= value fe < FIELD_SIZE) /\
  (forall m this other (h : gmap loc FieldElement) r h',
      invoke m this other h = Ok (r, h') ->
      fresh_result h h' r /\
      h' !! this = h !! this /\
      (forall l, other = Ref l -> h' !! l = h !! l)) /\
  (forall this e (h : gmap loc FieldElement) r h',
      invokePow this e h = Ok (r, h') ->
      fresh_result h h' r /\ h' !! this = h !! this).
Proof.
  split; [exact new_FieldElement_range|].
  split; [exact new_FieldElement_bigint|].
  split; [intros bytes; apply new_FieldElement_bigint|].
  split.
  { intros s fe [H | H].
    - unfold fromHex in H. by apply new_FieldElement_range in H.
    - unfold fromString in H. destruct (startsWith s "0x").
      + by apply new_FieldElement_range in H.
      + unfold try_catch in H.
        destruct (new_FieldElement (JString s)) as [fe'|] eqn:E; [|done].
        injection H as <-. by apply new_FieldElement_range in E. }
  split.
  - intros m this other h r h' H.
    pose proof (invoke_fresh _ _ _ _ _ _ H) as Hf. split; [done|].
    unfold invoke in H. bind_ok H. bind_ok H.
    match goal with E : deref h this = Ok ?x |- _ => apply deref_ok in E; rename E into Hthis end.
    split.
    + rewrite Hthis. eapply fresh_result_keeps; eassumption.
    + intros l ->. simpl in *.
      match goal with E : mbind _ (deref h l) = Ok _ |- _ => rename E into Ho end.
      bind_ok Ho.
      match goal with E : deref h l = Ok ?x |- _ => apply deref_ok in E; rename E into Hl end.
      rewrite Hl. eapply fresh_result_keeps; eassumption.
  - intros this e h r h' H.
    pose proof (invokePow_fresh _ _ _ _ _ H) as Hf. split; [done|].
    unfold invokePow in H. bind_ok H.
    match goal with E : deref h this = Ok ?x |- _ => apply deref_ok in E; rename E into Hthis end.
    rewrite Hthis. eapply fresh_result_keeps; eassumption.
Qed.

(** The theorem at [a.sub(b)] for [a = 3], [b = 5] on a two-object heap. *)
Lemma field_elements_reduced_witness :
  let h : gmap loc FieldElement := {[ 1%positive := mkFE 3; 2%positive := mkFE 5 ]} in
  exists r h', invoke Sub 1%positive (Ref 2%positive) h = Ok (r, h') /\
    fresh_result h h' r /\
    h' !! 1%positive = Some (mkFE 3) /\ h' !! 2%positive = Some (mkFE 5) /\
    h' !! r = Some (mkFE (FIELD_SIZE - 2)).
Proof.
  intros h.
  destruct (invoke Sub 1%positive (Ref 2%positive) h) as [[r h']|] eqn:E;
    [|vm_compute in E; discriminate].
  exists r, h'. split; [done|].
  destruct field_elements_reduced as (_ & _ & _ & _ & Hinvoke & _).
  destruct (Hinvoke _ _ _ _ _ _ E) as (Hf & Hthis & Hother).
  split; [done|].
  split; [etrans; [exact Hthis | reflexivity]|].
  split; [etrans; [exact (Hother _ eq_refl) | reflexivity]|].
  vm_compute in E. injection E as <- <-. reflexivity.
Defined.

(** C6 (the code at the failing input). [inv] of the zero element returns
    the zero element instead of raising; the function
    [inverseFieldElement] of the same file raises on zero. *)
Theorem inv_zero_returns_zero :
  inv (mkFE 0) = Ok (mkFE 0) /\
  (forall fe, new_FieldElement (JBigInt 0) = Ok fe -> inv fe = Ok fe) /\
  inverseFieldElement (JBigInt 0) = Throw (Error "Cannot compute inverse of zero").
Proof.
  split; [by vm_compute|]. split; [|by vm_compute].
  intros fe H. vm_compute in H. injection H as <-. by vm_compute.
Qed.

(** [inv] is the power [FIELD_SIZE - 2]. *)
Lemma inv_spec x :
  0 <= value x -> inv x = Ok (mkFE (value x ^ (FIELD_SIZE - 2) mod FIELD_SIZE)).
Proof. intros Hx. unfold inv. apply pow_spec; [done | by vm_compute]. Qed.

(** Bezout coefficients from [extendedGCD]. *)
Lemma extendedGCD_bezout a b :
  let '(g, x, y) := extendedGCD a b in a * x + b * y = g.
Proof.
  funelim (extendedGCD a b).
  - subst. lia.
  - destruct (extendedGCD (Z.rem b a) a) as [[g x1] y1].
    pose proof (Z.quot_rem' b a). nia.
Qed.

(** What [inverseFieldElement] returns is an inverse. *)
Lemma inverseFieldElement_sound a r :
  inverseFieldElement a = Ok r ->
  exists x, toFieldElement a = Ok x /\ x <> 0 /\ (r * x) mod FIELD_SIZE = 1.
Proof.
  unfold inverseFieldElement. intros H. bind_ok H.
  match goal with E : toFieldElement a = Ok ?y |- _ => rename y into x; rename E into Hx end.
  exists x. split; [done|].
  destruct (Z.eqb_spec x 0) as [|Hne]; [done|]. split; [done|].
  unfold modInverse in H.
  pose proof (extendedGCD_bezout (Z.rem x FIELD_SIZE) FIELD_SIZE) as Hb.
  destruct (extendedGCD (Z.rem x FIELD_SIZE) FIELD_SIZE) as [[g u] v].
  destruct (Z.eqb_spec g 1) as [->|]; [|done]. injection H as <-.
  pose proof FIELD_SIZE_pos as Hp.
  assert (0 <= x < FIELD_SIZE) as Hrange.
  { unfold toFieldElement in Hx. bind_ok Hx. injection Hx as <-. apply reduce_range. }
  rewrite rem_mod_nonneg in Hb by lia. rewrite Z.mod_small in Hb by lia.
  assert (Z.rem (Z.rem u FIELD_SIZE + FIELD_SIZE) FIELD_SIZE = u mod FIELD_SIZE) as ->.
  { fold (reduce u) in *. pose proof (Z.rem_bound_abs u FIELD_SIZE ltac:(lia)).
    rewrite rem_mod_nonneg by lia.
    rewrite <- (reduce_mod u). unfold reduce.
    destruct (Z.ltb_spec (Z.rem u FIELD_SIZE) 0).
    - rewrite Z.mod_small; lia.
    - rewrite <- Z.add_mod_idemp_r, Z.mod_same, Z.add_0_r by lia.
      rewrite Z.mod_small; lia. }
  rewrite Z.mul_mod_idemp_l by lia.
  replace (u * x) with (1 + (- v) * FIELD_SIZE) by lia.
  rewrite Z.mod_add by lia. apply Z.mod_small.
  unfold FIELD_SIZE. lia.
Qed.

End FieldFacts.
(* ===================================================================== *)
(** ** Hexadecimal strings and big-endian bytes *)
(* ===================================================================== *)

Module HexFacts.
Import Digits.

Lemma chars_ofChars cs : chars (ofChars cs) = cs.
Proof. apply list_ascii_of_string_of_list_ascii. Qed.

Lemma ofChars_chars s : ofChars (chars s) = s.
Proof. apply string_of_list_ascii_of_string. Qed.

Lemma length_chars s : length (chars s) = String.length s.
Proof. induction s as [|c s IH]; simpl; [done | by rewrite IH]. Qed.

Lemma length_ofChars cs : String.length (ofChars cs) = length cs.
Proof. by rewrite <- length_chars, chars_ofChars. Qed.

Lemma chars_append s t : chars (String.append s t) = chars s ++ chars t.
Proof. induction s as [|c s IH]; simpl; [done | by rewrite IH]. Qed.

Lemma chars_padStart0 n s :
  chars (padStart0 n s) = repeat "0"%char (n - String.length s) ++ chars s.
Proof. unfold padStart0. apply chars_ofChars. Qed.

(** *** Digit characters *)

Lemma digitIn_digitChar d : 0 <= d < 16 -> digitIn 16 (digitChar d) = Some d.
Proof.
  intros H.
  assert (d = 0 \/ d = 1 \/ d = 2 \/ d = 3 \/ d = 4 \/ d = 5 \/ d = 6 \/ d = 7 \/
          d = 8 \/ d = 9 \/ d = 10 \/ d = 11 \/ d = 12 \/ d = 13 \/ d = 14 \/ d = 15)
    as Hd by lia.
  repeat (destruct Hd as [-> | Hd]; [reflexivity |]). by subst.
Qed.

Lemma digitChar_0 : digitChar 0 = "0"%char.
Proof. reflexivity. Qed.

Ltac zcases :=
  repeat (match goal with
          | |- context [?a <=? ?b] => destruct (Z.leb_spec a b)
          | |- context [?a <? ?b] => destruct (Z.ltb_spec a b)
          | |- context [?a =? ?b] => destruct (Z.eqb_spec a b)
          end; simpl).

Lemma digitIn_cases c d :
  digitIn 16 c = Some d ->
  (48 <= code c <= 57 /\ d = code c - 48) \/
  (97 <= code c <= 102 /\ d = code c - 87) \/
  (65 <= code c <= 70 /\ d = code c - 55).
Proof.
  unfold digitIn, digitVal.
  zcases; intros ?; simplify_eq; lia.
Qed.

Lemma digitIn_range c d : digitIn 16 c = Some d -> 0 <= d < 16.
Proof. intros H. apply digitIn_cases in H. lia. Qed.

(** A hexadecimal digit is no white space, no sign and no ["x"]. *)
Lemma digitIn_plain c d :
  digitIn 16 c = Some d ->
  isSpace c = false /\ isChar c 45 = false /\ isChar c 43 = false /\
  isChar c 120 || isChar c 88 = false.
Proof.
  intros H. apply digitIn_cases in H.
  assert (Hc : (48 <= code c <= 57) \/ (97 <= code c <= 102) \/ (65 <= code c <= 70)) by lia.
  clear H. unfold isSpace, isChar.
  repeat split; zcases; first [lia | reflexivity].
Qed.

Lemma parseInt16_pair a b da db :
  digitIn 16 a = Some da -> digitIn 16 b = Some db ->
  toUint8 (parseInt16 [a; b]) = 16 * da + db.
Proof.
  intros Ha Hb.
  destruct (digitIn_plain _ _ Ha) as (Hs & Hm & Hp & _).
  destruct (digitIn_plain _ _ Hb) as (_ & _ & _ & Hx).
  pose proof (digitIn_range _ _ Ha). pose proof (digitIn_range _ _ Hb).
  unfold parseInt16, parseInt. simpl dropWhile. rewrite Hs, Hm, Hp.
  unfold strip0x. rewrite Hx, andb_false_r. simpl. rewrite Ha, Hb. simpl.
  destruct da; [| |lia]; (rewrite Z.mod_small; lia).
Qed.

Lemma parseHexPairs_digits cs : forall ds,
  hexDigits cs = Some ds -> parseHexPairs cs = pairBytes ds.
Proof.
  induction cs as [cs IH] using (induction_ltof1 _ (@length ascii)).
  unfold ltof in IH. intros ds H.
  destruct cs as [|a [|b cs]]; simpl in H.
  - by injection H as <-.
  - destruct (digitIn 16 a); simplify_eq. reflexivity.
  - destruct (digitIn 16 a) as [da|] eqn:Ha; [|done].
    destruct (digitIn 16 b) as [db|] eqn:Hb; [|done].
    destruct (hexDigits cs) as [ds'|] eqn:Hds; [|done].
    injection H as <-.
    cbn [parseHexPairs pairBytes].
    rewrite (parseInt16_pair _ _ _ _ Ha Hb). f_equal.
    apply IH; [simpl; lia | done].
Qed.

(** *** Fixed-width digits *)

Lemma length_fixed k v : length (fixed k v) = k.
Proof. induction k as [|k IH]; simpl; [done | by rewrite IH]. Qed.

Lemma fixed_snoc k : forall v, fixed (S k) v = fixed k (v / 16) ++ [v mod 16].
Proof.
  induction k as [|k IH]; intros v.
  - simpl. by rewrite Z.div_1_r.
  - change (fixed (S (S k)) v) with ((v / 16 ^ Z.of_nat (S k)) mod 16 :: fixed (S k) v).
    rewrite IH. change (fixed (S k) (v / 16)) with
      (((v / 16) / 16 ^ Z.of_nat k) mod 16 :: fixed k (v / 16)).
    simpl app. f_equal. f_equal.
    rewrite Z.div_div by lia. f_equal.
    rewrite Nat2Z.inj_succ, Z.pow_succ_r by lia. reflexivity.
Qed.

Lemma fixed_pad m j v :
  0 <= v < 16 ^ Z.of_nat m -> fixed (j + m) v = repeat 0 j ++ fixed m v.
Proof.
  intros Hv. induction j as [|j IH]; [done|].
  change (fixed (S j + m) v) with ((v / 16 ^ Z.of_nat (j + m)) mod 16 :: fixed (j + m) v).
  rewrite IH. simpl. f_equal.
  rewrite Z.div_small; [done|].
  split; [lia|]. apply Z.lt_le_trans with (16 ^ Z.of_nat m); [lia|].
  apply Z.pow_le_mono_r; lia.
Qed.

Lemma fixed_range k v : Forall (fun d => 0 <= d < 16) (fixed k v).
Proof.
  induction k as [|k IH]; simpl; constructor; [|done].
  apply Z.mod_pos_bound. lia.
Qed.

Lemma hexDigits_digitChar ds :
  Forall (fun d => 0 <= d < 16) ds -> hexDigits (map digitChar ds) = Some ds.
Proof.
  induction 1 as [|d ds Hd _ IH]; simpl; [done|].
  by rewrite (digitIn_digitChar d Hd), IH.
Qed.

(** *** [toString(16)] and [padStart] *)

Lemma digitsLoop_acc radix fuel : forall n acc,
  digitsLoop radix fuel n acc = digitsLoop radix fuel n [] ++ acc.
Proof.
  induction fuel as [|fuel IH]; intros n acc; simpl; [done|].
  destruct (n <? radix); [done|].
  rewrite IH, (IH _ [_]). by rewrite <- app_assoc.
Qed.

Lemma digitsLoop_fixed fuel : forall n,
  0 <= n -> Z.log2 n <= Z.of_nat fuel ->
  exists m : nat,
    n < 16 ^ Z.of_nat (S m) /\ (m = O \/ 16 ^ Z.of_nat m <= n) /\
    digitsLoop 16 fuel n [] = map digitChar (fixed (S m) n).
Proof.
  induction fuel as [|fuel IH]; intros n Hn Hlog.
  - assert (n < 2).
    { destruct (Z.eq_dec n 0) as [->|]; [lia|].
      pose proof (Z.log2_spec n ltac:(lia)) as Hs.
      assert (Z.log2 n = 0) as Hz by (pose proof (Z.log2_nonneg n); lia).
      rewrite Hz in Hs. simpl in Hs. lia. }
    exists O. split; [simpl; lia|]. split; [by left|].
    simpl. rewrite Z.div_1_r, Z.mod_small by lia. reflexivity.
  - simpl digitsLoop. destruct (Z.ltb_spec n 16) as [Hlt|Hge].
    + exists O. split; [simpl; lia|]. split; [by left|].
      simpl. rewrite Z.div_1_r, Z.mod_small by lia. reflexivity.
    + destruct (IH (n / 16)) as (m & Hm1 & Hm2 & Hm3).
      { apply Z.div_pos; lia. }
      { assert (Z.log2 (n / 16) = Z.log2 n - 4); [|lia].
        change 16 with (2 ^ 4). rewrite <- Z.shiftr_div_pow2 by lia.
        rewrite Z.log2_shiftr by lia. 
        assert (4 <= Z.log2 n); [|lia].
        apply Z.log2_le_pow2; simpl; lia. }
      exists (S m). split; [|split].
      * rewrite Nat2Z.inj_succ, Z.pow_succ_r by lia.
        pose proof (Z.mul_div_le n 16 ltac:(lia)).
        pose proof (Z.mod_pos_bound n 16 ltac:(lia)).
        pose proof (Z.div_mod n 16 ltac:(lia)). lia.
      * right. rewrite Nat2Z.inj_succ, Z.pow_succ_r by lia.
        destruct Hm2 as [-> | Hm2].
        -- simpl. lia.
        -- pose proof (Z.mul_div_le n 16 ltac:(lia)). lia.
      * rewrite digitsLoop_acc, Hm3. rewrite (fixed_snoc (S m)).
        by rewrite map_app.
Qed.

Lemma chars_toString16 k v :
  (1 <= k)%nat -> 0 <= v < 16 ^ Z.of_nat k ->
  chars (padStart0 k (toStringRadix 16 v)) = map digitChar (fixed k v).
Proof.
  intros Hk Hv. rewrite chars_padStart0. unfold toStringRadix.
  destruct (Z.ltb_spec v 0) as [|_]; [lia|].
  rewrite length_ofChars, chars_ofChars. unfold digitsOf.
  destruct (digitsLoop_fixed (Z.to_nat (Z.log2 v)) v) as (m & Hm1 & Hm2 & ->);
    [lia | pose proof (Z.log2_nonneg v); lia |].
  rewrite length_map, length_fixed.
  assert (S m <= k)%nat as Hle.
  { destruct Hm2 as [-> | Hm2].
    - lia.
    - destruct (le_lt_dec k m) as [Hkm|]; [|lia].
      assert (16 ^ Z.of_nat k <= 16 ^ Z.of_nat m) by (apply Z.pow_le_mono_r; lia).
      lia. }
  replace k with ((k - S m) + S m)%nat at 2 by lia.
  rewrite fixed_pad by lia. rewrite map_app. f_equal.
  induction (k - S m)%nat as [|j IHj]; simpl; [done | by rewrite IHj].
Qed.

(** *** Digits and bytes *)

Lemma pairBytes_fixed k : forall v, pairBytes (fixed (k + k) v) = Commitment.abi_uint k v.
Proof.
  induction k as [|k IH]; intros v; [done|].
  replace (S k + S k)%nat with (S (S (k + k))) by lia.
  change (fixed (S (S (k + k))) v) with
    ((v / 16 ^ Z.of_nat (S (k + k))) mod 16 :: (v / 16 ^ Z.of_nat (k + k)) mod 16
       :: fixed (k + k) v).
  cbn [pairBytes Commitment.abi_uint]. rewrite IH. f_equal.
  assert (256 ^ Z.of_nat k = 16 ^ Z.of_nat (k + k)) as ->.
  { rewrite Nat2Z.inj_add, Z.pow_add_r by lia.
    change 256 with (16 * 16). by rewrite Z.pow_mul_l. }
  set (w := v / 16 ^ Z.of_nat (k + k)).
  assert (v / 16 ^ Z.of_nat (S (k + k)) = w / 16) as ->.
  { rewrite Nat2Z.inj_succ, Z.pow_succ_r by lia.
    rewrite (Z.mul_comm 16). unfold w. rewrite Z.div_div by lia. reflexivity. }
  change 256 with (16 * 16). rewrite Z.rem_mul_r by lia. lia.
Qed.


Lemma pairBytes_app k v ds :
  pairBytes (fixed (k + k) v ++ ds) = pairBytes (fixed (k + k) v) ++ pairBytes ds.
Proof.
  revert v. induction k as [|k IH]; intros v; [done|].
  replace (S k + S k)%nat with (S (S (k + k))) by lia.
  change (fixed (S (S (k + k))) v) with
    ((v / 16 ^ Z.of_nat (S (k + k))) mod 16 :: (v / 16 ^ Z.of_nat (k + k)) mod 16
       :: fixed (k + k) v).
  cbn [app pairBytes]. by rewrite IH.
Qed.

Lemma hexDigits_app cs1 cs2 ds1 ds2 :
  hexDigits cs1 = Some ds1 -> hexDigits cs2 = Some ds2 ->
  hexDigits (cs1 ++ cs2) = Some (ds1 ++ ds2).
Proof.
  revert ds1. induction cs1 as [|c cs1 IH]; intros ds1 H1 H2; simpl in *.
  - by injection H1 as <-.
  - destruct (digitIn 16 c); [|done].
    destruct (hexDigits cs1) as [ds|]; [|done].
    injection H1 as <-. by rewrite (IH ds eq_refl H2).
Qed.

Lemma hexDigits_shape cs : forall ds,
  hexDigits cs = Some ds ->
  length ds = length cs /\ Forall (fun d => 0 <= d < 16) ds.
Proof.
  induction cs as [|c cs IH]; intros ds H; simpl in H.
  - injection H as <-. by split.
  - destruct (digitIn 16 c) as [d|] eqn:Hd; [|done].
    destruct (hexDigits cs) as [ds'|]; [|done].
    injection H as <-. destruct (IH ds' eq_refl) as [Hl Hr].
    split; [simpl; by rewrite Hl|].
    constructor; [by eapply digitIn_range | done].
Qed.

Lemma fold_digits ds : forall acc,
  Forall (fun d => 0 <= d < 16) ds ->
  fold_left (fun a d => a * 16 + d) ds acc
    = acc * 16 ^ Z.of_nat (length ds) + valueOf ds /\
  0 <= valueOf ds < 16 ^ Z.of_nat (length ds).
Proof.
  unfold valueOf.
  induction ds as [|d ds IH]; intros acc Hr.
  - simpl. lia.
  - inversion Hr as [|? ? Hd Hr']; subst.
    cbn [fold_left length].
    destruct (IH (acc * 16 + d) Hr') as [-> _].
    destruct (IH (0 * 16 + d) Hr') as [-> Hb].
    rewrite Nat2Z.inj_succ, Z.pow_succ_r by lia.
    split; [ring|]. nia.
Qed.

Lemma readDigits_hexDigits cs : forall acc v,
  readDigits 16 acc cs = Some v ->
  exists ds, hexDigits cs = Some ds /\ v = fold_left (fun a d => a * 16 + d) ds acc.
Proof.
  induction cs as [|c cs IH]; intros acc v H; simpl in *.
  - injection H as <-. by exists [].
  - destruct (digitIn 16 c) as [d|]; [|done].
    destruct (IH _ _ H) as (ds & -> & ->). by exists (d :: ds).
Qed.

Lemma fixed_shift k : forall x y,
  fixed k (x * 16 ^ Z.of_nat k + y) = fixed k y.
Proof.
  induction k as [|k IH]; intros x y; [done|].
  cbn [fixed]. f_equal.
  - rewrite Nat2Z.inj_succ, Z.pow_succ_r by lia.
    replace (x * (16 * 16 ^ Z.of_nat k) + y) with (y + (x * 16) * 16 ^ Z.of_nat k) by ring.
    rewrite Z.div_add by lia.
    rewrite Z.add_mod, Z.mod_mul, Z.add_0_r, Z.mod_mod by lia. reflexivity.
  - rewrite Nat2Z.inj_succ, Z.pow_succ_r by lia.
    replace (x * (16 * 16 ^ Z.of_nat k) + y) with ((x * 16) * 16 ^ Z.of_nat k + y) by ring.
    apply IH.
Qed.

Lemma fixed_valueOf ds :
  Forall (fun d => 0 <= d < 16) ds -> fixed (length ds) (valueOf ds) = ds.
Proof.
  induction ds as [|d ds IH]; intros Hr; [done|].
  inversion Hr as [|? ? Hd Hr']; subst.
  assert (valueOf (d :: ds) = d * 16 ^ Z.of_nat (length ds) + valueOf ds) as ->.
  { unfold valueOf at 1. cbn [fold_left].
    destruct (fold_digits ds (0 * 16 + d) Hr') as [-> _]. ring. }
  destruct (fold_digits ds 0 Hr') as [_ Hb].
  cbn [length fixed]. f_equal.
  - rewrite (Z.add_comm (d * _)), Z.div_add by lia.
    rewrite Z.div_small by lia. rewrite Z.mod_small; lia.
  - rewrite fixed_shift. by apply IH.
Qed.

(** A string of [k + k] hexadecimal digits, in either letter case, parses
    to the [k] big-endian bytes of the number it denotes. *)
Lemma parseHexPairs_readDigits k cs v :
  length cs = (k + k)%nat -> readDigits 16 0 cs = Some v ->
  hexDigits cs = Some (fixed (k + k) v) /\ 0 <= v < 16 ^ Z.of_nat (k + k).
Proof.
  intros Hlen H. destruct (readDigits_hexDigits _ _ _ H) as (ds & Hds & ->).
  destruct (hexDigits_shape _ _ Hds) as [Hl Hr].
  destruct (fold_digits ds 0 Hr) as [-> Hb]. simpl.
  rewrite <- Hlen, <- Hl. by rewrite fixed_valueOf.
Qed.

End HexFacts.
(* ===================================================================== *)
(** ** The commit hash against the ledger's encoding *)
(* ===================================================================== *)

Module CommitFacts.
Import Field Commitment Digits HexFacts FieldFacts.

Lemma FIELD_SIZE_uint256 : FIELD_SIZE < 16 ^ Z.of_nat 64.
Proof. reflexivity. Qed.

(** A string of hexadecimal digits does not start with ["0x"]. *)
Lemma startsWith_0x_digits s ds :
  hexDigits (chars s) = Some ds -> startsWith s "0x" = false.
Proof.
  unfold startsWith. destruct s as [|a [|b s]]; try reflexivity.
  - intros _. cbn [String.prefix]. by destruct (ascii_dec "0"%char a).
  - simpl chars. cbn [hexDigits].
    destruct (digitIn 16 a); [|done].
    destruct (digitIn 16 b) as [db|] eqn:Hb; [|done]. intros _.
    cbn [String.prefix]. destruct (ascii_dec "0"%char a); [|done].
    destruct (ascii_dec "x"%char b) as [<-|]; [|done].
    vm_compute in Hb. discriminate.
Qed.

Lemma startsWith_0x_append s : startsWith (String.append "0x" s) "0x" = true.
Proof.
  unfold startsWith.
  change (String.append "0x" s) with (String "0"%char (String "x"%char s)).
  cbn [String.prefix].
  destruct (ascii_dec "0"%char "0"%char); [|done].
  destruct (ascii_dec "x"%char "x"%char); [|done].
  by destruct s.
Qed.

Lemma sliceFrom_0x_append s : sliceFrom 2 (String.append "0x" s) = s.
Proof.
  unfold sliceFrom. rewrite chars_append.
  change (chars "0x") with ["0"%char; "x"%char]. cbn [app skipn].
  apply ofChars_chars.
Qed.

Lemma sliceFrom_toHex fe :
  sliceFrom 2 (toHex fe) = padStart0 64 (toStringRadix 16 (value fe)).
Proof.
  unfold toHex. apply sliceFrom_0x_append.
Qed.

(** The address argument as [generateCommitHash] reads it. *)
Lemma addressHex_spec (prefixed : bool) hex addr :
  String.length hex = 40%nat -> readDigits 16 0 (chars hex) = Some addr ->
  let address := if prefixed then String.append "0x" hex else hex in
  chars (padStart0 40 (if startsWith address "0x" then sliceFrom 2 address else address))
    = chars hex.
Proof.
  intros Hlen Hread address.
  assert ((if startsWith address "0x" then sliceFrom 2 address else address) = hex) as ->.
  { subst address. destruct prefixed.
    - by rewrite startsWith_0x_append, sliceFrom_0x_append.
    - destruct (readDigits_hexDigits _ _ _ Hread) as (ds & Hds & _).
      by rewrite (startsWith_0x_digits _ _ Hds). }
  rewrite chars_padStart0, Hlen. reflexivity.
Qed.

(** C1. For a field element [c], a nonce [n] that fits a [uint256] and an
    address given as 40 hexadecimal digits (either letter case, with or
    without ["0x"]) denoting the 20-byte value [addr],
    [generateCommitHash] returns ["0x"] followed by the keccak256 digest of
    [abi.encodePacked(c, n, addr)]: 32 big-endian bytes of [c], 32
    big-endian bytes of [n], the 20 bytes of the address. *)
Theorem generateCommitHash_encodePacked
    (keccak256 : list Z -> string) (c : FieldElement) (nonce : jsval) (n : Z)
    (prefixed : bool) (hex : string) (addr : Z) :
  0 <= value c < FIELD_SIZE ->
  BigInt nonce = Ok n -> 0 <= n < 2 ^ 256 ->
  String.length hex = 40%nat -> readDigits 16 0 (chars hex) = Some addr ->
  generateCommitHash keccak256 (Elem c) nonce
      (if prefixed then String.append "0x" hex else hex)
    = Ok (String.append "0x" (keccak256 (abi_encodePacked (value c) n addr))).
Proof.
  intros Hc Hnonce Hn Hlen Hread.
  unfold generateCommitHash. simpl. rewrite Hnonce. simpl.
  do 2 f_equal. f_equal.
  rewrite sliceFrom_toHex, !chars_append.
  rewrite (addressHex_spec prefixed hex addr Hlen Hread).
  pose proof FIELD_SIZE_uint256 as Hp.
  rewrite !chars_toString16 by (first [lia | change (16 ^ Z.of_nat 64) with (2 ^ 256); lia]).
  destruct (parseHexPairs_readDigits 20 (chars hex) addr) as [Hds _];
    [by rewrite length_chars | done |].
  erewrite parseHexPairs_digits; last first.
  { apply hexDigits_app; [apply hexDigits_digitChar, fixed_range|].
    apply hexDigits_app; [apply hexDigits_digitChar, fixed_range | exact Hds]. }
  change 64%nat with (32 + 32)%nat.
  rewrite pairBytes_app, pairBytes_app, !pairBytes_fixed.
  reflexivity.
Qed.

(** The theorem at a concrete commitment, nonce and checksummed address. *)
Lemma generateCommitHash_encodePacked_witness :
  generateCommitHash (fun bytes => toStringRadix 16 (Z.of_nat (length bytes)))
      (Elem (mkFE 7)) (JBigInt 258) "0xC7f9bDe6F483205282064219a8aa084fb5a05b97"
    = Ok (String.append "0x" ((fun bytes => toStringRadix 16 (Z.of_nat (length bytes)))
            (abi_encodePacked 7 258 0xC7f9bDe6F483205282064219a8aa084fb5a05b97))).
Proof.
  apply (generateCommitHash_encodePacked _ (mkFE 7) (JBigInt 258) 258 true
           "C7f9bDe6F483205282064219a8aa084fb5a05b97"
           0xC7f9bDe6F483205282064219a8aa084fb5a05b97).
  - simpl. unfold FIELD_SIZE. lia.
  - reflexivity.
  - lia.
  - reflexivity.
  - reflexivity.
Defined.

End CommitFacts.
(* ===================================================================== *)
(** ** Running asynchronous computations *)
(* ===================================================================== *)

Module MFacts.

(** Unfold the monad of [M] down to matches on the outcomes. *)
Ltac runM :=
  unfold mbind, M_bind, bindM, mret, M_ret, ret, lift, throw, tryCatch, get, modify;
  cbn beta iota.

Ltac runM_in H :=
  unfold mbind, M_bind, bindM, mret, M_ret, ret, lift, throw, tryCatch, get, modify in H;
  cbn beta iota in H.

End MFacts.
(* ===================================================================== *)
(** ** Restoring a wallet from a mnemonic *)
(* ===================================================================== *)

Module HDFacts.
Import Field HD FieldFacts.






Definition zeros11 : string :=
  "abandon abandon abandon abandon abandon abandon abandon abandon abandon abandon abandon".


(** C5 as stated fails: two phrases of twelve listed words that carry the
    same 128 entropy bits and different checksum bits are both accepted
    and both restored into a seed, so for any checksum rule one of them is
    accepted with a wrong checksum.  The second one also disagrees with
    the checksum the file itself computes for that entropy. *)
Lemma restoreFromMnemonic_ignores_checksum :
  let m1 := String.append zeros11 " abandon" in
  let m2 := String.append zeros11 " ability" in
  validateMnemonic m1 = true /\ validateMnemonic m2 = true /\
  fst (restoreFromMnemonic toyKdf m1 emptyWallet) = Ok true /\
  fst (restoreFromMnemonic toyKdf m2 emptyWallet) = Ok true /\
  is_Some (seed (snd (restoreFromMnemonic toyKdf m2 emptyWallet))) /\
  bip39Split m1 = Some (repeat false 128, [false; false; false; false]) /\
  bip39Split m2 = Some (repeat false 128, [false; false; false; true]) /\
  calculateChecksum (repeat 0 16) 4 = "0000"%string.
Proof.
  repeat split; try (by vm_compute). vm_compute. eauto.
Qed.

End HDFacts.
(* ===================================================================== *)
(** ** Encrypting an order for a keeper *)
(* ===================================================================== *)

Module CipherFacts.
Import Field Commitment Cipher Examples MFacts.

Lemma bigintToBytes_bytes bs :
  bigintToBytes (JBytes bs) 32 =
    Throw (TypeError "Cannot mix BigInt and other types, use explicit conversions").
Proof. reflexivity. Qed.

Lemma deriveEncryptionKey_bytes pf bs :
  deriveEncryptionKey pf (JBytes bs) =
    Throw (TypeError "Cannot mix BigInt and other types, use explicit conversions").
Proof. reflexivity. Qed.

(** C7 (the code on every input). [deriveEncryptionKey] hands the byte
    array returned by [generateSharedSecret] to [bigintToBytes], whose
    [v & 0xFFn] is a [TypeError] on anything but a BigInt; so
    [encryptOrderForKeeper] and [decryptOrderForKeeper] throw for every
    order and every key, before any byte is encrypted, and there is no
    ciphertext to round-trip. *)
Theorem encryptOrderForKeeper_always_throws env pf orderData keeperPublicKey privateKey
    encrypted w :
  (exists msg,
     encryptOrderForKeeper env pf orderData keeperPublicKey privateKey w =
       (Throw (Error (String.append "Failed to encrypt order: " msg)), w)) /\
  (exists msg,
     decryptOrderForKeeper pf encrypted privateKey w =
       (Throw (Error (String.append "Failed to decrypt order: " msg)), w)).
Proof.
  split.
  - unfold encryptOrderForKeeper, rethrow. runM.
    destruct (generateSharedSecret pf privateKey keeperPublicKey) as [bs|e].
    + rewrite deriveEncryptionKey_bytes. eexists. reflexivity.
    + eexists. reflexivity.
  - unfold decryptOrderForKeeper, rethrow. runM.
    destruct (generateSharedSecret pf privateKey (eo_ephemeralPublicKey encrypted)) as [bs|e].
    + rewrite deriveEncryptionKey_bytes. eexists. reflexivity.
    + eexists. reflexivity.
Qed.

(** With a keeper key that is a hexadecimal string the message is the
    [TypeError]'s. *)
Lemma encryptOrderForKeeper_example :
  fst (encryptOrderForKeeper (envWith 0 []) toyPlatform order1 "0a" 5 world1) =
    Throw (Error "Failed to encrypt order: Cannot mix BigInt and other types, use explicit conversions").
Proof. reflexivity. Qed.

Lemma length_getRandomValues env n w :
  exists bytes, getRandomValues env n w = (Ok bytes, draw n w) /\ length bytes = n.
Proof.
  unfold getRandomValues. eexists. split; [reflexivity|].
  by rewrite length_map, length_seq.
Qed.

(** C2, as the code has it. The AES-GCM step of the keeper encryption
    draws a 12-byte IV and, whenever the platform's encryption returns,
    yields a 16-byte tag and a ciphertext exactly as long as the plaintext
    it was given: nothing is padded to a fixed length, and the only way it
    fails is the platform's encryption failing (no plaintext is refused
    for its size).  The submission path expects
    [ZK_CONFIG.ENCRYPTED_ORDER_SIZE = 256] bytes. *)
Theorem encryptWithAES_lengths env pf data key w :
  let ivBytes := map (fun i => random env i mod 256) (seq (cursor w) 12) in
  length ivBytes = 12%nat /\
  match aesGcmEncrypt pf key ivBytes data with
  | Ok c =>
      exists r, encryptWithAES env pf data key w = (Ok r, draw 12 w) /\
        iv r = ivBytes /\
        length (authTag r) = 16%nat /\
        length (ciphertext r) = length data /\
        ciphertext r ++ authTag r = c
  | Throw e => encryptWithAES env pf data key w = (Throw e, draw 12 w)
  end /\
  Orders.ZK_CONFIG_ENCRYPTED_ORDER_SIZE = 256.
Proof.
  intros ivBytes. split; [unfold ivBytes; by rewrite length_map, length_seq|]. split; [|done].
  unfold encryptWithAES, getRandomValues. runM.
  fold ivBytes.
  destruct (aesGcmEncrypt pf key ivBytes data) as [c|e] eqn:E; [|done].
  pose proof (encrypt_length pf _ _ _ _ E) as Hlen.
  eexists. split; [reflexivity|]. cbn [iv authTag ciphertext].
  split; [done|].
  rewrite length_skipn, length_firstn, firstn_skipn. repeat split; lia.
Qed.

(** C2 as stated fails: for an order whose serialization has 62 bytes the
    IV has 12 bytes and ciphertext and tag together have 78, and another
    order gives another length. *)
Lemma encrypted_order_not_fixed_size :
  exists r1 r2,
    fst (encryptWithAES (envWith 0 []) toyPlatform (jsonOrder toyPlatform order1)
           (repeat 7 32) world1) = Ok r1 /\
    fst (encryptWithAES (envWith 0 []) toyPlatform (jsonOrder toyPlatform order2)
           (repeat 7 32) world1) = Ok r2 /\
    length (iv r1) = 12%nat /\ length (iv r1) <> 24%nat /\
    length (ciphertext r1 ++ authTag r1) = 78%nat /\
    length (ciphertext r1 ++ authTag r1) <> 455%nat /\
    length (ciphertext r2 ++ authTag r2) = 145%nat /\
    length (ciphertext r1) <> length (ciphertext r2).
Proof.
  eexists. eexists. split; [reflexivity|]. split; [reflexivity|].
  vm_compute. repeat split; congruence.
Qed.

End CipherFacts.
(* ===================================================================== *)
(** ** The order of doubles that the selection loop relies on *)
(* ===================================================================== *)

Module FloatFacts.

Ltac sf_cases :=
  repeat match goal with
         | H : context [Z.compare ?a ?b] |- _ => destruct (Z.compare_spec a b)
         | |- context [Z.compare ?a ?b] => destruct (Z.compare_spec a b)
         | H : context [Pos.compare ?a ?b] |- _ => destruct (Pos.compare_spec a b)
         | |- context [Pos.compare ?a ?b] => destruct (Pos.compare_spec a b)
         end;
  simpl in *; try discriminate; try reflexivity; try lia.

Lemma SFltb_irrefl x : SFltb x x = false.
Proof.
  unfold SFltb, SFcompare.
  destruct x as [[]|[]| |[] m e]; try reflexivity;
    change (PosDef.Pos.compare_cont Eq m m) with (Pos.compare m m); sf_cases.
Qed.

Lemma SFltb_negtrans b x n :
  SFltb b x = false -> SFltb b n = true -> SFltb n x = false.
Proof.
  unfold SFltb, SFcompare.
  destruct b as [[]|[]| |[] mb eb], x as [[]|[]| |[] mx ex], n as [[]|[]| |[] mn en];
    simpl; intros Hbx Hbn; try discriminate; try reflexivity;
    repeat match goal with
           | H : context [PosDef.Pos.compare_cont Eq ?a ?b] |- _ =>
               change (PosDef.Pos.compare_cont Eq a b) with (Pos.compare a b) in H
           | |- context [PosDef.Pos.compare_cont Eq ?a ?b] =>
               change (PosDef.Pos.compare_cont Eq a b) with (Pos.compare a b)
           end;
    sf_cases.
Qed.

Lemma SFleb_after b x n :
  SFltb b x = false -> SFltb b n = true -> SFleb n x = false.
Proof.
  unfold SFltb, SFleb, SFcompare.
  destruct b as [[]|[]| |[] mb eb], x as [[]|[]| |[] mx ex], n as [[]|[]| |[] mn en];
    simpl; intros Hbx Hbn; try discriminate; try reflexivity;
    repeat match goal with
           | H : context [PosDef.Pos.compare_cont Eq ?a ?b] |- _ =>
               change (PosDef.Pos.compare_cont Eq a b) with (Pos.compare a b) in H
           | |- context [PosDef.Pos.compare_cont Eq ?a ?b] =>
               change (PosDef.Pos.compare_cont Eq a b) with (Pos.compare a b)
           end;
    sf_cases.
Qed.

Lemma SFltb_trans a b c :
  SFltb a b = true -> SFltb b c = true -> SFltb a c = true.
Proof.
  unfold SFltb, SFcompare.
  destruct a as [[]|[]| |[] ma ea], b as [[]|[]| |[] mb eb], c as [[]|[]| |[] mc ec];
    simpl; intros Hab Hbc; try discriminate; try reflexivity;
    repeat match goal with
           | H : context [PosDef.Pos.compare_cont Eq ?a ?b] |- _ =>
               change (PosDef.Pos.compare_cont Eq a b) with (Pos.compare a b) in H
           | |- context [PosDef.Pos.compare_cont Eq ?a ?b] =>
               change (PosDef.Pos.compare_cont Eq a b) with (Pos.compare a b)
           end;
    sf_cases.
Qed.

(** No double is greater than itself. *)
Lemma ltb_irrefl (x : float) : (x <? x)%float = false.
Proof. rewrite ltb_spec. apply SFltb_irrefl. Qed.

(** If [x] does not beat [b] and [n] beats [b], then [x] does not beat
    [n]; it does not even tie with it. This holds with NaN as well. *)
Lemma ltb_negtrans (b x n : float) :
  (b <? x)%float = false -> (b <? n)%float = true -> (n <? x)%float = false.
Proof. rewrite !ltb_spec. apply SFltb_negtrans. Qed.

Lemma leb_after (b x n : float) :
  (b <? x)%float = false -> (b <? n)%float = true -> (n <=? x)%float = false.
Proof. rewrite !ltb_spec, leb_spec. apply SFleb_after. Qed.

Lemma ltb_trans (a b c : float) :
  (a <? b)%float = true -> (b <? c)%float = true -> (a <? c)%float = true.
Proof. rewrite !ltb_spec. apply SFltb_trans. Qed.

End FloatFacts.
(* ===================================================================== *)
(** ** Hexadecimal and byte encodings of field elements *)
(* ===================================================================== *)

Module CodecFacts.
Import Field Commitment Digits HexFacts FieldFacts CommitFacts.

Lemma valueOf_snoc ds d : valueOf (ds ++ [d]) = valueOf ds * 16 + d.
Proof. unfold valueOf. by rewrite fold_left_app. Qed.

Lemma valueOf_fixed k : forall v, 0 <= v < 16 ^ Z.of_nat k -> valueOf (fixed k v) = v.
Proof.
  induction k as [|k IH]; intros v Hv.
  - simpl in *. unfold valueOf. simpl. lia.
  - rewrite fixed_snoc, valueOf_snoc.
    rewrite Nat2Z.inj_succ, Z.pow_succ_r in Hv by lia.
    rewrite IH.
    + pose proof (Z.div_mod v 16 ltac:(lia)). lia.
    + split; [apply Z.div_pos; lia | apply Z.div_lt_upper_bound; lia].
Qed.

Lemma readDigits_digitChar ds : forall acc,
  Forall (fun d => 0 <= d < 16) ds ->
  readDigits 16 acc (map digitChar ds) = Some (fold_left (fun a d => a * 16 + d) ds acc).
Proof.
  induction ds as [|d ds IH]; intros acc Hr; [done|].
  inversion Hr as [|? ? Hd Hr']; subst. simpl.
  rewrite (digitIn_digitChar d Hd). by apply IH.
Qed.

(** A fixed-width hexadecimal print reads back as the number printed. *)
Lemma readDigits_fixed k v :
  0 <= v < 16 ^ Z.of_nat k -> readDigits 16 0 (map digitChar (fixed k v)) = Some v.
Proof.
  intros Hv. rewrite readDigits_digitChar by apply fixed_range.
  change (fold_left (fun a d => a * 16 + d) (fixed k v) 0) with (valueOf (fixed k v)).
  by rewrite valueOf_fixed.
Qed.

Lemma dropWhile_head {A} (f : A -> bool) x l : f x = false -> dropWhile f (x :: l) = x :: l.
Proof. intros H. simpl. by rewrite H. Qed.

(** Trimming leaves a string alone that neither starts nor ends with
    white space. *)
Lemma trimChars_plain c cs c' :
  isSpace c = false -> isSpace c' = false ->
  trimChars (c :: cs ++ [c']) = c :: cs ++ [c'].
Proof.
  intros Hc Hc'. unfold trimChars. rewrite dropWhile_head by done.
  change (c :: cs ++ [c']) with ((c :: cs) ++ [c']).
  rewrite rev_app_distr. change (rev [c']) with [c'].
  change ([c'] ++ rev (c :: cs)) with (c' :: rev (c :: cs)).
  rewrite dropWhile_head by done.
  change (c' :: rev (c :: cs)) with ([c'] ++ rev (c :: cs)).
  rewrite rev_app_distr, rev_involutive. reflexivity.
Qed.

Lemma isSpace_digitChar d : 0 <= d < 16 -> isSpace (digitChar d) = false.
Proof.
  intros Hd. by destruct (digitIn_plain _ _ (digitIn_digitChar d Hd)) as (? & _).
Qed.

(** [BigInt("0x" + digits)] for [k >= 1] hexadecimal digits. *)
Lemma BigInt_0x_fixed k v :
  (1 <= k)%nat -> 0 <= v < 16 ^ Z.of_nat k ->
  BigInt (JString (String.append "0x" (ofChars (map digitChar (fixed k v))))) = Ok v.
Proof.
  intros Hk Hv. unfold BigInt, stringToBigInt.
  rewrite chars_append, chars_ofChars.
  change (chars "0x") with ["0"%char; "x"%char]. cbn [app].
  destruct k as [|k]; [lia|]. rewrite fixed_snoc, map_app. cbn [map].
  change ("0"%char :: "x"%char :: map digitChar (fixed k (v / 16)) ++ [digitChar (v mod 16)])
    with ("0"%char :: ("x"%char :: map digitChar (fixed k (v / 16))) ++ [digitChar (v mod 16)]).
  rewrite trimChars_plain; [|done|apply isSpace_digitChar, Z.mod_pos_bound; lia].
  cbn [app]. change (isChar "0" 45) with false. change (isChar "0" 43) with false.
  cbn iota. unfold unsignedLiteral.
  change (isChar "0" 48 && (isChar "x" 120 || isChar "x" 88)) with true. cbn iota.
  rewrite <- (map_app digitChar _ [v mod 16]), <- fixed_snoc.
  rewrite readDigits_fixed by done.
  destruct (map digitChar (fixed (S k) v)) eqn:E; [|done].
  apply (f_equal (@length _)) in E. rewrite length_map, length_fixed in E. done.
Qed.

(** *** Big-endian bytes *)

Lemma lor_shiftl_byte a b : 0 <= b < 256 -> Z.lor (Z.shiftl a 8) b = a * 256 + b.
Proof.
  intros Hb. rewrite Z.shiftl_mul_pow2 by lia. change (2 ^ 8) with 256.
  assert (Z.land (a * 256) b = 0) as Hland.
  { apply Z.bits_inj'. intros n Hn. rewrite Z.land_spec, Z.bits_0.
    destruct (Z.ltb_spec n 8).
    - change 256 with (2 ^ 8). rewrite Z.mul_pow2_bits_low by lia. reflexivity.
    - destruct (Z.eq_dec b 0) as [->|]; [by rewrite Z.bits_0, andb_false_r|].
      rewrite (Z.bits_above_log2 b n), andb_false_r; [done | lia |].
      assert (Z.log2 b < 8) by (apply Z.log2_lt_pow2; lia). lia. }
  rewrite Z.add_nocarry_lxor by done. by rewrite Z.lxor_lor.
Qed.

Lemma abi_uint_snoc k : forall v, abi_uint (S k) v = abi_uint k (v / 256) ++ [v mod 256].
Proof.
  induction k as [|k IH]; intros v.
  - simpl. by rewrite Z.div_1_r.
  - change (abi_uint (S (S k)) v) with ((v / 256 ^ Z.of_nat (S k)) mod 256 :: abi_uint (S k) v).
    rewrite IH. change (abi_uint (S k) (v / 256)) with
      (((v / 256) / 256 ^ Z.of_nat k) mod 256 :: abi_uint k (v / 256)).
    simpl app. f_equal. f_equal.
    rewrite Z.div_div by lia. f_equal.
    rewrite Nat2Z.inj_succ, Z.pow_succ_r by lia. reflexivity.
Qed.

Lemma abi_uint_range k v : Forall (fun b => 0 <= b < 256) (abi_uint k v).
Proof.
  induction k as [|k IH]; simpl; constructor; [|done].
  apply Z.mod_pos_bound. lia.
Qed.

Lemma length_abi_uint k v : length (abi_uint k v) = k.
Proof. induction k as [|k IH]; simpl; [done | by rewrite IH]. Qed.

(** The byte loop of [bigintToBytes32] writes the big-endian bytes. *)
Lemma bigEndian_abi_uint k : forall v, bigEndian k v = abi_uint k v.
Proof.
  induction k as [|k IH]; intros v; [done|].
  rewrite abi_uint_snoc. cbn [bigEndian]. rewrite IH.
  rewrite Z.shiftr_div_pow2 by lia. change (2 ^ 8) with 256.
  change 255 with (Z.ones 8). rewrite Z.land_ones by lia. reflexivity.
Qed.

Lemma bytesValue_snoc bs b :
  0 <= b < 256 -> bytesValue (bs ++ [b]) = bytesValue bs * 256 + b.
Proof.
  intros Hb. unfold bytesValue. rewrite fold_left_app. simpl.
  by apply lor_shiftl_byte.
Qed.

(** Reading big-endian bytes back gives the number they were cut from. *)
Lemma bytesValue_abi_uint k : forall v, bytesValue (abi_uint k v) = v mod 256 ^ Z.of_nat k.
Proof.
  induction k as [|k IH]; intros v.
  - simpl. by rewrite Z.mod_1_r.
  - rewrite abi_uint_snoc, bytesValue_snoc by (apply Z.mod_pos_bound; lia).
    rewrite IH, Nat2Z.inj_succ, Z.pow_succ_r by lia.
    rewrite (Z.rem_mul_r v 256) by lia. lia.
Qed.

Lemma toHex_digits x :
  0 <= value x < FIELD_SIZE ->
  toHex x = String.append "0x" (ofChars (map digitChar (fixed 64 (value x)))).
Proof.
  intros Hx. unfold toHex. f_equal.
  rewrite <- (ofChars_chars (padStart0 64 _)). f_equal.
  apply chars_toString16; [lia|]. pose proof FIELD_SIZE_uint256. lia.
Qed.

Lemma toBytes_abi_uint x :
  0 <= value x < FIELD_SIZE -> toBytes x = abi_uint 32 (value x).
Proof.
  intros Hx. unfold toBytes. pose proof FIELD_SIZE_uint256 as Hp.
  rewrite chars_toString16 by lia.
  rewrite (parseHexPairs_digits _ (fixed 64 (value x)))
    by apply hexDigits_digitChar, fixed_range.
  change 64%nat with (32 + 32)%nat. rewrite pairBytes_fixed.
  rewrite firstn_app, length_abi_uint. change (32 - 32)%nat with 0%nat.
  rewrite firstn_0, app_nil_r. apply firstn_all2. by rewrite length_abi_uint.
Qed.

(** [toHex] prints 64 digits after ["0x"], and each way of reading a
    hexadecimal string ([fromHex], the constructor, [fromString]) gives
    the element back. *)
Theorem toHex_fromHex_round_trip (x : FieldElement) :
  0 <= value x < FIELD_SIZE ->
  String.length (toHex x) = 66%nat /\
  fromHex (toHex x) = Ok x /\
  new_FieldElement (JString (toHex x)) = Ok x /\
  fromString (toHex x) = Ok x.
Proof.
  intros Hx. pose proof FIELD_SIZE_uint256 as Hp.
  assert (new_FieldElement (JString (toHex x)) = Ok x) as Hnew.
  { unfold new_FieldElement. rewrite (toHex_digits x Hx), startsWith_0x_append.
    rewrite BigInt_0x_fixed by lia. simpl.
    rewrite reduce_small by done. by destruct x. }
  split.
  { rewrite (toHex_digits x Hx). rewrite <- length_chars, chars_append, chars_ofChars.
    by rewrite length_app, length_map, length_fixed. }
  split; [|split; [done|]].
  - unfold fromHex.
    assert (startsWith (toHex x) "0x" = true) as ->; [|done].
    by rewrite (toHex_digits x Hx), startsWith_0x_append.
  - unfold fromString.
    assert (startsWith (toHex x) "0x" = true) as ->; [|done].
    by rewrite (toHex_digits x Hx), startsWith_0x_append.
Qed.

Lemma toHex_fromHex_round_trip_witness :
  fromHex (toHex (mkFE 48879)) = Ok (mkFE 48879).
Proof.
  apply (toHex_fromHex_round_trip (mkFE 48879)). simpl. unfold FIELD_SIZE. lia.
Defined.

(** [toBytes] gives the 32 big-endian bytes of the value, and
    [fromBytes] reads them back to the same element. *)
Theorem toBytes_fromBytes_round_trip (x : FieldElement) :
  0 <= value x < FIELD_SIZE ->
  toBytes x = abi_uint 32 (value x) /\
  length (toBytes x) = 32%nat /\
  Forall (fun b => 0 <= b < 256) (toBytes x) /\
  fromBytes (toBytes x) = Ok x.
Proof.
  intros Hx. pose proof FIELD_SIZE_uint256 as Hp.
  rewrite (toBytes_abi_uint x Hx).
  split; [done|]. split; [apply length_abi_uint|]. split; [apply abi_uint_range|].
  unfold fromBytes. rewrite new_FieldElement_bigint, bytesValue_abi_uint.
  change (256 ^ Z.of_nat 32) with (16 ^ Z.of_nat 64).
  rewrite (Z.mod_small (value x)) by lia. rewrite Z.mod_small by lia. by destruct x.
Qed.

Lemma toBytes_fromBytes_round_trip_witness :
  fromBytes (toBytes (mkFE 48879)) = Ok (mkFE 48879).
Proof.
  apply (toBytes_fromBytes_round_trip (mkFE 48879)). simpl. unfold FIELD_SIZE. lia.
Defined.

End CodecFacts.
(* ===================================================================== *)
(** ** The field operations as arithmetic modulo [FIELD_SIZE] *)
(* ===================================================================== *)

Module FieldOps.
Import Field FieldFun FieldFacts.

Lemma rem_reduce z : 0 <= z -> Z.rem z FIELD_SIZE mod FIELD_SIZE = z mod FIELD_SIZE.
Proof.
  intros Hz. rewrite rem_mod_nonneg by done.
  apply Z.mod_mod. pose proof FIELD_SIZE_pos. lia.
Qed.

Lemma add_spec x y :
  0 <= value x -> 0 <= value y ->
  add x (Elem y) = Ok (mkFE ((value x + value y) mod FIELD_SIZE)).
Proof.
  intros Hx Hy. unfold add. simpl. rewrite new_FieldElement_bigint.
  by rewrite rem_reduce by lia.
Qed.

Lemma mul_spec x y :
  0 <= value x -> 0 <= value y ->
  mul x (Elem y) = Ok (mkFE ((value x * value y) mod FIELD_SIZE)).
Proof.
  intros Hx Hy. unfold mul. simpl. rewrite new_FieldElement_bigint.
  by rewrite rem_reduce by nia.
Qed.

Lemma sub_spec x y :
  sub x (Elem y) = Ok (mkFE ((value x - value y) mod FIELD_SIZE)).
Proof.
  unfold sub. simpl. rewrite new_FieldElement_bigint. pose proof FIELD_SIZE_pos.
  destruct (Z.ltb_spec (value x - value y) 0); [|done].
  do 2 f_equal. rewrite <- Z.add_mod_idemp_r, Z.mod_same, Z.add_0_r by lia. done.
Qed.

(** On field elements [add], [sub] and [mul] are addition, subtraction
    and multiplication modulo [FIELD_SIZE]; [sub] undoes [add] and [add]
    undoes [sub]. *)
Theorem field_operations_modular (x y : FieldElement) :
  0 <= value x < FIELD_SIZE -> 0 <= value y < FIELD_SIZE ->
  add x (Elem y) = Ok (mkFE ((value x + value y) mod FIELD_SIZE)) /\
  sub x (Elem y) = Ok (mkFE ((value x - value y) mod FIELD_SIZE)) /\
  mul x (Elem y) = Ok (mkFE ((value x * value y) mod FIELD_SIZE)) /\
  (s ← add x (Elem y); sub s (Elem y)) = Ok x /\
  (d ← sub x (Elem y); add d (Elem y)) = Ok x.
Proof.
  intros Hx Hy. pose proof FIELD_SIZE_pos as Hp.
  split; [apply add_spec; lia|]. split; [apply sub_spec|].
  split; [apply mul_spec; lia|]. split.
  - rewrite add_spec by lia. simpl. rewrite sub_spec. simpl.
    rewrite Zminus_mod_idemp_l. replace (value x + value y - value y) with (value x) by lia.
    rewrite Z.mod_small by lia. by destruct x.
  - rewrite sub_spec. simpl. rewrite add_spec; simpl; [|apply Z.mod_pos_bound; lia|lia].
    rewrite Zplus_mod_idemp_l. replace (value x - value y + value y) with (value x) by lia.
    rewrite Z.mod_small by lia. by destruct x.
Qed.

Lemma field_operations_modular_witness :
  sub (mkFE 3) (Elem (mkFE 5)) = Ok (mkFE ((3 - 5) mod FIELD_SIZE)).
Proof.
  apply (field_operations_modular (mkFE 3) (mkFE 5)); simpl; unfold FIELD_SIZE; lia.
Defined.

(** [pow] is the modular power for a non-negative exponent; a negative
    exponent never enters the loop and gives one. *)
Theorem pow_modular_power (x : FieldElement) (e : Z) :
  0 <= value x < FIELD_SIZE ->
  pow x (JBigInt e) =
    Ok (mkFE (if e <? 0 then 1 else value x ^ e mod FIELD_SIZE)).
Proof.
  intros Hx. destruct (Z.ltb_spec e 0) as [He|He].
  - unfold pow. simpl. destruct e as [| |e]; [lia..|].
    rewrite new_FieldElement_bigint. reflexivity.
  - apply pow_spec; lia.
Qed.

Lemma pow_modular_power_witness :
  pow (mkFE 3) (JBigInt 5) = Ok (mkFE 243) /\ pow (mkFE 3) (JBigInt (-1)) = Ok (mkFE 1).
Proof.
  split.
  - apply (pow_modular_power (mkFE 3) 5). simpl. unfold FIELD_SIZE. lia.
  - apply (pow_modular_power (mkFE 3) (-1)). simpl. unfold FIELD_SIZE. lia.
Defined.

Lemma toFieldElement_range v x : toFieldElement v = Ok x -> 0 <= x < FIELD_SIZE.
Proof.
  unfold toFieldElement. intros H. bind_ok H. injection H as <-. apply reduce_range.
Qed.

Lemma toFieldElement_bigint z : toFieldElement (JBigInt z) = Ok (z mod FIELD_SIZE).
Proof. unfold toFieldElement. simpl. by rewrite reduce_mod. Qed.

(** [inverseFieldElement] on a BigInt: a multiple of [FIELD_SIZE] is
    refused as zero, and whatever is returned is a reduced inverse. *)
Theorem inverseFieldElement_inverse (a : Z) :
  (a mod FIELD_SIZE = 0 ->
     inverseFieldElement (JBigInt a) = Throw (Error "Cannot compute inverse of zero")) /\
  (forall r, inverseFieldElement (JBigInt a) = Ok r ->
     0 <= r < FIELD_SIZE /\ (r * a) mod FIELD_SIZE = 1).
Proof.
  pose proof FIELD_SIZE_pos as Hp. split.
  - intros H0. unfold inverseFieldElement. rewrite toFieldElement_bigint, H0. reflexivity.
  - intros r H.
    destruct (inverseFieldElement_sound _ _ H) as (x & Hx & Hne & Hinv).
    rewrite toFieldElement_bigint in Hx. injection Hx as <-.
    rewrite Z.mul_mod_idemp_r in Hinv by lia. split; [|done].
    unfold inverseFieldElement in H. rewrite toFieldElement_bigint in H. simpl in H.
    destruct (a mod FIELD_SIZE =? 0); [done|].
    unfold modInverse in H.
    destruct (extendedGCD (Z.rem (a mod FIELD_SIZE) FIELD_SIZE) FIELD_SIZE) as [[g u] v].
    destruct (g =? 1); [|done]. injection H as <-.
    pose proof (Z.rem_bound_abs u FIELD_SIZE ltac:(lia)).
    rewrite rem_mod_nonneg by lia. apply Z.mod_pos_bound. lia.
Qed.

(** The function interface computes in the same field: with [x] and [y]
    what [toFieldElement] makes of the arguments, the four functions
    return the sum, difference, product and opposite modulo [FIELD_SIZE],
    each of which [validateFieldElement] accepts. *)
Theorem function_interface_modular (a b : jsval) (x y : Z) :
  toFieldElement a = Ok x -> toFieldElement b = Ok y ->
  0 <= x < FIELD_SIZE /\
  addFieldElements a b = Ok ((x + y) mod FIELD_SIZE) /\
  subtractFieldElements a b = Ok ((x - y) mod FIELD_SIZE) /\
  multiplyFieldElements a b = Ok ((x * y) mod FIELD_SIZE) /\
  negateFieldElement a = Ok ((- x) mod FIELD_SIZE) /\
  (forall r, In (Ok r) [addFieldElements a b; subtractFieldElements a b;
                        multiplyFieldElements a b; negateFieldElement a] ->
     validateFieldElement (JBigInt r) = Ok true).
Proof.
  intros Ha Hb. pose proof FIELD_SIZE_pos as Hp.
  pose proof (toFieldElement_range _ _ Ha) as Hx.
  pose proof (toFieldElement_range _ _ Hb) as Hy.
  assert (addFieldElements a b = Ok ((x + y) mod FIELD_SIZE)) as Hadd.
  { unfold addFieldElements. rewrite Ha, Hb. simpl. by rewrite rem_mod_nonneg by lia. }
  assert (subtractFieldElements a b = Ok ((x - y) mod FIELD_SIZE)) as Hsub.
  { unfold subtractFieldElements. rewrite Ha, Hb. simpl. f_equal.
    fold (reduce (x - y)). apply reduce_mod. }
  assert (multiplyFieldElements a b = Ok ((x * y) mod FIELD_SIZE)) as Hmul.
  { unfold multiplyFieldElements. rewrite Ha, Hb. simpl. by rewrite rem_mod_nonneg by nia. }
  assert (negateFieldElement a = Ok ((- x) mod FIELD_SIZE)) as Hneg.
  { unfold negateFieldElement. rewrite Ha. simpl. f_equal.
    destruct (Z.eqb_spec x 0) as [->|Hne]; [done|].
    apply (Z.mod_unique_pos _ _ (-1)); lia. }
  repeat (split; [done|]).
  intros r Hin. rewrite Hadd, Hsub, Hmul, Hneg in Hin.
  assert (0 <= r < FIELD_SIZE) as Hr.
  { simpl in Hin. destruct Hin as [H|[H|[H|[H|[]]]]]; injection H as <-;
      apply Z.mod_pos_bound; lia. }
  unfold validateFieldElement. simpl.
  destruct (Z.leb_spec FIELD_SIZE r); [lia|].
  destruct (Z.ltb_spec r 0); [lia | done].
Qed.

Lemma function_interface_modular_witness :
  subtractFieldElements (JNumber 3) (JString "0x10") = Ok ((3 - 16) mod FIELD_SIZE).
Proof.
  apply (function_interface_modular (JNumber 3) (JString "0x10") 3 16); reflexivity.
Defined.

(** [validateFieldElement] checks a BigInt as it is given, so it accepts
    exactly the BigInts of [[0, FIELD_SIZE)]; every other value is reduced
    first, so it is accepted whenever it converts at all. *)
Theorem validateFieldElement_accepts (v : jsval) :
  match v with
  | JBigInt z =>
      (validateFieldElement v = Ok true <-> 0 <= z < FIELD_SIZE) /\
      (z < 0 -> validateFieldElement v = Throw (Error "Field element cannot be negative"))
  | _ =>
      match toFieldElement v with
      | Ok _ => validateFieldElement v = Ok true
      | Throw e => validateFieldElement v = Throw e
      end
  end.
Proof.
  pose proof FIELD_SIZE_pos as Hp.
  assert (forall x, 0 <= x < FIELD_SIZE ->
            (if FIELD_SIZE <=? x
             then Throw (Error (String.append "Field element too large: "
                    (String.append (toStringRadix 10 x)
                       (String.append " >= " (toStringRadix 10 FIELD_SIZE)))))
             else if x <? 0 then Throw (Error "Field element cannot be negative")
             else Ok true) = Ok true) as Hok.
  { intros x Hx. destruct (Z.leb_spec FIELD_SIZE x); [lia|].
    by destruct (Z.ltb_spec x 0); [lia|]. }
  destruct v as [z|n|s|bs|]; unfold validateFieldElement.
  - simpl. split.
    + destruct (Z.leb_spec FIELD_SIZE z); [split; [done | lia]|].
      destruct (Z.ltb_spec z 0); [split; [done | lia]|]. split; [lia | done].
    + intros Hz. destruct (Z.leb_spec FIELD_SIZE z); [lia|].
      by destruct (Z.ltb_spec z 0); [|lia].
  - destruct (toFieldElement (JNumber n)) as [x|e] eqn:E; [|done].
    simpl. apply Hok. by eapply toFieldElement_range.
  - destruct (toFieldElement (JString s)) as [x|e] eqn:E; [|done].
    simpl. apply Hok. by eapply toFieldElement_range.
  - destruct (toFieldElement (JBytes bs)) as [x|e] eqn:E; [|done].
    simpl. apply Hok. by eapply toFieldElement_range.
  - reflexivity.
Qed.

(** [fromString] has no decimal branch: with or without ["0x"] the string
    goes to the constructor, which reads it as hexadecimal, so [fromString]
    returns an element exactly when [fromHex] returns it; the string
    ["10"] is the element sixteen. *)
Theorem fromString_reads_hexadecimal (s : string) :
  (forall fe, fromString s = Ok fe <-> fromHex s = Ok fe) /\
  fromString "10" = Ok (mkFE 16).
Proof.
  split; [|reflexivity]. intros fe. unfold fromString, fromHex, new_FieldElement.
  destruct (startsWith s "0x") eqn:E; cbn beta iota;
    rewrite ?E, ?CommitFacts.startsWith_0x_append.
  - reflexivity.
  -
    unfold try_catch.
    destruct (BigInt (JString (String.append "0x" s))) as [z|e]; simpl; [done|].
    split; discriminate.
Qed.

End FieldOps.
(* ===================================================================== *)
(** ** Decimal prints and literals *)
(* ===================================================================== *)

Module DecFacts.
Import Digits HexFacts CodecFacts.

Lemma digit10_cases d :
  0 <= d < 10 ->
  d = 0 \/ d = 1 \/ d = 2 \/ d = 3 \/ d = 4 \/ d = 5 \/ d = 6 \/ d = 7 \/ d = 8 \/ d = 9.
Proof. lia. Qed.

(** A decimal digit character: what it reads as, and what it is not. *)
Lemma digitChar10 d :
  0 <= d < 10 ->
  digitIn 10 (digitChar d) = Some d /\ isSpace (digitChar d) = false /\
  isChar (digitChar d) 45 = false /\ isChar (digitChar d) 43 = false /\
  isChar (digitChar d) 120 || isChar (digitChar d) 88 = false /\
  isChar (digitChar d) 111 || isChar (digitChar d) 79 = false /\
  isChar (digitChar d) 98 || isChar (digitChar d) 66 = false.
Proof.
  intros Hd. pose proof (digit10_cases d Hd) as H.
  repeat (destruct H as [-> | H]; [by vm_compute |]). subst. by vm_compute.
Qed.

Lemma readDigits10_digitChar ds : forall acc,
  Forall (fun d => 0 <= d < 10) ds ->
  readDigits 10 acc (map digitChar ds) = Some (fold_left (fun a d => a * 10 + d) ds acc).
Proof.
  induction ds as [|d ds IH]; intros acc Hr; [done|].
  inversion Hr as [|? ? Hd Hr']; subst. simpl.
  destruct (digitChar10 d Hd) as [-> _]. by apply IH.
Qed.

(** The digits [toString(10)] prints for a non-negative number. *)
Lemma digitsLoop10 fuel : forall n,
  0 <= n -> Z.log2 n <= Z.of_nat fuel ->
  exists d ds,
    digitsLoop 10 fuel n [] = map digitChar (d :: ds) /\
    Forall (fun d => 0 <= d < 10) (d :: ds) /\
    fold_left (fun a d => a * 10 + d) (d :: ds) 0 = n.
Proof.
  induction fuel as [|fuel IH]; intros n Hn Hlog.
  - assert (n < 2) as Hlt.
    { destruct (Z.eq_dec n 0); [lia|]. apply (Z.log2_lt_pow2 n 1); lia. }
    exists n, []. split; [reflexivity|].
      split; [constructor; [lia | done] | simpl; lia].
  - cbn [digitsLoop]. destruct (Z.ltb_spec n 10) as [Hlt|Hge].
    + exists n, []. split; [reflexivity|].
      split; [constructor; [lia | done] | simpl; lia].
    + assert (Z.log2 (n / 10) <= Z.of_nat fuel) as Hlog'.
      { assert (Z.log2 (n / 10) <= Z.log2 (n / 2)) as H1.
        { apply Z.log2_le_mono. apply Z.div_le_compat_l; lia. }
        assert (Z.log2 (n / 2) = Z.log2 n - 1) as H2.
        { rewrite <- Z.div2_div, Z.div2_spec, Z.log2_shiftr by lia.
          pose proof (Z.log2_le_mono 10 n ltac:(lia)) as H3.
          change (Z.log2 10) with 3 in H3. lia. }
        lia. }
      destruct (IH (n / 10) ltac:(apply Z.div_pos; lia) Hlog') as (d & ds & Heq & Hr & Hv).
      rewrite digitsLoop_acc, Heq.
      exists d, (ds ++ [n mod 10]). split; [|split].
      * change (map digitChar (d :: ds) ++ [digitChar (n mod 10)])
          with (map digitChar (d :: ds) ++ map digitChar [n mod 10]).
        by rewrite <- map_app.
      * change (d :: ds ++ [n mod 10]) with ((d :: ds) ++ [n mod 10]).
        apply Forall_app. split; [done|]. constructor; [|done].
        apply Z.mod_pos_bound. lia.
      * change (d :: ds ++ [n mod 10]) with ((d :: ds) ++ [n mod 10]).
        rewrite fold_left_app, Hv. simpl.
        pose proof (Z.div_mod n 10 ltac:(lia)). lia.
Qed.

Lemma digitsOf10 n :
  0 <= n ->
  exists d ds,
    digitsOf 10 n = map digitChar (d :: ds) /\
    Forall (fun d => 0 <= d < 10) (d :: ds) /\
    fold_left (fun a d => a * 10 + d) (d :: ds) 0 = n.
Proof.
  intros Hn. unfold digitsOf. apply digitsLoop10; [done|].
  pose proof (Z.log2_nonneg n). lia.
Qed.

Lemma dropWhile_nospace cs :
  Forall (fun c => isSpace c = false) cs -> dropWhile isSpace cs = cs.
Proof. intros H. destruct H as [|c cs Hc _]; [done|]. simpl. by rewrite Hc. Qed.

Lemma trimChars_nospace cs :
  Forall (fun c => isSpace c = false) cs -> trimChars cs = cs.
Proof.
  intros H. unfold trimChars. rewrite (dropWhile_nospace cs H).
  rewrite dropWhile_nospace; [apply rev_involutive|].
  apply Forall_forall. intros c Hc. rewrite Forall_forall in H. apply H.
  apply list_elem_of_In. apply list_elem_of_In in Hc. by apply in_rev.
Qed.

Lemma nospace_digits10 ds :
  Forall (fun d => 0 <= d < 10) ds -> Forall (fun c => isSpace c = false) (map digitChar ds).
Proof.
  intros H. apply Forall_map. eapply Forall_impl; [exact H|].
  intros d Hd. simpl. by destruct (digitChar10 d Hd) as (_ & ? & _).
Qed.

(** An unsigned decimal print is a decimal literal. *)
Lemma unsignedLiteral_digits10 d ds :
  Forall (fun d => 0 <= d < 10) (d :: ds) ->
  unsignedLiteral (map digitChar (d :: ds)) =
    Some (fold_left (fun a d => a * 10 + d) (d :: ds) 0).
Proof.
  intros Hr. unfold unsignedLiteral.
  destruct ds as [|d' ds]; [by apply (readDigits10_digitChar [d])|].
  cbn [map].
  inversion Hr as [|? ? Hd Hr']; subst. inversion Hr' as [|? ? Hd' _]; subst.
  destruct (digitChar10 d' Hd') as (_ & _ & _ & _ & -> & -> & ->).
  rewrite !andb_false_r.
  by apply (readDigits10_digitChar (d :: d' :: ds)).
Qed.

(** [BigInt(n.toString())] is [n], for either sign. *)
Lemma BigInt_toString10 z : BigInt (JString (toStringRadix 10 z)) = Ok z.
Proof.
  unfold BigInt, stringToBigInt, toStringRadix.
  destruct (Z.ltb_spec z 0) as [Hneg|Hpos].
  - destruct (digitsOf10 (- z) ltac:(lia)) as (d & ds & Heq & Hr & Hv).
    change (chars (String "-" (ofChars (digitsOf 10 (- z)))))
      with ("-"%char :: chars (ofChars (digitsOf 10 (- z)))).
    rewrite chars_ofChars, Heq.
    rewrite trimChars_nospace by (constructor; [done | by apply nospace_digits10]).
    change (isChar "-" 45) with true. cbn iota. cbn [map].
    rewrite (readDigits10_digitChar (d :: ds)) by done.
    rewrite Hv. simpl. f_equal. lia.
  - destruct (digitsOf10 z Hpos) as (d & ds & Heq & Hr & Hv).
    rewrite chars_ofChars, Heq.
    rewrite trimChars_nospace by (by apply nospace_digits10).
    cbn [map]. pose proof (Forall_inv Hr) as Hd. simpl in Hd.
    destruct (digitChar10 d Hd) as (_ & _ & -> & -> & _).
    change (digitChar d :: map digitChar ds) with (map digitChar (d :: ds)).
    rewrite unsignedLiteral_digits10 by done. by rewrite Hv.
Qed.

End DecFacts.
(* ===================================================================== *)
(** ** Commitments and nullifiers as linear forms over the field *)
(* ===================================================================== *)

Module LinearFacts.
Import Field Commitment Nullifier CommitmentObj FieldFacts FieldOps.

(** Step through a bind whose first computation is known. *)
Ltac rbind := cbn [mbind result_bind Js.bind value].

Lemma add_raw x c :
  0 <= value x ->
  add x (Raw (JBigInt c)) = Ok (mkFE ((value x + c) mod FIELD_SIZE)).
Proof.
  intros Hx. pose proof FIELD_SIZE_pos as Hp.
  unfold add, coerce. rewrite new_FieldElement_bigint.
  cbn [mbind result_bind Js.bind value].
  rewrite new_FieldElement_bigint, rem_reduce
    by (pose proof (Z.mod_pos_bound c FIELD_SIZE Hp); lia).
  by rewrite Z.add_mod_idemp_r by lia.
Qed.

Lemma mul_raw x c :
  0 <= value x ->
  mul x (Raw (JBigInt c)) = Ok (mkFE ((value x * c) mod FIELD_SIZE)).
Proof.
  intros Hx. pose proof FIELD_SIZE_pos as Hp.
  unfold mul, coerce. rewrite new_FieldElement_bigint.
  cbn [mbind result_bind Js.bind value].
  rewrite new_FieldElement_bigint, rem_reduce
    by (pose proof (Z.mod_pos_bound c FIELD_SIZE Hp); nia).
  by rewrite Z.mul_mod_idemp_r by lia.
Qed.

Lemma coerce_bigint z : coerce (Raw (JBigInt z)) = Ok (mkFE (z mod FIELD_SIZE)).
Proof. apply new_FieldElement_bigint. Qed.

Lemma mod_nonneg z : 0 <= z mod FIELD_SIZE.
Proof. pose proof FIELD_SIZE_pos. apply Z.mod_pos_bound. lia. Qed.

#[local] Hint Resolve mod_nonneg : core.

(** One turn of the hash loop. *)
Lemma hashStep_spec a b :
  hashStep (Ok (mkFE (a mod FIELD_SIZE))) b = Ok (mkFE ((a * 31 + b) mod FIELD_SIZE)).
Proof.
  pose proof FIELD_SIZE_pos as Hp. unfold hashStep. rbind.
  rewrite mul_raw by (rbind; auto). rbind.
  rewrite new_FieldElement_bigint. rbind.
  rewrite add_spec by (rbind; auto). rbind.
  rewrite Z.mul_mod_idemp_l by lia. by rewrite <- Z.add_mod by lia.
Qed.

Lemma hashLoop_spec bytes : forall a,
  fold_left hashStep bytes (Ok (mkFE (a mod FIELD_SIZE))) =
    Ok (mkFE (fold_left (fun h b => h * 31 + b) bytes a mod FIELD_SIZE)).
Proof.
  induction bytes as [|b bytes IH]; intros a; [done|].
  cbn [fold_left]. rewrite hashStep_spec. apply IH.
Qed.

Lemma hashOrderData_spec data :
  hashOrderData data =
    Ok (mkFE (fold_left (fun h b => h * 31 + b) (encode data) 1 mod FIELD_SIZE)).
Proof.
  unfold hashOrderData. rewrite new_FieldElement_bigint. apply hashLoop_spec.
Qed.

Lemma hashValue_spec v :
  hashValue v =
    Ok (mkFE (fold_left (fun h b => h * 31 + b) (bytesOf v) 1 mod FIELD_SIZE)).
Proof.
  unfold hashValue. rewrite new_FieldElement_bigint. apply hashLoop_spec.
Qed.

Lemma generateAccountCommitment_spec k n :
  generateAccountCommitment (Raw (JBigInt k)) (Raw (JBigInt n)) =
    Ok (mkFE (((k + n) * 7) mod FIELD_SIZE)).
Proof.
  pose proof FIELD_SIZE_pos as Hp.
  unfold generateAccountCommitment. rewrite !coerce_bigint. rbind.
  rewrite add_spec by (rbind; auto). rbind.
  rewrite mul_raw by (rbind; auto). rbind.
  rewrite <- Z.add_mod by lia. by rewrite Z.mul_mod_idemp_l by lia.
Qed.

(** The account commitment is [7 * (privateKey + nonce)] modulo
    [FIELD_SIZE]: it depends on the sum of key and nonce only, so
    exchanging the two, or moving any amount from one to the other, gives
    the same commitment. *)
Theorem generateAccountCommitment_linear (k n : Z) :
  generateAccountCommitment (Raw (JBigInt k)) (Raw (JBigInt n)) =
    Ok (mkFE (((k + n) * 7) mod FIELD_SIZE)) /\
  generateAccountCommitment (Raw (JBigInt n)) (Raw (JBigInt k)) =
    generateAccountCommitment (Raw (JBigInt k)) (Raw (JBigInt n)) /\
  (forall d, generateAccountCommitment (Raw (JBigInt (k + d))) (Raw (JBigInt (n - d))) =
             generateAccountCommitment (Raw (JBigInt k)) (Raw (JBigInt n))).
Proof.
  split; [apply generateAccountCommitment_spec|]. split.
  - rewrite !generateAccountCommitment_spec. by rewrite (Z.add_comm n k).
  - intros d. rewrite !generateAccountCommitment_spec.
    by replace (k + d + (n - d)) with (k + n) by lia.
Qed.


(** The order nullifier is [privateKey + 2 * orderCommitment + 3 * nonce]
    modulo [FIELD_SIZE], printed by [toHex]; so it is a linear form of its
    three arguments: adding [2 * d] to the key and taking [d] from the
    commitment leaves it as it was. *)
Theorem generateOrderNullifier_linear (k c n : Z) :
  generateOrderNullifier (Raw (JBigInt k)) (Raw (JBigInt c)) (Raw (JBigInt n)) =
    Ok (toHex (mkFE ((k + 2 * c + 3 * n) mod FIELD_SIZE))) /\
  (forall d,
     generateOrderNullifier (Raw (JBigInt (k + 2 * d))) (Raw (JBigInt (c - d)))
       (Raw (JBigInt n)) =
     generateOrderNullifier (Raw (JBigInt k)) (Raw (JBigInt c)) (Raw (JBigInt n))).
Proof.
  pose proof FIELD_SIZE_pos as Hp.
  assert (forall k c n,
            generateOrderNullifier (Raw (JBigInt k)) (Raw (JBigInt c)) (Raw (JBigInt n)) =
              Ok (toHex (mkFE ((k + 2 * c + 3 * n) mod FIELD_SIZE)))) as Hspec.
  { clear k c n. intros k c n.
    unfold generateOrderNullifier. rewrite !coerce_bigint. rbind.
    rewrite !mul_raw by (rbind; auto). rbind.
    rewrite add_spec by (rbind; auto). rbind.
    rewrite add_spec by (rbind; auto). rbind.
    do 3 f_equal.
    rewrite !Z.mul_mod_idemp_l by lia.
    rewrite <- (Z.add_mod k (c * 2)) by lia.
    rewrite <- Z.add_mod by lia. f_equal. lia. }
  split; [apply Hspec|].
  intros d. rewrite !Hspec.
  by replace (k + 2 * d + 2 * (c - d) + 3 * n) with (k + 2 * c + 3 * n) by lia.
Qed.

(** [hashString] stays in the field, and the deterministic nullifier is
    the secret times the hash of the context; the empty context hashes to
    zero, so with it every secret gets the all-zero nullifier. *)
Theorem generateDeterministicNullifier_product (secret : Z) (context : string) :
  0 <= hashString context < FIELD_SIZE /\
  generateDeterministicNullifier (Raw (JBigInt secret)) context =
    Ok (toHex (mkFE ((secret * hashString context) mod FIELD_SIZE))) /\
  generateDeterministicNullifier (Raw (JBigInt secret)) "" = Ok (toHex (mkFE 0)).
Proof.
  pose proof FIELD_SIZE_pos as Hp.
  assert (forall bytes a, 0 <= a < FIELD_SIZE -> Forall (fun b => 0 <= b) bytes ->
            0 <= fold_left (fun hash b => Z.rem (hash * 31 + b) FIELD_SIZE) bytes a
              < FIELD_SIZE) as Hrange.
  { induction bytes as [|b bytes IH]; intros a Ha Hb; [done|].
    inversion Hb; subst. cbn [fold_left]. apply IH; [|done].
    rewrite rem_mod_nonneg by nia. apply Z.mod_pos_bound. lia. }
  assert (forall ctx, generateDeterministicNullifier (Raw (JBigInt secret)) ctx =
            Ok (toHex (mkFE ((secret * hashString ctx) mod FIELD_SIZE)))) as Hspec.
  { intros ctx. unfold generateDeterministicNullifier. rewrite coerce_bigint. rbind.
    rewrite mul_raw by (rbind; auto). rbind.
    by rewrite Z.mul_mod_idemp_l by lia. }
  split; [|split; [apply Hspec|]].
  - apply Hrange; [lia|]. unfold encode. apply Forall_map, Forall_forall.
    intros c _. unfold code. lia.
  - rewrite Hspec. change (hashString "") with 0. by rewrite Z.mul_0_r.
Qed.

Lemma generateOrderCommitment_spec o n :
  generateOrderCommitment o (Raw (JBigInt n)) =
    Ok (mkFE ((fold_left (fun h b => h * 31 + b) (encode (serializeOrderData o)) 1 + n)
                mod FIELD_SIZE)).
Proof.
  pose proof FIELD_SIZE_pos as Hp.
  unfold generateOrderCommitment. rewrite coerce_bigint. rbind.
  rewrite hashOrderData_spec. rbind.
  rewrite add_spec by (rbind; auto). rbind. by rewrite <- Z.add_mod by lia.
Qed.

End LinearFacts.
(* ===================================================================== *)
(** ** Salts, nonces and the commitment object *)
(* ===================================================================== *)

Module CommitObjFacts.
Import Field Commitment CommitmentObj Digits HexFacts CodecFacts DecFacts FieldFacts FieldOps
  LinearFacts MFacts.

Lemma bytesFold bs : forall acc,
  Forall isByte bs ->
  fold_left (fun v b => Z.lor (Z.shiftl v 8) b) bs acc
    = acc * 256 ^ Z.of_nat (length bs) + bytesValue bs /\
  0 <= bytesValue bs < 256 ^ Z.of_nat (length bs).
Proof.
  unfold bytesValue.
  induction bs as [|b bs IH]; intros acc Hr.
  - simpl. lia.
  - inversion Hr as [|? ? Hb Hr']; subst. unfold isByte in Hb.
    cbn [fold_left length].
    destruct (IH (Z.lor (Z.shiftl acc 8) b) Hr') as [-> _].
    destruct (IH (Z.lor (Z.shiftl 0 8) b) Hr') as [-> Hbound].
    rewrite !lor_shiftl_byte by done.
    rewrite Nat2Z.inj_succ, Z.pow_succ_r by lia.
    split; [ring|]. nia.
Qed.

Lemma random_bytes env n w :
  Forall isByte (map (fun i => random env i mod 256) (seq (cursor w) n)).
Proof.
  apply Forall_map, Forall_forall. intros i _. unfold isByte. simpl.
  apply Z.mod_pos_bound. lia.
Qed.

Lemma maskFirst_bytes bs : Forall isByte bs -> Forall isByte (maskFirst bs).
Proof.
  intros H. destruct H as [|b bs Hb Hbs]; [done|]. simpl. constructor; [|done].
  unfold isByte in *. change 15 with (Z.ones 4). rewrite Z.land_ones by lia.
  pose proof (Z.mod_pos_bound b (2 ^ 4) ltac:(lia)). lia.
Qed.

Lemma length_maskFirst bs : length (maskFirst bs) = length bs.
Proof. by destruct bs. Qed.

(** Thirty-two bytes with a masked first byte stay below [2 ^ 252]. *)
Lemma masked_bound bs :
  Forall isByte bs -> length bs = 32%nat ->
  0 <= bytesValue (maskFirst bs) < 2 ^ 252.
Proof.
  intros Hr Hlen. destruct Hr as [|b bs Hb Hbs]; [done|].
  simpl in Hlen. injection Hlen as Hlen.
  unfold maskFirst, bytesValue. cbn [fold_left].
  destruct (bytesFold bs (Z.lor (Z.shiftl 0 8) (Z.land b 15)) Hbs) as [-> Hbound].
  rewrite Hlen in *.
  assert (0 <= Z.land b 15 < 16) as Hm.
  { change 15 with (Z.ones 4). rewrite Z.land_ones by lia.
    apply (Z.mod_pos_bound b (2 ^ 4)). lia. }
  rewrite lor_shiftl_byte by lia.
  change (256 ^ Z.of_nat 31) with (2 ^ 248) in *.
  change (2 ^ 252) with (16 * 2 ^ 248). nia.
Qed.

Lemma chars_concat l : chars (String.concat "" l) = flat_map chars l.
Proof.
  induction l as [|s l IH]; [done|].
  destruct l as [|t l].
  - simpl. by rewrite app_nil_r.
  - change (String.concat "" (s :: t :: l))
      with (String.append s (String.append "" (String.concat "" (t :: l)))).
    rewrite chars_append. change (String.append "" ?x) with x.
    by rewrite IH.
Qed.

Lemma chars_hex2 b : isByte b -> chars (hex2 b) = map digitChar (fixed 2 b).
Proof. intros Hb. unfold hex2. apply chars_toString16; [lia | done]. Qed.

Lemma chars_hex_bytes bs :
  Forall isByte bs ->
  flat_map chars (map hex2 bs) = map digitChar (flat_map (fixed 2) bs).
Proof.
  induction 1 as [|b bs Hb _ IH]; [done|].
  cbn [map flat_map]. rewrite (map_app digitChar), IH, (chars_hex2 b Hb). reflexivity.
Qed.

Lemma digits_of_bytes bs : forall acc,
  Forall isByte bs ->
  fold_left (fun a d => a * 16 + d) (flat_map (fixed 2) bs) acc =
  fold_left (fun v b => Z.lor (Z.shiftl v 8) b) bs acc.
Proof.
  induction bs as [|b bs IH]; intros acc Hr; [done|].
  inversion Hr as [|? ? Hb Hr']; subst. unfold isByte in Hb.
  cbn [flat_map]. rewrite fold_left_app. cbn [fold_left fixed].
  rewrite IH by done. f_equal.
  rewrite lor_shiftl_byte by done.
  change (16 ^ Z.of_nat 1) with 16. change (16 ^ Z.of_nat 0) with 1.
  rewrite Z.div_1_r. rewrite (Z.mod_small (b / 16)).
  - pose proof (Z.div_mod b 16 ltac:(lia)). lia.
  - split; [apply Z.div_pos; lia | apply Z.div_lt_upper_bound; lia].
Qed.

Lemma flat_fixed_range bs : Forall (fun d => 0 <= d < 16) (flat_map (fixed 2) bs).
Proof.
  induction bs as [|b bs IH]; [done|]. cbn [flat_map].
  apply Forall_app. split; [apply fixed_range | done].
Qed.

(** [BigInt("0x" + digits)] for any non-empty run of hexadecimal digits. *)
Lemma BigInt_0x_digits ds :
  ds <> [] -> Forall (fun d => 0 <= d < 16) ds ->
  BigInt (JString (String.append "0x" (ofChars (map digitChar ds)))) = Ok (valueOf ds).
Proof.
  intros Hne Hr. destruct (fold_digits ds 0 Hr) as [_ Hb].
  rewrite <- (fixed_valueOf ds Hr) at 1.
  apply BigInt_0x_fixed; [|done]. destruct ds; [done | simpl; lia].
Qed.

(** The nonce read from bytes is their big-endian value after masking. *)
Lemma nonceOfBytes_spec bs :
  bs <> [] -> Forall isByte bs -> nonceOfBytes bs = Ok (bytesValue (maskFirst bs)).
Proof.
  intros Hne Hr. unfold nonceOfBytes.
  pose proof (maskFirst_bytes bs Hr) as Hm.
  rewrite <- (ofChars_chars (String.concat "" _)).
  rewrite chars_concat, chars_hex_bytes by done.
  rewrite BigInt_0x_digits.
  - unfold valueOf. by rewrite digits_of_bytes.
  - destruct bs as [|b bs]; [done|]. simpl. discriminate.
  - apply flat_fixed_range.
Qed.

Lemma FIELD_SIZE_above_252 : 2 ^ 252 < FIELD_SIZE.
Proof. reflexivity. Qed.

(** The nonce generator never throws: it draws 32 bytes and returns
    their big-endian value with the top four bits cleared, a number below
    [2 ^ 252] and so below [FIELD_SIZE]; [FieldElement.random] on the
    same bytes is the element with that value, without any reduction. *)
Theorem generateNonce_below_field (env : Env) (w : World) :
  let bytes := map (fun i => random env i mod 256) (seq (cursor w) 32) in
  let n := bytesValue (maskFirst bytes) in
  generateNonce env w = (Ok n, draw 32 w) /\
  FieldElement_random env w = (Ok (mkFE n), draw 32 w) /\
  0 <= n < 2 ^ 252 /\ n < FIELD_SIZE.
Proof.
  intros bytes n. pose proof (random_bytes env 32 w) as Hr. fold bytes in Hr.
  assert (length bytes = 32%nat) as Hlen by (unfold bytes; by rewrite length_map, length_seq).
  pose proof (masked_bound bytes Hr Hlen) as Hn. fold n in Hn.
  pose proof FIELD_SIZE_above_252 as Hp.
  split; [|split; [|split; [done | lia]]].
  - unfold generateNonce, getRandomValues. runM. fold bytes.
    rewrite nonceOfBytes_spec; [reflexivity | | done].
    intros E. rewrite E in Hlen. discriminate.
  - unfold FieldElement_random, getRandomValues. runM. fold bytes.
    unfold fromBytes. rewrite new_FieldElement_bigint. fold n.
    rewrite Z.mod_small by lia. reflexivity.
Qed.

(** A commitment made with a BigInt salt is
    [toHex(hashValue(value) + salt)], its recorded salt is the decimal
    print of the salt, and [verifyCommitment] accepts the commitment with
    the salt given as that string or as the BigInt; nothing is drawn from
    the random source. *)
Theorem verifyCommitment_accepts_created (env : Env) (v : hashable) (salt : Z) (w : World) :
  exists c,
    createCommitment env v (Some (JBigInt salt)) w = (Ok c, w) /\
    c_commitment c =
      toHex (mkFE ((fold_left (fun h b => h * 31 + b) (bytesOf v) 1 + salt) mod FIELD_SIZE)) /\
    c_salt c = toStringRadix 10 salt /\
    verifyCommitment env (c_commitment c) v (JString (c_salt c)) w = (Ok true, w) /\
    verifyCommitment env (c_commitment c) v (JBigInt salt) w = (Ok true, w).
Proof.
  pose proof FIELD_SIZE_pos as Hp.
  assert (createCommitment env v (Some (JBigInt salt)) w =
            (Ok (mkCommitmentRecord
                   (toHex (mkFE ((fold_left (fun h b => h * 31 + b) (bytesOf v) 1 + salt)
                                   mod FIELD_SIZE)))
                   (toStringRadix 10 salt) v), w)) as Hc.
  { unfold createCommitment. runM. rewrite hashValue_spec, new_FieldElement_bigint.
    rewrite add_spec by (cbn [value]; apply mod_nonneg). cbn [value saltToString].
    by rewrite <- Z.add_mod by lia. }
  eexists. split; [exact Hc|]. cbn [c_commitment c_salt].
  split; [done|]. split; [done|].
  split; unfold verifyCommitment; runM.
  - rewrite BigInt_toString10, Hc. cbn [c_commitment]. by rewrite String.eqb_refl.
  - cbn [BigInt]. rewrite Hc. cbn [c_commitment]. by rewrite String.eqb_refl.
Qed.

(** *** The Merkle commitment *)

Lemma nextLevel_spec n : forall tree,
  (length tree <= n)%nat -> Forall reduced tree ->
  exists l, nextLevel tree = Ok l /\ Forall reduced l /\
            total l mod FIELD_SIZE = total tree mod FIELD_SIZE /\
            (length l + length l <= S (length tree))%nat /\
            (tree <> [] -> l <> []).
Proof.
  pose proof FIELD_SIZE_pos as Hp.
  induction n as [|n IH]; intros tree Hlen Hr.
  - destruct tree; [|simpl in Hlen; lia]. exists []. simpl. repeat split; try done; lia.
  - destruct tree as [|a [|b rest]].
    + exists []. simpl. repeat split; try done; lia.
    + exists [a]. simpl. repeat split; try done; lia.
    + inversion Hr as [|? ? Ha Hr1]; subst. inversion Hr1 as [|? ? Hb Hr2]; subst.
      unfold reduced in Ha, Hb.
      destruct (IH rest) as (l & Hl & Hrl & Hsum & Hlenl & _);
        [simpl in Hlen; lia | done |].
      exists (mkFE ((value a + value b) mod FIELD_SIZE) :: l).
      cbn [nextLevel]. rewrite add_spec by lia. rbind. rewrite Hl. rbind.
      split; [done|]. split.
      { constructor; [|done]. unfold reduced. cbn [value]. apply Z.mod_pos_bound. lia. }
      split.
      { unfold total in *. cbn [map fold_right value].
        rewrite Z.add_mod_idemp_l by lia.
        rewrite <- Z.add_mod_idemp_r, Hsum, Z.add_mod_idemp_r by lia.
        f_equal. lia. }
      split; [simpl; lia | done].
Qed.

Lemma merkleLoop_spec passes : forall tree,
  tree <> [] -> (length tree <= S passes)%nat -> Forall reduced tree ->
  exists root, merkleLoop passes tree = Ok [root] /\ reduced root /\
               value root = total tree mod FIELD_SIZE.
Proof.
  pose proof FIELD_SIZE_pos as Hp.
  induction passes as [|passes IH]; intros tree Hne Hlen Hr.
  - destruct tree as [|a [|b rest]]; [done | | simpl in Hlen; lia].
    exists a. inversion Hr as [|? ? Ha _]; subst. unfold reduced in Ha.
    split; [done|]. split; [done|].
    unfold total. simpl. rewrite Z.add_0_r. by rewrite Z.mod_small.
  - destruct tree as [|a [|b rest]]; [done | |].
    + exists a. inversion Hr as [|? ? Ha _]; subst. unfold reduced in Ha.
      split; [done|]. split; [done|].
      unfold total. simpl. rewrite Z.add_0_r. by rewrite Z.mod_small.
    + destruct (nextLevel_spec _ (a :: b :: rest) (Nat.le_refl _) Hr)
        as (l & Hl & Hrl & Hsum & Hlenl & Hnel).
      change (merkleLoop (S passes) (a :: b :: rest))
        with (l' ← nextLevel (a :: b :: rest); merkleLoop passes l').
      rewrite Hl. rbind.
      destruct (IH l) as (root & Hroot & Hred & Hval);
        [by apply Hnel | simpl in *; lia | done |].
      exists root. split; [done|]. split; [done|]. by rewrite Hval.
Qed.

Lemma mapNew_bigints zs :
  mapNew (map JBigInt zs) = Ok (map (fun z => mkFE (z mod FIELD_SIZE)) zs).
Proof.
  induction zs as [|z zs IH]; [done|].
  cbn [map mapNew]. rewrite new_FieldElement_bigint. rbind. rewrite IH. reflexivity.
Qed.

Lemma total_bigints zs :
  total (map (fun z => mkFE (z mod FIELD_SIZE)) zs) mod FIELD_SIZE =
  fold_right Z.add 0 zs mod FIELD_SIZE.
Proof.
  pose proof FIELD_SIZE_pos as Hp. unfold total.
  induction zs as [|z zs IH]; [done|].
  cbn [map fold_right value].
  rewrite Z.add_mod_idemp_l by lia.
  rewrite <- Z.add_mod_idemp_r, IH, Z.add_mod_idemp_r by lia. reflexivity.
Qed.

Lemma createMerkleCommitment_spec z zs :
  createMerkleCommitment (map JBigInt (z :: zs)) =
    Ok (toHex (mkFE (fold_right Z.add 0 (z :: zs) mod FIELD_SIZE))).
Proof.
  pose proof FIELD_SIZE_pos as Hp.
  unfold createMerkleCommitment. cbn [map]. change (JBigInt z :: map JBigInt zs)
    with (map JBigInt (z :: zs)).
  rewrite mapNew_bigints. rbind.
  destruct (merkleLoop_spec (length (map (fun z => mkFE (z mod FIELD_SIZE)) (z :: zs)))
              (map (fun z => mkFE (z mod FIELD_SIZE)) (z :: zs)))
    as (root & -> & _ & Hval); [done | lia | |].
  { apply Forall_map, Forall_forall. intros y _. unfold reduced. cbn [value].
    apply Z.mod_pos_bound. lia. }
  rbind. rewrite total_bigints in Hval. rewrite <- Hval. by destruct root.
Qed.

(** The Merkle commitment of a non-empty array of BigInts is [toHex] of
    their sum modulo [FIELD_SIZE] (the empty array gives ["0"]): the loop
    combines neighbours by field addition, so the result does not depend
    on the order of the leaves. *)
Theorem createMerkleCommitment_is_sum (zs zs' : list Z) :
  createMerkleCommitment [] = Ok "0"%string /\
  (zs <> [] ->
     createMerkleCommitment (map JBigInt zs) =
       Ok (toHex (mkFE (fold_right Z.add 0 zs mod FIELD_SIZE)))) /\
  (Permutation zs zs' ->
     createMerkleCommitment (map JBigInt zs') = createMerkleCommitment (map JBigInt zs)).
Proof.
  split; [done|].
  assert (forall l, l <> [] -> createMerkleCommitment (map JBigInt l) =
            Ok (toHex (mkFE (fold_right Z.add 0 l mod FIELD_SIZE)))) as Hspec.
  { intros [|z l] Hne; [done|]. apply createMerkleCommitment_spec. }
  split; [apply Hspec|].
  intros Hperm. destruct zs as [|z zs].
  - apply Permutation_nil in Hperm. by subst.
  - assert (zs' <> []) as Hne'.
    { intros ->. symmetry in Hperm. by apply Permutation_nil in Hperm. }
    rewrite !Hspec by done. do 4 f_equal.
    clear Hne'. induction Hperm; simpl; lia.
Qed.

Lemma generateNonce_run env w :
  generateNonce env w =
    (Ok (bytesValue (maskFirst (map (fun i => random env i mod 256) (seq (cursor w) 32)))),
     draw 32 w).
Proof.
  unfold generateNonce, getRandomValues. runM.
  rewrite nonceOfBytes_spec; [reflexivity | | apply random_bytes].
  intros E. apply (f_equal (@length _)) in E. rewrite length_map, length_seq in E.
  discriminate.
Qed.

End CommitObjFacts.
(* ===================================================================== *)
(** ** Validating nullifiers *)
(* ===================================================================== *)

Module NullifierFacts.
Import Field Commitment Nullifier NullifierCheck Digits HexFacts CodecFacts DecFacts
  FieldFacts CommitFacts.

Lemma isHexChar_spec c : isHexChar c = true <-> exists d, digitIn 16 c = Some d.
Proof.
  unfold isHexChar. destruct (digitIn 16 c) as [d|]; split; try done.
  - intros _. by exists d.
  - by intros [d ?].
Qed.

Lemma forallb_isHexChar cs :
  forallb isHexChar cs = true <-> exists ds, hexDigits cs = Some ds.
Proof.
  induction cs as [|c cs IH]; simpl.
  - split; [by exists [] | done].
  - rewrite andb_true_iff, IH, isHexChar_spec. split.
    + intros [[d ->] [ds ->]]. by exists (d :: ds).
    + intros [ds H]. destruct (digitIn 16 c) as [d|]; [|done].
      destruct (hexDigits cs) as [ds'|]; [|done]. split; [by exists d | by exists ds'].
Qed.

Lemma readDigits_of_hexDigits cs : forall ds acc,
  hexDigits cs = Some ds ->
  readDigits 16 acc cs = Some (fold_left (fun a d => a * 16 + d) ds acc).
Proof.
  induction cs as [|c cs IH]; intros ds acc H; simpl in *.
  - by injection H as <-.
  - destruct (digitIn 16 c) as [d|]; [|done].
    destruct (hexDigits cs) as [ds'|]; [|done]. injection H as <-.
    cbn [fold_left]. by apply IH.
Qed.

Lemma nospace_hexDigits cs ds :
  hexDigits cs = Some ds -> Forall (fun c => isSpace c = false) cs.
Proof.
  revert ds. induction cs as [|c cs IH]; intros ds H; [done|]. simpl in H.
  destruct (digitIn 16 c) as [d|] eqn:Hd; [|done].
  destruct (hexDigits cs) as [ds'|]; [|done].
  constructor; [by destruct (digitIn_plain _ _ Hd) | by eapply IH].
Qed.

(** [BigInt("0x" + digits)] for hexadecimal digits in either case. *)
Lemma BigInt_0x_hex cs v :
  cs <> [] -> readDigits 16 0 cs = Some v ->
  BigInt (JString (String.append "0x" (ofChars cs))) = Ok v.
Proof.
  intros Hne Hread. destruct (readDigits_hexDigits _ _ _ Hread) as (ds & Hds & _).
  unfold BigInt, stringToBigInt. rewrite chars_append, chars_ofChars.
  change (chars "0x") with ["0"%char; "x"%char]. cbn [app].
  rewrite trimChars_nospace
    by (constructor; [done|]; constructor; [done|]; by eapply nospace_hexDigits).
  change (isChar "0" 45) with false. change (isChar "0" 43) with false. cbn iota.
  unfold unsignedLiteral.
  change (isChar "0" 48 && (isChar "x" 120 || isChar "x" 88)) with true. cbn iota.
  rewrite Hread. by destruct cs.
Qed.

Lemma isChar_eq c n : (0 <= n < 256) -> isChar c n = true -> c = ascii_of_N (Z.to_N n).
Proof.
  intros Hn H. unfold isChar, code in H. apply Z.eqb_eq in H.
  rewrite <- H, N2Z.id. symmetry. apply ascii_N_embedding.
Qed.

Lemma matchesNullifierPattern_spec s :
  matchesNullifierPattern s = true <->
  exists cs ds, s = String.append "0x" (ofChars cs) /\ length cs = 64%nat /\
                hexDigits cs = Some ds.
Proof.
  unfold matchesNullifierPattern. split.
  - destruct (chars s) as [|z [|x cs]] eqn:E; [done..|].
    rewrite !andb_true_iff. intros [[[Hz Hx] Hlen] Hhex].
    apply (isChar_eq z 48 ltac:(lia)) in Hz. apply (isChar_eq x 120 ltac:(lia)) in Hx.
    apply Nat.eqb_eq in Hlen. apply forallb_isHexChar in Hhex as [ds Hds].
    exists cs, ds. split; [|done].
    rewrite <- (ofChars_chars s), E. subst z x. reflexivity.
  - intros (cs & ds & -> & Hlen & Hds).
    rewrite chars_append, chars_ofChars.
    change (chars "0x") with ["0"%char; "x"%char]. cbn [app].
    rewrite Hlen. change (isChar "0" 48 && isChar "x" 120 && (64 =? 64)%nat) with true.
    cbn [andb]. apply forallb_isHexChar. by exists ds.
Qed.

Lemma validateNullifier_shape cs v :
  length cs = 64%nat -> readDigits 16 0 cs = Some v ->
  validateNullifier (String.append "0x" (ofChars cs)) =
    if FIELD_SIZE <=? v then Throw (Error "Nullifier exceeds field size") else Ok true.
Proof.
  intros Hlen Hread. destruct (readDigits_hexDigits _ _ _ Hread) as (ds & Hds & _).
  unfold validateNullifier. rewrite startsWith_0x_append. cbn [negb].
  assert (String.length (String.append "0x" (ofChars cs)) = 66%nat) as ->.
  { rewrite <- length_chars, chars_append, chars_ofChars, length_app, Hlen. reflexivity. }
  cbn [Nat.eqb negb].
  assert (matchesNullifierPattern (String.append "0x" (ofChars cs)) = true) as ->.
  { apply matchesNullifierPattern_spec. by exists cs, ds. }
  cbn [negb]. rewrite (BigInt_0x_hex cs v); [done | | done].
  intros ->. discriminate.
Qed.

(** [validateNullifier] returns [true] exactly on ["0x"] followed by 64
    hexadecimal digits (either letter case) that denote a number below
    [FIELD_SIZE]; so it accepts [toHex] of every field element, and with
    it every nullifier [generateOrderNullifier] returns. *)
Theorem validateNullifier_accepts (s : string) :
  (validateNullifier s = Ok true <->
     exists cs v, s = String.append "0x" (ofChars cs) /\ length cs = 64%nat /\
                  readDigits 16 0 cs = Some v /\ v < FIELD_SIZE) /\
  (forall x, 0 <= value x < FIELD_SIZE -> validateNullifier (toHex x) = Ok true) /\
  (forall privateKey orderCommitment nonce,
     generateOrderNullifier privateKey orderCommitment nonce = Ok s ->
     validateNullifier s = Ok true).
Proof.
  assert (forall x, 0 <= value x < FIELD_SIZE -> validateNullifier (toHex x) = Ok true)
    as HtoHex.
  { intros x Hx. pose proof FIELD_SIZE_uint256 as Hp.
    rewrite (toHex_digits x Hx).
    rewrite (validateNullifier_shape _ (value x));
      [|by rewrite length_map, length_fixed | apply readDigits_fixed; lia].
    destruct (Z.leb_spec FIELD_SIZE (value x)); [lia | done]. }
  split; [|split; [exact HtoHex|]].
  - split.
    + intros H. unfold validateNullifier in H.
      destruct (startsWith s "0x"); [|done]. cbn [negb] in H.
      destruct (String.length s =? 66)%nat; [|done]. cbn [negb] in H.
      destruct (matchesNullifierPattern s) eqn:Hm; [|done]. cbn [negb] in H.
      apply matchesNullifierPattern_spec in Hm as (cs & ds & -> & Hlen & Hds).
      pose proof (readDigits_of_hexDigits cs ds 0 Hds) as Hread.
      rewrite (BigInt_0x_hex cs _ ltac:(intros ->; discriminate) Hread) in H.
      cbn [mbind result_bind Js.bind] in H.
      destruct (Z.leb_spec FIELD_SIZE (fold_left (fun a d => a * 16 + d) ds 0)); [done|].
      eauto 10.
    + intros (cs & v & -> & Hlen & Hread & Hv).
      rewrite (validateNullifier_shape cs v Hlen Hread).
      destruct (Z.leb_spec FIELD_SIZE v); [lia | done].
  - intros privateKey orderCommitment nonce H. unfold generateOrderNullifier in H.
    repeat bind_ok H. apply Ok_inj in H. subst s.
    apply HtoHex. cbn [value]. apply reduce_range.
Qed.

Lemma existsb_eqb x seen : existsb (String.eqb x) seen = true <-> List.In x seen.
Proof.
  rewrite existsb_exists. split.
  - intros (y & Hy & He). apply String.eqb_eq in He. by subst.
  - intros H. exists x. split; [done | apply String.eqb_refl].
Qed.

(** The size of the set built from [l] on top of [seen]. *)
Lemma distinct_spec l : forall seen,
  (distinct seen l <= length seen + length l)%nat /\
  (distinct seen l = (length seen + length l)%nat <->
     List.NoDup l /\ forall x, List.In x l -> ~ List.In x seen).
Proof.
  induction l as [|x l IH]; intros seen.
  - simpl. split; [lia|]. split; [intros _; split; [constructor | done] | lia].
  - cbn [distinct length]. destruct (existsb (String.eqb x) seen) eqn:E.
    + apply existsb_eqb in E. destruct (IH seen) as [Hle _]. split; [lia|].
      split; [lia|]. intros [_ H]. exfalso. apply (H x); [by left | done].
    + assert (~ List.In x seen) as Hx.
      { intros H. apply existsb_eqb in H. congruence. }
      destruct (IH (x :: seen)) as [Hle Hiff]. cbn [length] in *. split; [lia|].
      replace (length seen + S (length l))%nat with (S (length seen) + length l)%nat by lia.
      rewrite Hiff, List.NoDup_cons_iff. split.
      * intros [Hnd H]. split; [split; [|done]|].
        -- intros Hin. apply (H x Hin). by left.
        -- intros y [<-|Hy]; [done|]. intros Hs. apply (H y Hy). by right.
      * intros [[Hnx Hnd] H]. split; [done|].
        intros y Hy [<-|Hs]; [done|]. apply (H y); [by right | done].
Qed.

Lemma validateNullifier_true s b : validateNullifier s = Ok b -> b = true.
Proof.
  unfold validateNullifier. intros H.
  destruct (negb (startsWith s "0x")); [done|].
  destruct (negb (String.length s =? 66)%nat); [done|].
  destruct (negb (matchesNullifierPattern s)); [done|].
  destruct (BigInt (JString s)) as [v|]; [|done]. cbn [mbind result_bind Js.bind] in H.
  destruct (FIELD_SIZE <=? v); [done|]. by injection H as <-.
Qed.

Lemma collectErrors_nil l : forall i,
  collectErrors i l = [] <-> Forall (fun n => validateNullifier n = Ok true) l.
Proof.
  induction l as [|n l IH]; intros i; cbn [collectErrors].
  - split; [done | done].
  - destruct (validateNullifier n) as [b|e] eqn:E.
    + apply validateNullifier_true in E as Hb. subst b. rewrite IH. split.
      * intros H. by constructor.
      * intros H. by inversion H.
    + split; [done|]. intros H. inversion H; congruence.
Qed.

(** [validateNullifiers] returns [true] exactly when every entry passes
    [validateNullifier] and no entry occurs twice; an invalid entry is
    reported before duplicates are looked for. *)
Theorem validateNullifiers_accepts (nullifiers : list string) :
  (validateNullifiers nullifiers = Ok true <->
     Forall (fun n => validateNullifier n = Ok true) nullifiers /\ List.NoDup nullifiers) /\
  (Forall (fun n => validateNullifier n = Ok true) nullifiers ->
   ~ List.NoDup nullifiers ->
     validateNullifiers nullifiers = Throw (Error "Duplicate nullifiers detected")) /\
  (~ Forall (fun n => validateNullifier n = Ok true) nullifiers ->
     exists msg, validateNullifiers nullifiers =
                   Throw (Error (String.append "Invalid nullifiers: " msg))).
Proof.
  pose proof (collectErrors_nil nullifiers 0) as Hc.
  pose proof (distinct_spec nullifiers []) as [_ Hd]. cbn [length Nat.add] in Hd.
  assert (distinct [] nullifiers = length nullifiers <-> List.NoDup nullifiers) as Hd'.
  { rewrite Hd. split; [by intros [? _] | intros H; split; [done|]]. intros x _ []. }
  unfold validateNullifiers.
  destruct (collectErrors 0 nullifiers) as [|e errors].
  - assert (Forall (fun n => validateNullifier n = Ok true) nullifiers) as Hall by by apply Hc.
    destruct (Nat.eqb_spec (distinct [] nullifiers) (length nullifiers)) as [He|He];
      cbn [negb].
    + apply Hd' in He. split; [split; [done|done]|]. split; [done|]. by intros H.
    + split; [split; [done|]|].
      * intros [_ Hnd]. by apply Hd' in Hnd.
      * split; [done|]. by intros H.
  - assert (~ Forall (fun n => validateNullifier n = Ok true) nullifiers) as Hnot.
    { intros H. by apply Hc in H. }
    split; [split; [done | by intros [? _]]|].
    split; [by intros H | intros _; eauto].
Qed.

End NullifierFacts.
(* ===================================================================== *)
(** ** Retrying with backoff *)
(* ===================================================================== *)

Module RetryFacts.
Import Retry Traces Examples MFacts.

Lemma sleeps_tick_sleep ms w : sleeps (trace (tick (Sleep ms) w)) = sleeps (trace w) ++ [ms].
Proof. unfold sleeps. cbn [tick trace]. by rewrite omap_app. Qed.

Section Loop.

Context {A : Type}.
Variable env : Env.
Variable fn : M A.
Variable shouldRetry : JsError -> bool.

(** The attempts leave the timers alone, and timers fire. *)
Hypothesis fn_quiet : forall w, sleeps (trace (snd (fn w))) = sleeps (trace w).
Hypothesis timers_fire : forall t ms, respond env unit t (Sleep ms) = Ok tt.

(** What a run of the loop with [k] retries left comes to: it slept for an
    initial part of the schedule, its outcome is the outcome of its last
    attempt, and it gave up before the schedule was through only on an
    error that is not to be retried. *)
Definition loop_outcome (k : nat) (delay : Z) (w : World) (out : result A * World) : Prop :=
  exists j : nat,
    (j <= k)%nat /\
    sleeps (trace (snd out)) = sleeps (trace w) ++ firstn j (schedule k delay) /\
    (exists w0, fn w0 = out) /\
    match fst out with
    | Ok _ => True
    | Throw e => j = k \/ shouldRetry e = false
    end.

Lemma retryLoop_outcome k : forall i delay w,
  loop_outcome k delay w (retryLoop env k i delay fn shouldRetry noOnRetry w).
Proof.
  induction k as [|k IH]; intros i delay w.
  - cbn [retryLoop]. runM. pose proof (fn_quiet w) as Hq.
    destruct (fn w) as [[a|e] w1] eqn:E; exists 0%nat; cbn [fst snd] in *;
      rewrite app_nil_r; (split; [lia|]); (split; [done|]); (split; [by exists w|]).
    + done.
    + by left.
  - cbn [retryLoop]. runM. pose proof (fn_quiet w) as Hq.
    destruct (fn w) as [[a|e] w1] eqn:E; cbn [fst snd] in *.
    + exists 0%nat. cbn [firstn fst snd]. rewrite app_nil_r.
      split; [lia|]. split; [done|]. split; [by exists w | done].
    + destruct (shouldRetry e) eqn:Hs; cbn [negb].
      * destruct (IH (i + 1) (Z.min (delay * backoffFactor) maxDelay)
                     (tick (Sleep delay) w1)) as (j & Hj & Hsl & Hlast & Hend).
        set (next := retryLoop env k (i + 1) (Z.min (delay * backoffFactor) maxDelay)
                       fn shouldRetry noOnRetry) in *.
        unfold noOnRetry, perform. runM. rewrite timers_fire. cbn beta iota.
        exists (S j). split; [lia|]. split; [|split; [done|]].
        -- rewrite Hsl, sleeps_tick_sleep, Hq. cbn [schedule firstn].
           by rewrite <- app_assoc.
        -- destruct (fst (next (tick (Sleep delay) w1)));
             [done|]. destruct Hend as [->|]; [by left | by right].
      * exists 0%nat. cbn [firstn fst snd]. rewrite app_nil_r.
        split; [lia|]. split; [done|]. split; [by exists w | by right].
Qed.

End Loop.

(** [withRetry] with the default options, on a function that does not
    itself set timers: the run sleeps for an initial part of 1000, 2000,
    4000 milliseconds (so it makes at most four attempts), what it
    returns or throws is what its last attempt returned or threw, and it
    throws after fewer than three retries only when [shouldRetry] refuses
    the error. *)
Theorem withRetry_backoff {A : Type} (env : Env) (fn : M A) (shouldRetry : JsError -> bool)
    (w : World) :
  (forall w0, sleeps (trace (snd (fn w0))) = sleeps (trace w0)) ->
  (forall t ms, respond env unit t (Sleep ms) = Ok tt) ->
  exists j : nat,
    (j <= 3)%nat /\
    sleeps (trace (snd (withRetry env fn shouldRetry noOnRetry w))) =
      sleeps (trace w) ++ firstn j [1000; 2000; 4000] /\
    (exists w0, fn w0 = withRetry env fn shouldRetry noOnRetry w) /\
    match fst (withRetry env fn shouldRetry noOnRetry w) with
    | Ok _ => True
    | Throw e => j = 3%nat \/ shouldRetry e = false
    end.
Proof.
  intros Hq Ht. exact (retryLoop_outcome env fn shouldRetry Hq Ht 3 0 initialDelay w).
Qed.

(** The theorem at a balance query against a ledger that always answers:
    one attempt, no timer. *)
Lemma withRetry_backoff_witness :
  exists j : nat,
    (j <= 3)%nat /\
    sleeps (trace (snd (withRetry (envWith 0 []) (perform (envWith 0 []) (Balances address1))
                          isRetryableError noOnRetry world1))) =
      sleeps (trace world1) ++ firstn j [1000; 2000; 4000] /\
    (exists w0, perform (envWith 0 []) (Balances address1) w0 =
                withRetry (envWith 0 []) (perform (envWith 0 []) (Balances address1))
                  isRetryableError noOnRetry world1) /\
    match fst (withRetry (envWith 0 []) (perform (envWith 0 []) (Balances address1))
                 isRetryableError noOnRetry world1) with
    | Ok _ => True
    | Throw e => j = 3%nat \/ isRetryableError e = false
    end.
Proof.
  apply (withRetry_backoff (envWith 0 []) (perform (envWith 0 []) (Balances address1))
           isRetryableError world1).
  - intros w0. unfold sleeps. cbn [perform snd tick trace]. rewrite omap_app. simpl.
    by rewrite app_nil_r.
  - reflexivity.
Defined.

End RetryFacts.
(* ===================================================================== *)
(** ** What the orchestrators leave alone *)
(* ===================================================================== *)

Module FrameFacts.
Import Retry Traces MFacts.

Section Preserve.

Context {B : Type}.
Variable proj : World -> B.

Lemma preserves_ret {A} (a : A) : preserves proj (ret a).
Proof. by intros w. Qed.

Lemma preserves_lift {A} (r : result A) : preserves proj (lift r).
Proof. by intros w. Qed.

Lemma preserves_throw {A} e : preserves proj (@throw A e).
Proof. by intros w. Qed.

Lemma preserves_get : preserves proj get.
Proof. by intros w. Qed.

Lemma preserves_bindM {A C} (m : M A) (k : A -> M C) :
  preserves proj m -> (forall a, preserves proj (k a)) -> preserves proj (bindM m k).
Proof.
  intros Hm Hk w. unfold bindM. specialize (Hm w).
  destruct (m w) as [[a|e] w1]; cbn [snd] in *; [|done].
  by rewrite Hk.
Qed.

Lemma preserves_mbind {A C} (m : M A) (k : A -> M C) :
  preserves proj m -> (forall a, preserves proj (k a)) -> preserves proj (mbind k m).
Proof. apply preserves_bindM. Qed.

Lemma preserves_tryCatch {A} (m : M A) (h : JsError -> M A) :
  preserves proj m -> (forall e, preserves proj (h e)) -> preserves proj (tryCatch m h).
Proof.
  intros Hm Hh w. unfold tryCatch. specialize (Hm w).
  destruct (m w) as [[a|e] w1]; cbn [snd] in *; [done|].
  by rewrite Hh.
Qed.

Lemma preserves_modify (f : World -> World) :
  (forall w, proj (f w) = proj w) -> preserves proj (modify f).
Proof. intros Hf w. apply Hf. Qed.

Lemma preserves_perform env {A} (c : call A) :
  (forall w, proj (tick c w) = proj w) -> preserves proj (perform env c).
Proof. intros Hc w. apply Hc. Qed.

Lemma preserves_getRandomValues env n :
  (forall w, proj (draw n w) = proj w) -> preserves proj (getRandomValues env n).
Proof. intros Hd w. apply Hd. Qed.

Lemma preserves_retryLoop env {A} (fn : M A) shouldRetry k :
  preserves proj fn -> (forall ms w, proj (tick (Sleep ms) w) = proj w) ->
  forall i delay, preserves proj (retryLoop env k i delay fn shouldRetry noOnRetry).
Proof.
  intros Hfn Hs. induction k as [|k IH]; intros i delay; cbn [retryLoop].
  - apply preserves_tryCatch; [done|]. intros e. apply preserves_throw.
  - apply preserves_tryCatch; [done|]. intros e.
    destruct (negb (shouldRetry e)); [apply preserves_throw|].
    apply preserves_mbind; [apply preserves_ret|]. intros _.
    apply preserves_mbind; [by apply preserves_perform|]. intros _. apply IH.
Qed.

End Preserve.

Lemma always_throws_throw {A} e : always_throws (@throw A e).
Proof. intros w. by exists e. Qed.

Lemma always_throws_bind {A C} (m : M A) (k : A -> M C) :
  (forall a, always_throws (k a)) -> always_throws (mbind k m).
Proof.
  intros Hk w. unfold mbind, M_bind, bindM.
  destruct (m w) as [[a|e] w1]; [apply Hk | by exists e].
Qed.

Lemma always_throws_retryLoop env {A} (fn : M A) shouldRetry k :
  always_throws fn ->
  forall i delay, always_throws (retryLoop env k i delay fn shouldRetry noOnRetry).
Proof.
  intros Hfn. induction k as [|k IH]; intros i delay w; cbn [retryLoop]; unfold tryCatch;
    destruct (Hfn w) as [e He]; destruct (fn w) as [[a|e'] w1]; cbn [fst] in He;
    try discriminate.
  - by exists e'.
  - destruct (negb (shouldRetry e')); [by exists e'|].
    apply always_throws_bind. intros _. apply always_throws_bind. intros _. apply IH.
Qed.

End FrameFacts.
(* ===================================================================== *)
(** ** Submitting an order *)
(* ===================================================================== *)

Module OrderFacts.
Import Field Commitment Nullifier Retry Account Orders Traces FrameFacts MFacts Examples.

(** [isNullifierUsed] makes one query and never throws: it returns what
    the ledger answers, and [false] when the query fails, which is also
    what it returns for a nullifier the ledger reports as unused. *)
Theorem isNullifierUsed_never_throws (env : Env) (nullifier : string) (w : World) :
  (exists b, isNullifierUsed env nullifier w = (Ok b, tick (UsedNullifiers nullifier) w)) /\
  (forall b, respond env bool (clock w) (UsedNullifiers nullifier) = Ok b ->
     isNullifierUsed env nullifier w = (Ok b, tick (UsedNullifiers nullifier) w)) /\
  (forall e, respond env bool (clock w) (UsedNullifiers nullifier) = Throw e ->
     isNullifierUsed env nullifier w = (Ok false, tick (UsedNullifiers nullifier) w)) /\
  (forall env' e,
     respond env bool (clock w) (UsedNullifiers nullifier) = Throw e ->
     respond env' bool (clock w) (UsedNullifiers nullifier) = Ok false ->
     isNullifierUsed env nullifier w = isNullifierUsed env' nullifier w).
Proof.
  unfold isNullifierUsed, perform. runM.
  destruct (respond env bool (clock w) (UsedNullifiers nullifier)) as [b|e] eqn:E.
  - split; [by exists b|]. split; [by intros ? [= ->]|]. split; [done|done].
  - split; [by exists false|]. split; [done|]. split; [done|].
    intros env' e' _ ->. reflexivity.
Qed.

(** Stepping through an orchestrator for a part of the world that its
    calls leave alone. *)
Ltac pres_step side :=
  lazymatch goal with
  | |- preserves _ (if ?b then _ else _) => destruct b
  | |- preserves _ (match ?x with _ => _ end) => destruct x
  | |- preserves _ (let _ := _ in _) => cbv zeta
  | |- preserves _ (mbind _ _) => apply preserves_mbind; [|intros ?]
  | |- preserves _ (bindM _ _) => apply preserves_bindM; [|intros ?]
  | |- preserves _ (tryCatch _ _) => apply preserves_tryCatch; [|intros ?]
  | |- preserves _ (ret _) => apply preserves_ret
  | |- preserves _ (lift _) => apply preserves_lift
  | |- preserves _ (throw _) => apply preserves_throw
  | |- preserves _ get => apply preserves_get
  | |- preserves _ (perform _ _) => apply preserves_perform; intros ?; side
  | |- preserves _ (modify _) => apply preserves_modify; intros ?; side
  | |- preserves _ (getRandomValues _ _) => apply preserves_getRandomValues; intros ?; side
  end.

Ltac pres side := repeat pres_step side.

Section Quiet.

Context {B : Type}.
Variable proj : World -> B.

(** [proj] looks at nothing the attempt changes on its way to the
    encryption step: not at the clock, the cursor or the collision
    counter, and not at the calls made up to there. *)
Hypothesis proj_tick_contract : forall n s w, proj (tick (GetContract n s) w) = proj w.
Hypothesis proj_tick_query : forall n w, proj (tick (UsedNullifiers n) w) = proj w.
Hypothesis proj_tick_length : forall w, proj (tick ActiveKeeperListLength w) = proj w.
Hypothesis proj_tick_list : forall i w, proj (tick (ActiveKeeperList i) w) = proj w.
Hypothesis proj_tick_keeper : forall a w, proj (tick (Keepers a) w) = proj w.
Hypothesis proj_tick_sleep : forall ms w, proj (tick (Sleep ms) w) = proj w.
Hypothesis proj_draw : forall n w, proj (draw n w) = proj w.
Hypothesis proj_collision : forall w, proj (countCollision w) = proj w.

Lemma preserves_performAll env (cs : list Z) :
  preserves proj (performAll env (map ActiveKeeperList cs)).
Proof.
  induction cs as [|c cs IH]; cbn [map performAll]; [apply preserves_ret|].
  pres ltac:(auto); apply IH.
Qed.

Lemma preserves_foldKeepers env addresses : forall st,
  preserves proj (foldKeepers env st addresses).
Proof.
  induction addresses as [|a addresses IH]; intros st; cbn [foldKeepers];
    [apply preserves_ret|].
  apply preserves_mbind; [|intros st'; apply IH].
  unfold considerKeeper. pres ltac:(auto).
Qed.

Lemma preserves_getActiveKeeperPublicKey env :
  preserves proj (getActiveKeeperPublicKey env).
Proof.
  unfold getActiveKeeperPublicKey.
  apply preserves_mbind; [apply preserves_perform; auto|]. intros _.
  apply preserves_mbind; [apply preserves_perform; auto|]. intros keeperCount.
  destruct (keeperCount =? 0); [apply preserves_throw|].
  apply preserves_mbind.
  { rewrite <- (map_map Z.of_nat ActiveKeeperList). apply preserves_performAll. }
  intros settled. apply preserves_mbind; [apply preserves_lift|]. intros addresses.
  apply preserves_mbind; [apply preserves_foldKeepers|]. intros st.
  destruct (fst st); [apply preserves_ret | apply preserves_throw].
Qed.

Lemma preserves_submitAttempt env orderParams :
  preserves proj (submitAttempt env orderParams).
Proof.
  unfold submitAttempt, generateNonce, isNullifierUsed, OrderEncryption_encryptOrder.
  do 7 (apply preserves_mbind; [pres ltac:(auto)|]; intros ?).
  match goal with |- preserves _ (if ?b then _ else _) => destruct b end.
  - pres ltac:(auto).
  - apply preserves_mbind; [apply preserves_getActiveKeeperPublicKey|]. intros ?.
    apply preserves_throw.
Qed.

Lemma preserves_submitPrivateOrder env orderParams :
  preserves proj (submitPrivateOrder env orderParams).
Proof.
  unfold submitPrivateOrder, withRetry.
  apply preserves_mbind; [apply preserves_get|]. intros w0.
  destruct (accountCommitment w0); [|apply preserves_throw].
  apply preserves_mbind; [apply preserves_lift|]. intros _.
  apply preserves_retryLoop; [apply preserves_submitAttempt | done].
Qed.

End Quiet.

Lemma submitAttempt_throws env orderParams : always_throws (submitAttempt env orderParams).
Proof.
  unfold submitAttempt, OrderEncryption_encryptOrder.
  do 7 (apply always_throws_bind; intros ?).
  match goal with |- always_throws (if ?b then _ else _) => destruct b end.
  - apply always_throws_bind. intros _. apply always_throws_throw.
  - apply always_throws_bind. intros _. apply always_throws_throw.
Qed.

Lemma submits_tick {A} (c : call A) w :
  submitOf (Called c) = None -> submits (trace (tick c w)) = submits (trace w).
Proof.
  intros H. unfold submits. cbn [tick trace]. rewrite omap_app.
  replace (omap submitOf [Called c]) with (@nil string); [apply app_nil_r|].
  unfold omap. cbn [list_omap]. by rewrite H.
Qed.

(** [submitPrivateOrder] never gets an order to the ledger: whatever the
    ledger answers and whatever the client holds, it throws, no
    [submitOrderPrivate] transaction is sent and the table of pending
    orders stays as it was.  ([OrderEncryption.encryptOrder] is not a
    member of the class, so every attempt that gets that far ends in a
    [TypeError].) *)
Theorem submitPrivateOrder_never_submits (env : Env) (orderParams : OrderParams) (w : World) :
  (exists e, fst (submitPrivateOrder env orderParams w) = Throw e) /\
  submits (trace (snd (submitPrivateOrder env orderParams w))) = submits (trace w) /\
  pendingOrders (snd (submitPrivateOrder env orderParams w)) = pendingOrders w.
Proof.
  split; [|split].
  - unfold submitPrivateOrder, withRetry. runM.
    destruct (accountCommitment w); [|by eexists].
    destruct (validateOrderParams env orderParams) as [[]|e]; [|by exists e].
    apply always_throws_retryLoop, submitAttempt_throws.
  - apply (preserves_submitPrivateOrder (fun w => submits (trace w)));
      intros; try (by apply submits_tick); done.
  - by apply (preserves_submitPrivateOrder pendingOrders).
Qed.

End OrderFacts.
(* ===================================================================== *)
(** ** Revealing an account *)
(* ===================================================================== *)

Module RevealFacts.
Import Field Commitment Retry Account Traces FrameFacts MFacts Examples.

Lemma reveals_tick {A} (c : call A) w :
  reveals (trace (tick c w)) =
    reveals (trace w) ++ match revealOf (Called c) with Some x => [x] | None => [] end.
Proof.
  unfold reveals. cbn [tick trace]. rewrite omap_app. reflexivity.
Qed.

(** Close a goal about the fields of a world reached by calls that are
    no reveal. *)
Ltac settle :=
  cbn [fst snd pendingCommit accountCommitment accountNonce tick setAccount setPendingCommit];
  rewrite ?reveals_tick; cbn [revealOf]; rewrite ?app_nil_r;
  repeat split; eauto.

(** The loop under an invariant that makes every attempt throw. *)
Lemma retryLoop_under (I : World -> Prop) env {A} (fn : M A) shouldRetry :
  (forall w, I w -> I (snd (fn w)) /\ exists e, fst (fn w) = Throw e) ->
  (forall ms w, I w -> I (tick (Sleep ms) w)) ->
  forall k i delay w, I w ->
    I (snd (retryLoop env k i delay fn shouldRetry noOnRetry w)) /\
    exists e, fst (retryLoop env k i delay fn shouldRetry noOnRetry w) = Throw e.
Proof.
  intros Hfn Hsleep. induction k as [|k IH]; intros i delay w Hw; cbn [retryLoop];
    unfold tryCatch; destruct (Hfn w Hw) as [Hw1 [e He]];
    destruct (fn w) as [[a|e'] w1]; cbn [fst snd] in *; try discriminate.
  - split; [done | by exists e'].
  - destruct (negb (shouldRetry e')); [split; [done | by exists e']|].
    unfold noOnRetry, perform. runM.
    destruct (respond env unit (clock w1) (Sleep delay)) as [[]|e2]; cbn beta iota.
    + apply IH. by apply Hsleep.
    + split; [by apply Hsleep | by exists e2].
Qed.

(** The loop under an invariant of the attempts. *)
Lemma retryLoop_invariant (I : World -> Prop) env {A} (fn : M A) shouldRetry :
  (forall w, I w -> I (snd (fn w))) ->
  (forall ms w, I w -> I (tick (Sleep ms) w)) ->
  forall k i delay w, I w -> I (snd (retryLoop env k i delay fn shouldRetry noOnRetry w)).
Proof.
  intros Hfn Hsleep. induction k as [|k IH]; intros i delay w Hw; cbn [retryLoop];
    unfold tryCatch; pose proof (Hfn w Hw) as Hw1;
    destruct (fn w) as [[a|e'] w1]; cbn [fst snd] in *; try done.
  destruct (negb (shouldRetry e')); [done|].
  unfold noOnRetry, perform. runM.
  destruct (respond env unit (clock w1) (Sleep delay)) as [[]|e2]; cbn beta iota.
  - apply IH. by apply Hsleep.
  - by apply Hsleep.
Qed.

(** What an attempt made too early does. *)
Lemma revealAttempt_early env userAddress pc w :
  pendingCommit w = Some pc ->
  (forall t block, respond env Z t GetBlockNumber = Ok block ->
     block - pc_blockNumber pc < COMMIT_REVEAL_DELAY) ->
  (exists e, fst (revealAttempt env userAddress w) = Throw e) /\
  pendingCommit (snd (revealAttempt env userAddress w)) = Some pc /\
  reveals (trace (snd (revealAttempt env userAddress w))) = reveals (trace w) /\
  accountCommitment (snd (revealAttempt env userAddress w)) = accountCommitment w /\
  accountNonce (snd (revealAttempt env userAddress w)) = accountNonce w.
Proof.
  intros Hpc Hearly. unfold revealAttempt, perform. runM.
  destruct (sanitizeAddress env userAddress) as [a|e]; [|by settle].
  destruct (respond env unit (clock w) (GetContract "TradePrivate" true)) as [[]|e];
    cbn beta iota; [|by settle].
  destruct (respond env Z _ GetBlockNumber) as [block|e] eqn:Hblock; cbn beta iota;
    [|by settle].
  cbn [pendingCommit tick]. rewrite Hpc.
  apply Hearly in Hblock.
  destruct (Z.ltb_spec (block - pc_blockNumber pc) COMMIT_REVEAL_DELAY) as [_|]; [|lia].
  by settle.
Qed.

(** The time gate of [revealAccount]. An attempt that finds fewer than
    [COMMIT_REVEAL_DELAY] blocks passed since the commit throws
    ["Must wait N more blocks"] (a plain [Error]) right after reading the
    block number; and as long as every block number the ledger reports
    is within the delay, [revealAccount] with its retries throws, sends
    no reveal transaction and keeps the pending commit and the account
    fields as they were. *)
Theorem revealAccount_time_gate (env : Env) (userAddress : string) (pc : PendingCommit)
    (w : World) :
  pendingCommit w = Some pc ->
  (forall a block,
     sanitizeAddress env userAddress = Ok a ->
     respond env unit (clock w) (GetContract "TradePrivate" true) = Ok tt ->
     respond env Z (S (clock w)) GetBlockNumber = Ok block ->
     block - pc_blockNumber pc < COMMIT_REVEAL_DELAY ->
     revealAttempt env userAddress w =
       (Throw (Error (mustWait (COMMIT_REVEAL_DELAY - (block - pc_blockNumber pc)))),
        tick GetBlockNumber (tick (GetContract "TradePrivate" true) w))) /\
  ((forall t block, respond env Z t GetBlockNumber = Ok block ->
      block - pc_blockNumber pc < COMMIT_REVEAL_DELAY) ->
   (exists e, fst (revealAccount env userAddress w) = Throw e) /\
   reveals (trace (snd (revealAccount env userAddress w))) = reveals (trace w) /\
   pendingCommit (snd (revealAccount env userAddress w)) = Some pc /\
   accountCommitment (snd (revealAccount env userAddress w)) = accountCommitment w /\
   accountNonce (snd (revealAccount env userAddress w)) = accountNonce w).
Proof.
  intros Hpc. split.
  - intros a block Ha Hcontract Hblock Hearly.
    unfold revealAttempt, perform. runM. rewrite Ha, Hcontract. cbn beta iota.
    cbn [clock tick]. rewrite Hblock. cbn beta iota.
    cbn [pendingCommit tick]. rewrite Hpc.
    destruct (Z.ltb_spec (block - pc_blockNumber pc) COMMIT_REVEAL_DELAY) as [_|]; [|lia].
    reflexivity.
  - intros Hearly.
    set (I := fun w' : World =>
                pendingCommit w' = Some pc /\ reveals (trace w') = reveals (trace w) /\
                accountCommitment w' = accountCommitment w /\
                accountNonce w' = accountNonce w).
    assert (I (snd (revealAccount env userAddress w)) /\
            exists e, fst (revealAccount env userAddress w) = Throw e) as [HI He].
    { unfold revealAccount, withRetry. runM. rewrite Hpc.
      apply (retryLoop_under I).
      - intros w' (Hpc' & Hr & Hacc & Hn).
        destruct (revealAttempt_early env userAddress pc w' Hpc' Hearly)
          as (Hthrow & Hpc1 & Hr1 & Hacc1 & Hn1).
        split; [|done]. unfold I. by rewrite Hpc1, Hr1, Hacc1, Hn1.
      - intros ms w' (Hpc' & Hr & Hacc & Hn). unfold I.
        cbn [pendingCommit accountCommitment accountNonce tick].
        by rewrite reveals_tick, app_nil_r.
      - by unfold I. }
    destruct HI as (H1 & H2 & H3 & H4). by repeat split.
Qed.

(** The theorem with a ledger that stays at block 5 and a commit made at
    block 100. *)
Lemma revealAccount_time_gate_witness :
  exists e, fst (revealAccount (envFrozen 5 []) address1 world1) = Throw e.
Proof.
  apply (revealAccount_time_gate (envFrozen 5 []) address1 pending1 world1); [reflexivity|].
  intros t block H. cbn in H. injection H as <-. reflexivity.
Defined.

(** A reveal after the delay, with a ledger that accepts it: the first
    attempt returns, the reveal transaction carries the commitment and
    nonce of the pending commit, the account fields are set from it, the
    pending commit is cleared, and no timer was set. *)
Theorem revealAccount_succeeds (env : Env) (userAddress : string) (pc : PendingCommit)
    (w : World) (a : string) (block balance : Z) (tx : Tx) (receipt : Receipt) :
  pendingCommit w = Some pc ->
  sanitizeAddress env userAddress = Ok a ->
  respond env unit (clock w) (GetContract "TradePrivate" true) = Ok tt ->
  respond env Z (S (clock w)) GetBlockNumber = Ok block ->
  COMMIT_REVEAL_DELAY <= block - pc_blockNumber pc ->
  respond env Z (S (S (clock w))) (Balances a) = Ok balance ->
  respond env Tx (S (S (S (clock w))))
    (RevealTradingAccount (toHex (pc_commitment pc)) (pc_nonce pc) mockProof) = Ok tx ->
  respond env Receipt (S (S (S (S (clock w))))) (Wait tx) = Ok receipt ->
  respond env unit (S (S (S (S (S (clock w))))))
    (SaveAccountInfo (toHex (pc_commitment pc)) (pc_nonce pc)) = Ok tt ->
  respond env unit (S (S (S (S (S (S (clock w))))))) RemovePendingCommit = Ok tt ->
  exists w',
    revealAccount env userAddress w =
      (Ok (mkRevealResult (toHex (pc_commitment pc)) true (hash tx)), w') /\
    accountCommitment w' = Some (pc_commitment pc) /\
    accountNonce w' = Some (pc_nonce pc) /\
    pendingCommit w' = None /\
    reveals (trace w') = reveals (trace w) ++ [(toHex (pc_commitment pc), pc_nonce pc)] /\
    sleeps (trace w') = sleeps (trace w).
Proof.
  intros Hpc Ha H0 H1 Hlate H2 H3 H4 H5 H6.
  unfold revealAccount, withRetry. runM. rewrite Hpc.
  cbn [retryLoop maxRetries]. unfold revealAttempt, perform. runM.
  rewrite Ha, H0. cbn beta iota. cbn [clock tick]. rewrite H1. cbn beta iota.
  cbn [pendingCommit tick]. rewrite Hpc.
  destruct (Z.ltb_spec (block - pc_blockNumber pc) COMMIT_REVEAL_DELAY) as [|_]; [lia|].
  cbn [clock tick]. rewrite H2. cbn beta iota.
  cbn [clock tick]. rewrite H3. cbn beta iota.
  cbn [clock tick]. rewrite H4. cbn beta iota.
  cbn [clock tick setAccount]. rewrite H5. cbn beta iota.
  cbn [clock tick setAccount setPendingCommit]. rewrite H6. cbn beta iota.
  eexists. split; [reflexivity|].
  cbn [accountCommitment accountNonce pendingCommit tick setAccount setPendingCommit trace].
  repeat split.
  - unfold reveals. rewrite !omap_app. cbn. by rewrite !app_nil_r.
  - unfold sleeps. rewrite !omap_app. cbn. by rewrite !app_nil_r.
Qed.

(** The theorem with a ledger at block 1000 and a commit made at block
    100. *)
Lemma revealAccount_succeeds_witness :
  exists w',
    revealAccount (envWith 1000 []) address1 world1 =
      (Ok (mkRevealResult (toHex (mkFE 42)) true "0x0e"), w') /\
    accountCommitment w' = Some (mkFE 42) /\
    accountNonce w' = Some 17 /\
    pendingCommit w' = None /\
    reveals (trace w') = reveals (trace world1) ++ [(toHex (mkFE 42), 17)] /\
    sleeps (trace w') = sleeps (trace world1).
Proof.
  apply (revealAccount_succeeds (envWith 1000 []) address1 pending1 world1 address1
           1001 5 (mkTx "0x0e") (mkReceipt 1004)); try reflexivity.
  unfold COMMIT_REVEAL_DELAY. cbn. lia.
Defined.

(** What an attempt does to the pending commit and the reveals sent. *)
Lemma revealAttempt_reuses env userAddress pc sent w :
  (pendingCommit w = Some pc \/ pendingCommit w = None) ->
  (exists k, reveals (trace w) =
               sent ++ repeat (toHex (pc_commitment pc), pc_nonce pc) k) ->
  (pendingCommit (snd (revealAttempt env userAddress w)) = Some pc \/
   pendingCommit (snd (revealAttempt env userAddress w)) = None) /\
  (exists k, reveals (trace (snd (revealAttempt env userAddress w))) =
               sent ++ repeat (toHex (pc_commitment pc), pc_nonce pc) k) /\
  cursor (snd (revealAttempt env userAddress w)) = cursor w.
Proof.
  intros Hpc [k Hk].
  assert (exists k', sent ++ repeat (toHex (pc_commitment pc), pc_nonce pc) k ++
                       [(toHex (pc_commitment pc), pc_nonce pc)] =
                     sent ++ repeat (toHex (pc_commitment pc), pc_nonce pc) k') as Hmore.
  { exists (S k). by rewrite <- repeat_cons. }
  assert (exists k', sent ++ repeat (toHex (pc_commitment pc), pc_nonce pc) k =
                     sent ++ repeat (toHex (pc_commitment pc), pc_nonce pc) k') as Hsame
    by by exists k.
  unfold revealAttempt, perform. runM.
  repeat
    (cbn beta iota; cbn [clock pendingCommit tick setAccount setPendingCommit];
     lazymatch goal with
     | |- context [match sanitizeAddress ?e ?u with _ => _ end] =>
         destruct (sanitizeAddress e u)
     | |- context [match respond ?e ?T ?t ?c with _ => _ end] =>
         destruct (respond e T t c) as [[]|?]
     | |- context [match pendingCommit w with _ => _ end] =>
         destruct Hpc as [Hpc|Hpc]; rewrite Hpc
     | |- context [if ?b then _ else _] => destruct b
     end).
  all: cbn [fst snd pendingCommit cursor trace tick setAccount setPendingCommit].
  all: unfold reveals in *; rewrite ?omap_app, Hk.
  all: split; [auto|]; split; [|reflexivity].
  all: cbn; rewrite ?app_nil_r, <- ?app_assoc; first [exact Hsame | exact Hmore].
Qed.

(** Retrying a reveal resubmits the same transaction: every reveal that
    [revealAccount] sends, over all its attempts, carries the commitment
    and the nonce of the pending commit it started with, and no random
    byte is drawn. *)
Theorem revealAccount_reuses_commit (env : Env) (userAddress : string) (pc : PendingCommit)
    (w : World) :
  pendingCommit w = Some pc ->
  (exists k, reveals (trace (snd (revealAccount env userAddress w))) =
               reveals (trace w) ++ repeat (toHex (pc_commitment pc), pc_nonce pc) k) /\
  cursor (snd (revealAccount env userAddress w)) = cursor w.
Proof.
  intros Hpc.
  set (I := fun w' : World =>
              (pendingCommit w' = Some pc \/ pendingCommit w' = None) /\
              (exists k, reveals (trace w') =
                           reveals (trace w) ++
                           repeat (toHex (pc_commitment pc), pc_nonce pc) k) /\
              cursor w' = cursor w).
  assert (I (snd (revealAccount env userAddress w))) as (_ & Hk & Hc); [|done].
  unfold revealAccount, withRetry. runM. rewrite Hpc.
  apply (retryLoop_invariant I).
  - intros w' (Hpc' & Hk & Hc).
    destruct (revealAttempt_reuses env userAddress pc _ w' Hpc' Hk) as (H1 & H2 & H3).
    unfold I. by rewrite H3.
  - intros ms w' (Hpc' & Hk & Hc). unfold I. cbn [pendingCommit cursor tick].
    by rewrite reveals_tick, app_nil_r.
  - unfold I. split; [by left|]. split; [|done]. exists 0%nat. by rewrite app_nil_r.
Qed.

Lemma revealAccount_reuses_commit_witness :
  exists k, reveals (trace (snd (revealAccount (envWith 1000 []) address1 world1))) =
              reveals (trace world1) ++ repeat (toHex (mkFE 42), 17) k.
Proof.
  apply (revealAccount_reuses_commit (envWith 1000 []) address1 pending1 world1).
  reflexivity.
Defined.

End RevealFacts.
(* ===================================================================== *)
(** ** Choosing a keeper *)
(* ===================================================================== *)

Module KeeperFacts.
Import Orders Selection Traces FloatFacts MFacts Examples.

Lemma clock_ticks {A} (cs : list (call A)) : forall w,
  clock (ticks cs w) = (length cs + clock w)%nat.
Proof.
  unfold ticks. induction cs as [|c cs IH]; intros w; [done|].
  cbn [fold_left length]. rewrite IH. cbn [clock tick]. lia.
Qed.

Lemma length_answersTo env {A} (cs : list (call A)) : forall t,
  length (answersTo env t cs) = length cs.
Proof. induction cs as [|c cs IH]; intros t; [done|]. cbn. by rewrite IH. Qed.

Lemma length_allSettledOk {A} (rs : list (result A)) : forall l,
  allSettledOk rs = Ok l -> length l = length rs.
Proof.
  induction rs as [|[a|e] rs IH]; intros l H; cbn in H; [by injection H as <- | | done].
  destruct (allSettledOk rs) as [l'|]; [|done]. cbn in H. injection H as <-.
  cbn. by rewrite (IH l').
Qed.

(** [Promise.all] over the calls: all are issued, in order. *)
Lemma performAll_run env {A} (cs : list (call A)) : forall w,
  performAll env cs w = (Ok (answersTo env (clock w) cs), ticks cs w).
Proof.
  induction cs as [|c cs IH]; intros w; [done|].
  cbn [performAll answersTo]. unfold perform. runM.
  destruct (respond env A (clock w) c) as [a|e]; cbn beta iota; by rewrite IH.
Qed.

Lemma considerKeeper_run env st a w :
  considerKeeper env st a w =
    (Ok (stepKeeper st (a, respond env Keeper (clock w) (Keepers a))), tick (Keepers a) w).
Proof.
  unfold considerKeeper, stepKeeper, perform. runM. cbn [fst snd].
  destruct (respond env Keeper (clock w) (Keepers a)) as [keeper|e]; cbn beta iota; [|done].
  destruct (negb (isActive keeper) || isSlashed keeper); [done|]. cbv zeta.
  by destruct (snd st <? keeperScore keeper)%float.
Qed.

(** The loop over the sampled addresses is a fold over the candidates. *)
Lemma foldKeepers_run env addresses : forall st w,
  foldKeepers env st addresses w =
    (Ok (fold_left stepKeeper (candidates env (clock w) addresses) st),
     ticks (map Keepers addresses) w).
Proof.
  unfold candidates.
  induction addresses as [|a addresses IH]; intros st w; [done|].
  cbn [foldKeepers]. unfold mbind, M_bind, bindM. rewrite considerKeeper_run.
  rewrite IH. reflexivity.
Qed.

Lemma lookup_snoc_Some {T} (l : list T) (c x : T) j :
  (l ++ [c]) !! j = Some x -> l !! j = Some x \/ (j = length l /\ x = c).
Proof.
  intros H. apply lookup_app_Some in H as [H|[Hle H]]; [by left|right].
  destruct (j - length l)%nat as [|n] eqn:E; [|done].
  cbn in H. injection H as <-. split; [lia | done].
Qed.

Lemma selected_keep seen st c :
  selected seen st ->
  (forall a k, c = (a, Ok k) -> eligible k -> (snd st <? keeperScore k)%float = false) ->
  selected (seen ++ [c]) st.
Proof.
  intros [Hmax Hbest] Hc. split.
  - intros j a k Hj Hk. apply lookup_snoc_Some in Hj as [Hj|[_ Heq]]; [by eapply Hmax|].
    by eapply Hc.
  - destruct (fst st) as [best|]; [|done].
    destruct Hbest as (i & a & k & Hi & Hk & Hb & Hs & Hpos & Hfirst).
    exists i, a, k. split; [by apply lookup_app_l_Some|]. repeat (split; [done|]).
    intros j a' k' Hji Hj Hk'. apply lookup_snoc_Some in Hj as [Hj|[Hlen _]].
    + by eapply Hfirst.
    + apply lookup_lt_Some in Hi. lia.
Qed.

Lemma selected_step seen st c :
  selected seen st -> selected (seen ++ [c]) (stepKeeper st c).
Proof.
  intros Hsel. destruct c as [a [k|e]]; unfold stepKeeper; cbn [fst snd].
  - destruct (isActive k) eqn:Hact; cbn [negb orb].
    + destruct (isSlashed k) eqn:Hsl.
      * apply selected_keep; [done|]. intros a' k' Heq [_ Hk']. simplify_eq. congruence.
      * destruct (snd st <? keeperScore k)%float eqn:Hlt.
        -- destruct Hsel as [Hmax Hbest]. split; cbn [fst snd].
           ++ intros j a' k' Hj Hk'. apply lookup_snoc_Some in Hj as [Hj|[_ Heq]].
              ** eapply ltb_negtrans; [by eapply Hmax | done].
              ** simplify_eq. apply ltb_irrefl.
           ++ exists (length seen), a, k.
              split; [by rewrite lookup_app_r, Nat.sub_diag by lia|].
              split; [done|]. split; [done|]. split; [done|]. split.
              ** destruct (fst st) as [best|].
                 --- destruct Hbest as (i & a0 & k0 & _ & _ & _ & Hs & Hpos & _).
                     rewrite Hs in Hlt. by eapply ltb_trans.
                 --- by rewrite Hbest in Hlt.
              ** intros j a' k' Hji Hj Hk'.
                 apply lookup_snoc_Some in Hj as [Hj|[Hlen _]]; [|lia].
                 eapply leb_after; [by eapply Hmax | done].
        -- apply selected_keep; [done|]. intros a' k' Heq _. by simplify_eq.
    + apply selected_keep; [done|]. intros a' k' Heq [Hk' _]. simplify_eq. congruence.
  - apply selected_keep; [done|]. intros ? ? ?. discriminate.
Qed.

Lemma selected_fold cands : forall seen st,
  selected seen st -> selected (seen ++ cands) (fold_left stepKeeper cands st).
Proof.
  induction cands as [|c cands IH]; intros seen st Hsel.
  - by rewrite app_nil_r.
  - cbn [fold_left]. replace (seen ++ c :: cands) with ((seen ++ [c]) ++ cands)
      by by rewrite <- app_assoc.
    apply IH. by apply selected_step.
Qed.

Lemma selected_start : selected [] (None, 0%float).
Proof. split; [|done]. intros j a k H. done. Qed.

(** Keeper selection. With the contract, the keeper count (not zero)
    and the addresses of the sample fetched, [getActiveKeeperPublicKey]
    looks at no more than ten addresses.  Candidates whose data cannot be
    fetched, and keepers that are inactive or slashed, are passed over.
    It returns the public key of an eligible keeper whose score, computed
    in double arithmetic, is above zero, is beaten by no eligible
    candidate and is not reached by any eligible candidate met before it;
    and it throws ["No suitable keeper found"] exactly when no eligible
    candidate scores above zero. *)
Theorem getActiveKeeperPublicKey_selects (env : Env) (w : World) (count : Z)
    (addresses : list string) :
  respond env unit (clock w) (GetContract "TradePrivate" false) = Ok tt ->
  respond env Z (S (clock w)) ActiveKeeperListLength = Ok count ->
  count <> 0 ->
  allSettledOk
    (answersTo env (S (S (clock w)))
       (map (fun i => ActiveKeeperList (Z.of_nat i)) (seq 0 (sampleSize count)))) =
    Ok addresses ->
  let cands := candidates env (sampleSize count + S (S (clock w))) addresses in
  length addresses = sampleSize count /\ (sampleSize count <= 10)%nat /\
  match fst (getActiveKeeperPublicKey env w) with
  | Ok pk =>
      exists i a k,
        cands !! i = Some (a, Ok k) /\ eligible k /\ pk = publicKey k /\
        (0 <? keeperScore k)%float = true /\
        (forall j a' k', cands !! j = Some (a', Ok k') -> eligible k' ->
           (keeperScore k <? keeperScore k')%float = false) /\
        (forall j a' k', (j < i)%nat -> cands !! j = Some (a', Ok k') -> eligible k' ->
           (keeperScore k <=? keeperScore k')%float = false)
  | Throw e =>
      e = Error "No suitable keeper found" /\
      forall j a' k', cands !! j = Some (a', Ok k') -> eligible k' ->
        (0 <? keeperScore k')%float = false
  end.
Proof.
  intros Hcontract Hcount Hne Hlist cands.
  assert (length addresses = sampleSize count) as Hlen.
  { rewrite (length_allSettledOk _ _ Hlist), length_answersTo, length_map, length_seq.
    reflexivity. }
  split; [done|]. split; [unfold sampleSize; lia|].
  unfold getActiveKeeperPublicKey, perform. runM.
  rewrite Hcontract. cbn beta iota. cbn [clock tick]. rewrite Hcount. cbn beta iota.
  destruct (Z.eqb_spec count 0) as [|_]; [done|].
  rewrite performAll_run. cbn [clock tick]. rewrite Hlist.
  rewrite foldKeepers_run, clock_ticks, length_map, length_seq. cbn [clock tick].
  fold cands.
  pose proof (selected_fold cands [] _ selected_start) as [Hmax Hbest].
  cbn [app] in Hmax, Hbest.
  destruct (fst (fold_left stepKeeper cands (None, 0%float))) as [best|]; cbn [fst].
  - destruct Hbest as (i & a & k & Hi & Hk & -> & Hs & Hpos & Hfirst).
    exists i, a, k. rewrite Hs in Hmax.
    split; [done|]. split; [done|]. split; [done|]. split; [done|]. by split.
  - rewrite Hbest in Hmax. by split.
Qed.

(** The theorem with four keepers on the ledger: the first scores
    [49 * (1 / 49)], the second [1 * 1], the third has no reputation and
    the fourth is slashed. *)
Lemma getActiveKeeperPublicKey_selects_witness :
  let env := envWith 0 [keeperA; keeperB; keeperZ; keeperS] in
  let cands := candidates env (sampleSize 4 + S (S (clock world1))) ["0"; "1"; "2"; "3"]%string in
  length ["0"; "1"; "2"; "3"]%string = sampleSize 4 /\ (sampleSize 4 <= 10)%nat /\
  match fst (getActiveKeeperPublicKey env world1) with
  | Ok pk =>
      exists i a k,
        cands !! i = Some (a, Ok k) /\ eligible k /\ pk = publicKey k /\
        (0 <? keeperScore k)%float = true /\
        (forall j a' k', cands !! j = Some (a', Ok k') -> eligible k' ->
           (keeperScore k <? keeperScore k')%float = false) /\
        (forall j a' k', (j < i)%nat -> cands !! j = Some (a', Ok k') -> eligible k' ->
           (keeperScore k <=? keeperScore k')%float = false)
  | Throw e =>
      e = Error "No suitable keeper found" /\
      forall j a' k', cands !! j = Some (a', Ok k') -> eligible k' ->
        (0 <? keeperScore k')%float = false
  end.
Proof.
  apply (getActiveKeeperPublicKey_selects (envWith 0 [keeperA; keeperB; keeperZ; keeperS])
           world1 4 ["0"; "1"; "2"; "3"]%string); [reflexivity | reflexivity | lia | reflexivity].
Defined.

End KeeperFacts.
(* ===================================================================== *)
(** ** Byte utilities *)
(* ===================================================================== *)

Module UtilsFacts.
Import Field Commitment Utils Digits HexFacts CodecFacts CommitFacts CommitObjFacts.








Lemma pairBytes_cons2 a b r : pairBytes (a :: b :: r) = 16 * a + b :: pairBytes r.
Proof. reflexivity. Qed.

Lemma pairBytes_bytes bs :
  Forall isByte bs -> pairBytes (flat_map (fixed 2) bs) = bs.
Proof.
  induction 1 as [|b bs Hb _ IH]; [done|]. unfold isByte in Hb.
  change (flat_map (fixed 2) (b :: bs))
    with ([(b / 16 ^ Z.of_nat 1) mod 16; (b / 16 ^ Z.of_nat 0) mod 16] ++
          flat_map (fixed 2) bs).
  cbn [app]. rewrite pairBytes_cons2, IH. f_equal.
  change (16 ^ Z.of_nat 1) with 16. change (16 ^ Z.of_nat 0) with 1.
  rewrite Z.div_1_r, (Z.mod_small (b / 16)).
  - pose proof (Z.div_mod b 16 ltac:(lia)). lia.
  - split; [apply Z.div_pos; lia | apply Z.div_lt_upper_bound; lia].
Qed.

Lemma chars_bytesToHex bs :
  Forall isByte bs -> chars (bytesToHex bs) = map digitChar (flat_map (fixed 2) bs).
Proof. intros H. unfold bytesToHex. by rewrite chars_concat, chars_hex_bytes. Qed.

Lemma length_flat_fixed bs : length (flat_map (fixed 2) bs) = (2 * length bs)%nat.
Proof.
  induction bs as [|b bs IH]; [done|]. cbn [flat_map]. rewrite length_app, IH.
  cbn. lia.
Qed.

(** Little-endian bytes are the big-endian ones reversed. *)
Lemma bigIntToBytes_rev n : forall v, bigIntToBytes v n = rev (bigEndian n v).
Proof.
  induction n as [|n IH]; intros v; [done|].
  cbn [bigIntToBytes bigEndian]. rewrite rev_app_distr, IH. reflexivity.
Qed.

Lemma plus_fold_bytes bs : forall acc,
  Forall isByte bs ->
  fold_left (fun result b => Z.shiftl result 8 + b) bs acc =
  fold_left (fun v b => Z.lor (Z.shiftl v 8) b) bs acc.
Proof.
  induction bs as [|b bs IH]; intros acc H; [done|].
  inversion H as [|? ? Hb Hbs]; subst. unfold isByte in Hb. cbn [fold_left].
  rewrite lor_shiftl_byte, Z.shiftl_mul_pow2 by lia. change (2 ^ 8) with 256.
  by apply IH.
Qed.

(** Big-endian bytes are recovered from their value. *)
Lemma abi_uint_bytesValue bs :
  Forall isByte bs -> abi_uint (length bs) (bytesValue bs) = bs.
Proof.
  induction bs as [|b bs IH] using rev_ind; intros H; [done|].
  apply Forall_app in H as [Hbs Hb]. inversion Hb as [|? ? Hb' _]; subst.
  unfold isByte in Hb'.
  rewrite length_app, Nat.add_comm. cbn [length Nat.add].
  rewrite abi_uint_snoc, bytesValue_snoc by done.
  rewrite Z.div_add_l, Z.div_small, Z.add_0_r by lia.
  rewrite IH by done. f_equal. f_equal.
  rewrite Z.add_comm, Z.mod_add by lia. apply Z.mod_small. lia.
Qed.

(** The encodings of [utils.js] round-trip: [hexToBytes] undoes
    [bytesToHex] (which prints two digits per byte), [bytesToBigInt]
    undoes [bigIntToBytes] up to the bytes that fit, and [bigIntToBytes]
    undoes [bytesToBigInt]. *)
Theorem utils_round_trips (bytes : list Z) (v : Z) (n : nat) :
  Forall isByte bytes ->
  String.length (bytesToHex bytes) = (2 * length bytes)%nat /\
  hexToBytes (bytesToHex bytes) = bytes /\
  bytesToBigInt (bigIntToBytes v n) = v mod 256 ^ Z.of_nat n /\
  bigIntToBytes (bytesToBigInt bytes) (length bytes) = bytes.
Proof.
  intros Hb.
  pose proof (chars_bytesToHex bytes Hb) as Hchars.
  assert (hexDigits (chars (bytesToHex bytes)) = Some (flat_map (fixed 2) bytes)) as Hds.
  { rewrite Hchars. apply hexDigits_digitChar, flat_fixed_range. }
  split; [|split; [|split]].
  - by rewrite <- length_chars, Hchars, length_map, length_flat_fixed.
  - unfold hexToBytes. rewrite (startsWith_0x_digits _ _ Hds).
    rewrite (parseHexPairs_digits _ _ Hds). by apply pairBytes_bytes.
  - unfold bytesToBigInt. rewrite bigIntToBytes_rev, rev_involutive, bigEndian_abi_uint.
    rewrite plus_fold_bytes by apply abi_uint_range.
    apply bytesValue_abi_uint.
  - unfold bytesToBigInt. rewrite bigIntToBytes_rev, bigEndian_abi_uint.
    assert (Forall isByte (rev bytes)) as Hrev.
    { apply Forall_forall. intros x Hx. rewrite Forall_forall in Hb. apply Hb.
      apply list_elem_of_In. apply list_elem_of_In in Hx. by apply in_rev. }
    rewrite plus_fold_bytes by done.
    change (fold_left (fun v b => Z.lor (Z.shiftl v 8) b) (rev bytes) 0)
      with (bytesValue (rev bytes)).
    rewrite <- (length_rev bytes), abi_uint_bytesValue by done.
    apply rev_involutive.
Qed.

Lemma utils_round_trips_witness :
  hexToBytes (bytesToHex [0; 171; 255]) = [0; 171; 255].
Proof.
  apply (utils_round_trips [0; 171; 255] 0 0).
  repeat constructor; unfold isByte; lia.
Defined.

End UtilsFacts.
(* ===================================================================== *)
(** ** The nonce of an order attempt *)
(* ===================================================================== *)

Module AttemptFacts.
Import Field Commitment Nullifier Retry Account Orders Traces FrameFacts MFacts Examples
  FieldFacts FieldOps LinearFacts CommitObjFacts OrderFacts.

Lemma nullifierQueries_tick {A} (c : call A) w :
  nullifierQueryOf (Called c) = None ->
  nullifierQueries (trace (tick c w)) = nullifierQueries (trace w).
Proof.
  intros H. unfold nullifierQueries. cbn [tick trace]. rewrite omap_app.
  replace (omap nullifierQueryOf [Called c]) with (@nil string); [apply app_nil_r|].
  unfold omap. cbn [list_omap]. by rewrite H.
Qed.

Lemma generateOrderNullifier_elems k c n :
  0 <= value k -> 0 <= value c ->
  generateOrderNullifier (Elem k) (Elem c) (Raw (JBigInt n)) =
    Ok (toHex (mkFE ((value k + 2 * value c + 3 * n) mod FIELD_SIZE))).
Proof.
  intros Hk Hc. pose proof FIELD_SIZE_pos as Hp.
  unfold generateOrderNullifier. cbn [coerce]. rbind.
  rewrite new_FieldElement_bigint. rbind.
  rewrite !mul_raw by (rbind; first [done | apply mod_nonneg]). rbind.
  rewrite add_spec by (rbind; first [done | apply mod_nonneg]). rbind.
  rewrite add_spec by (rbind; apply mod_nonneg). rbind.
  do 3 f_equal.
  rewrite Z.mul_mod_idemp_l by lia.
  rewrite (Z.add_mod_idemp_r _ (n * 3)) by lia.
  rewrite (Z.add_mod_idemp_l (value k + (value c * 2) mod FIELD_SIZE)) by lia.
  rewrite (Z.add_comm (value k)), <- Z.add_assoc.
  rewrite (Z.add_mod_idemp_l (value c * 2)) by lia. f_equal. lia.
Qed.

Lemma submitAttempt_run env orderParams w orderData key :
  respond env unit (clock w) (GetContract "TradePrivate" true) = Ok tt ->
  formatOrderData env orderParams = Ok orderData ->
  privateKey w = Some key ->
  0 <= value key < FIELD_SIZE ->
  let nonce := bytesValue (maskFirst (map (fun i => random env i mod 256) (seq (cursor w) 32))) in
  let h := fold_left (fun h b => h * 31 + b) (encode (serializeOrderData orderData)) 1 in
  exists r w',
    submitAttempt env orderParams w = (r, w') /\
    cursor w' = (cursor w + 32)%nat /\
    nullifierQueries (trace w') =
      nullifierQueries (trace w) ++
      [toHex (mkFE ((value key + 2 * (h + nonce) + 3 * nonce) mod FIELD_SIZE))].
Proof.
  intros Hcontract Hformat Hkey Hrange nonce h. pose proof FIELD_SIZE_pos as Hp.
  set (N := toHex (mkFE ((value key + 2 * (h + nonce) + 3 * nonce) mod FIELD_SIZE))).
  unfold submitAttempt, OrderEncryption_encryptOrder. runM. unfold perform at 1.
  rewrite Hcontract. cbn beta iota. rewrite generateNonce_run. cbn beta iota.
  cbn [cursor tick]. fold nonce. rewrite Hformat, generateOrderCommitment_spec.
  fold h. cbn [privateKey draw tick]. rewrite Hkey. cbn [keyOperand].
  rewrite generateOrderNullifier_elems by (cbn [value]; first [lia | apply mod_nonneg]).
  cbn [value].
  assert ((value key + 2 * ((h + nonce) mod FIELD_SIZE) + 3 * nonce) mod FIELD_SIZE =
          (value key + 2 * (h + nonce) + 3 * nonce) mod FIELD_SIZE) as ->.
  { rewrite (Z.mod_eq (h + nonce)) by lia.
    replace (value key + 2 * (h + nonce - FIELD_SIZE * ((h + nonce) / FIELD_SIZE)) + 3 * nonce)
      with (value key + 2 * (h + nonce) + 3 * nonce
            + (- 2 * ((h + nonce) / FIELD_SIZE)) * FIELD_SIZE) by lia.
    apply Z.mod_add. lia. }
  fold N.
  set (w1 := draw 32 (tick (GetContract "TradePrivate" true) w)).
  assert (cursor w1 = (cursor w + 32)%nat) as Hc1 by reflexivity.
  assert (nullifierQueries (trace w1) = nullifierQueries (trace w)) as Hq1.
  { unfold w1. cbn [trace draw]. by apply nullifierQueries_tick. }
  assert (nullifierQueries (trace (tick (UsedNullifiers N) w1)) =
          nullifierQueries (trace w) ++ [N]) as Hq2.
  { unfold nullifierQueries in *. cbn [tick trace]. by rewrite omap_app, Hq1. }
  assert (cursor (snd (getActiveKeeperPublicKey env (tick (UsedNullifiers N) w1))) =
            (cursor w + 32)%nat /\
          nullifierQueries
            (trace (snd (getActiveKeeperPublicKey env (tick (UsedNullifiers N) w1)))) =
            nullifierQueries (trace w) ++ [N]) as [Hk1 Hk2].
  { assert (preserves cursor (getActiveKeeperPublicKey env)) as Pc
      by (apply preserves_getActiveKeeperPublicKey; intros; reflexivity).
    assert (preserves (fun w => nullifierQueries (trace w)) (getActiveKeeperPublicKey env))
      as Pq by (apply preserves_getActiveKeeperPublicKey; intros;
                by apply nullifierQueries_tick).
    split.
    - rewrite (Pc (tick (UsedNullifiers N) w1)). exact Hc1.
    - rewrite (Pq (tick (UsedNullifiers N) w1)). exact Hq2. }
  unfold isNullifierUsed, perform. runM.
  destruct (respond env bool (clock w1) (UsedNullifiers N)) as [[|]|e]; cbn beta iota.
  - eexists _, _. split; [reflexivity|]. split; [exact Hc1 | exact Hq2].
  - destruct (getActiveKeeperPublicKey env (tick (UsedNullifiers N) w1)) as [[pk|e0] w3];
      cbn [snd] in Hk1, Hk2; eexists _, _; (split; [reflexivity|]); by split.
  - destruct (getActiveKeeperPublicKey env (tick (UsedNullifiers N) w1)) as [[pk|e0] w3];
      cbn [snd] in Hk1, Hk2; eexists _, _; (split; [reflexivity|]); by split.
Qed.

(** Every attempt to submit an order that gets its contract handle draws
    the next 32 random bytes for a nonce of its own and asks the ledger
    about the nullifier [privateKey + 2 * (h + nonce) + 3 * nonce] it
    derives from that nonce, [h] being the hash of the serialized order;
    no other nullifier is asked about and no other byte is drawn.  So a
    retry, which starts where the attempt before it left the random
    source, works with a fresh nonce and a fresh nullifier. *)
Theorem submitAttempt_fresh_nonce (env : Env) (orderParams : OrderParams) (w : World)
    (orderData : OrderData) (key : FieldElement) :
  respond env unit (clock w) (GetContract "TradePrivate" true) = Ok tt ->
  formatOrderData env orderParams = Ok orderData ->
  privateKey w = Some key ->
  0 <= value key < FIELD_SIZE ->
  let nonce := bytesValue (maskFirst (map (fun i => random env i mod 256) (seq (cursor w) 32))) in
  let h := fold_left (fun h b => h * 31 + b) (encode (serializeOrderData orderData)) 1 in
  cursor (snd (submitAttempt env orderParams w)) = (cursor w + 32)%nat /\
  nullifierQueries (trace (snd (submitAttempt env orderParams w))) =
    nullifierQueries (trace w) ++
    [toHex (mkFE ((value key + 2 * (h + nonce) + 3 * nonce) mod FIELD_SIZE))].
Proof.
  intros Hcontract Hformat Hkey Hrange nonce h.
  destruct (submitAttempt_run env orderParams w orderData key Hcontract Hformat Hkey Hrange)
    as (r & w' & -> & Hc & Hq).
  by split.
Qed.

(** The theorem for a client with key 12345 and the order of the
    examples. *)
Lemma submitAttempt_fresh_nonce_witness :
  cursor (snd (submitAttempt (envWith 0 [keeperB]) params1 world1)) = (cursor world1 + 32)%nat.
Proof.
  apply (submitAttempt_fresh_nonce (envWith 0 [keeperB]) params1 world1 order1 (mkFE 12345));
    try reflexivity.
  cbn [value]. unfold FIELD_SIZE. lia.
Defined.

End AttemptFacts.
